(** * Verification of [lambda_function_new.py]

    The repository holds one AWS Lambda handler, [lambda_handler], which is
    triggered by an S3 upload, transcribes the uploaded recording with AWS
    Transcribe, summarises the transcript with a chat model and writes the
    summary back to S3.

    The handler is embedded as a function in a small error-and-log monad.
    The collaborators (object store, transcription service, chat model, the
    clock) are oracles gathered in a record [World]; every call the handler
    makes is recorded, with its outcome, in the log.  Library functions the
    handler relies on are embedded from their CPython definitions where a
    property depends on them ([urllib.parse.unquote_plus], the UTF-8 codec)
    and gathered in a record [Runtime] otherwise ([json.loads], [str.lower],
    the text of built-in error messages).  Every [print] of the source is
    embedded: standard output is a UTF-8 text stream, so that a [print] raises
    when its text holds a lone surrogate.  The handler returns a record, or
    lets an exception through: one that is not an [Exception], or the one
    raised by the [print] of the [except] clause. *)

From Stdlib Require Import ZArith List String Ascii Lia Bool.
From stdpp Require Import base option list gmap.
Import ListNotations.
Local Open Scope Z_scope.
Set Warnings "-register-all".

(** ** Python strings and bytes *)

(** A Python [str] is a sequence of code points, a [bytes] a sequence of
    octets; both are lists of integers here. *)
Definition pystr := list Z.
Definition pybytes := list Z.

Definition is_code_point (c : Z) : Prop := 0 <= c <= 0x10FFFF.
Definition is_surrogate (c : Z) : bool := (0xD800 <=? c) && (c <=? 0xDFFF).

(** ASCII literals of the source, written as Rocq strings. *)
Fixpoint lit (s : string) : pystr :=
  match s with
  | EmptyString => []
  | String a s' => Z.of_N (N_of_ascii a) :: lit s'
  end.

(** ** The UTF-8 codec *)

Module Utf8.

(** [str.encode("utf-8")] on one code point. *)
Definition encode_cp (c : Z) : pybytes :=
  if c <? 0x80 then [c]
  else if c <? 0x800 then [0xC0 + c / 64; 0x80 + c mod 64]
  else if c <? 0x10000 then
    [0xE0 + c / 4096; 0x80 + (c / 64) mod 64; 0x80 + c mod 64]
  else
    [0xF0 + c / 262144; 0x80 + (c / 4096) mod 64;
     0x80 + (c / 64) mod 64; 0x80 + c mod 64].

Definition encode_all (s : pystr) : pybytes := flat_map encode_cp s.

(** The strict encoder refuses lone surrogates ([UnicodeEncodeError]). *)
Definition encode (s : pystr) : option pybytes :=
  if existsb is_surrogate s then None else Some (encode_all s).

Definition is_cont (b : Z) : bool := (0x80 <=? b) && (b <? 0xC0).

(** Second byte of a three- or four-byte sequence: CPython rejects a
    non-continuation byte, an overlong form, a surrogate and a code point
    above U+10FFFF at this byte. *)
Definition bad_second3 (b0 b1 : Z) : bool :=
  negb (is_cont b1) || (if b1 <? 0xA0 then b0 =? 0xE0 else b0 =? 0xED).
Definition bad_second4 (b0 b1 : Z) : bool :=
  negb (is_cont b1) || (if b1 <? 0x90 then b0 =? 0xF0 else b0 =? 0xF4).

Definition cp2 (b0 b1 : Z) : Z := (b0 - 0xC0) * 64 + (b1 - 0x80).
Definition cp3 (b0 b1 b2 : Z) : Z :=
  (b0 - 0xE0) * 4096 + (b1 - 0x80) * 64 + (b2 - 0x80).
Definition cp4 (b0 b1 b2 b3 : Z) : Z :=
  (b0 - 0xF0) * 262144 + (b1 - 0x80) * 4096 + (b2 - 0x80) * 64 + (b3 - 0x80).

(** The decoder of CPython ([utf8_decode] in [stringlib/codecs.h] with the
    error positions of [unicode_decode_utf8]): [Some c] is a decoded code
    point, [None] one decoding error.  After an invalid start byte or an
    invalid continuation byte decoding resumes right after the bytes that
    were accepted; a sequence cut short by the end of the input is one
    error. *)
Fixpoint scan (bs : pybytes) : list (option Z) :=
  match bs with
  | [] => []
  | b0 :: r0 =>
    if b0 <? 0x80 then Some b0 :: scan r0
    else if b0 <? 0xC2 then None :: scan r0
    else if b0 <? 0xE0 then
      match r0 with
      | [] => [None]
      | b1 :: r1 =>
        if is_cont b1 then Some (cp2 b0 b1) :: scan r1 else None :: scan r0
      end
    else if b0 <? 0xF0 then
      match r0 with
      | [] => [None]
      | b1 :: r1 =>
        if bad_second3 b0 b1 then None :: scan r0
        else
          match r1 with
          | [] => [None]
          | b2 :: r2 =>
            if is_cont b2 then Some (cp3 b0 b1 b2) :: scan r2
            else None :: scan r1
          end
      end
    else if b0 <? 0xF5 then
      match r0 with
      | [] => [None]
      | b1 :: r1 =>
        if bad_second4 b0 b1 then None :: scan r0
        else
          match r1 with
          | [] => [None]
          | b2 :: r2 =>
            if is_cont b2 then
              match r2 with
              | [] => [None]
              | b3 :: r3 =>
                if is_cont b3 then Some (cp4 b0 b1 b2 b3) :: scan r3
                else None :: scan r2
              end
            else None :: scan r1
          end
      end
    else None :: scan r0
  end.

Definition replacement_character : Z := 0xFFFD.

(** [bytes.decode("utf-8", errors="replace")]. *)
Definition decode_replace (bs : pybytes) : pystr :=
  map (default replacement_character) (scan bs).

(** [bytes.decode("utf-8")]: [None] stands for [UnicodeDecodeError]. *)
Definition decode (bs : pybytes) : option pystr := mapM id (scan bs).

End Utf8.

(** ** [urllib.parse.unquote_plus] *)

Module UrlParse.

Definition percent : Z := 37.
Definition plus : Z := 43.
Definition space : Z := 32.

Definition in_range (lo hi c : Z) : bool := (lo <=? c) && (c <=? hi).

(** [_hexdig = '0123456789ABCDEFabcdef'] *)
Definition is_hexdig (c : Z) : bool :=
  in_range 48 57 c || in_range 65 70 c || in_range 97 102 c.

Definition hexval (c : Z) : Z :=
  if in_range 48 57 c then c - 48
  else if in_range 65 70 c then c - 55
  else c - 87.

(** The table [_hextobyte]: defined on exactly the two-digit keys. *)
Definition hextobyte (k : pybytes) : option Z :=
  match k with
  | [a; b] => if is_hexdig a && is_hexdig b
              then Some (16 * hexval a + hexval b) else None
  | _ => None
  end.

(** [string.split(b'%')]: the first piece and the pieces after each
    separator. *)
Fixpoint split (sep : Z) (s : pybytes) : pybytes * list pybytes :=
  match s with
  | [] => ([], [])
  | c :: r =>
    let '(h, t) := split sep r in
    if c =? sep then ([], h :: t) else (c :: h, t)
  end.

(** Body of the loop [for item in bits[1:]] of [unquote_to_bytes]. *)
Definition unquote_item (item : pybytes) : pybytes :=
  match hextobyte (take 2 item) with
  | Some b => b :: drop 2 item
  | None => percent :: item
  end.

(** [unquote_to_bytes] on an ASCII string, whose UTF-8 encoding is the
    string itself. *)
Definition unquote_to_bytes (s : pystr) : pybytes :=
  match s with
  | [] => []
  | _ =>
    match split percent s with
    | (_, []) => s
    | (first, items) => first ++ flat_map unquote_item items
    end
  end.

(** The same function as one pass from left to right: an escape is a
    percent sign followed by two hexadecimal digits. *)
Fixpoint unquote_scan (s : pybytes) : pybytes :=
  match s with
  | [] => []
  | c :: r =>
    if c =? percent then
      match r with
      | a :: b :: r' =>
        if is_hexdig a && is_hexdig b
        then 16 * hexval a + hexval b :: unquote_scan r'
        else percent :: unquote_scan r
      | _ => percent :: unquote_scan r
      end
    else c :: unquote_scan r
  end.

Definition is_ascii (c : Z) : bool := c <? 0x80.

Definition unquote_run (run : pystr) : pystr :=
  Utf8.decode_replace (unquote_to_bytes run).

(** The loop of [unquote] over the matches of [_asciire = '([\x00-\x7f]+)']:
    [run] is the maximal ASCII run read so far; it is unquoted and decoded
    when a non-ASCII character or the end of the string closes it, and
    non-ASCII characters are kept as they are. *)
Fixpoint unquote_parts (run : pystr) (s : pystr) : pystr :=
  match s with
  | [] => unquote_run run
  | c :: r =>
    if is_ascii c then unquote_parts (run ++ [c]) r
    else unquote_run run ++ c :: unquote_parts [] r
  end.

Definition unquote (s : pystr) : pystr :=
  if existsb (Z.eqb percent) s then unquote_parts [] s else s.

(** [string.replace('+', ' ')] *)
Definition replace_plus (s : pystr) : pystr :=
  map (fun c => if c =? plus then space else c) s.

Definition unquote_plus (s : pystr) : pystr := unquote (replace_plus s).

End UrlParse.

(** ** Python values, subscripting and exceptions *)

(** The values [json.loads] produces, which is what the event, the service
    responses and the transcript document are made of.  A [dict] is the list
    of its items; a [float] is kept as its bit pattern, since the handler
    never computes with one. *)
Inductive pyval :=
| PNone
| PBool (b : bool)
| PInt (z : Z)
| PFloat (bits : Z)
| PStr (s : pystr)
| PList (l : list pyval)
| PDict (d : list (pystr * pyval)).

(** The subscripts of the source: ['name'], [[0]] and [[:150]]. *)
Inductive subscript :=
| Key (k : pystr)
| Index (i : nat)
| SliceTo (stop : nat).

(** The exceptions the handler can meet.  All but the last are instances of
    [Exception]:
    - [SubscriptError v sub]: [v[sub]] failed ([KeyError], [IndexError] or
      [TypeError], according to the types);
    - [AttributeError v attr]: [v] has no method [attr];
    - [UnicodeEncodeError s]: the UTF-8 codec met a lone surrogate in [s];
    - [UnboundLocalError x]: local [x] read before assignment;
    - [Exception msg]: [raise Exception(msg)] in the source;
    - [Foreign msg]: an [Exception] raised inside a collaborator or a
      library call, [msg] being its [str()];
    - [BaseException name]: raised inside a collaborator or a library call,
      and not an [Exception] ([KeyboardInterrupt], [SystemExit]). *)
Inductive exn :=
| SubscriptError (v : pyval) (sub : subscript)
| AttributeError (v : pyval) (attr : pystr)
| UnicodeEncodeError (s : pystr)
| UnboundLocalError (x : pystr)
| Exception (msg : pystr)
| Foreign (msg : pystr)
| BaseException (name : pystr).

(** [isinstance(e, Exception)] *)
Definition is_exception (e : exn) : bool :=
  match e with
  | BaseException _ => false
  | _ => true
  end.

(** The exceptions the interpreter raises itself. *)
Definition is_builtin (e : exn) : bool :=
  match e with
  | SubscriptError _ _ | AttributeError _ _
  | UnicodeEncodeError _ | UnboundLocalError _ => true
  | _ => false
  end.

Fixpoint dict_get (d : list (pystr * pyval)) (k : pystr) : option pyval :=
  match d with
  | [] => None
  | (k', v) :: d' => if decide (k' = k) then Some v else dict_get d' k
  end.

(** [v[sub]].  The keys of a [dict] are strings, so an integer or a slice
    never finds an item; a string indexed by an integer gives a one-character
    string. *)
Definition getitem (v : pyval) (sub : subscript) : exn + pyval :=
  match v, sub with
  | PDict d, Key k =>
    match dict_get d k with
    | Some x => inr x
    | None => inl (SubscriptError v sub)
    end
  | PList l, Index i =>
    match l !! i with
    | Some x => inr x
    | None => inl (SubscriptError v sub)
    end
  | PList l, SliceTo n => inr (PList (take n l))
  | PStr s, Index i =>
    match s !! i with
    | Some c => inr (PStr [c])
    | None => inl (SubscriptError v sub)
    end
  | PStr s, SliceTo n => inr (PStr (take n s))
  | _, _ => inl (SubscriptError v sub)
  end.

(** [v == s] for a string literal [s]. *)
Definition eq_str (v : pyval) (s : pystr) : bool :=
  match v with
  | PStr t => bool_decide (t = s)
  | _ => false
  end.

(** A text that the UTF-8 codec encodes: it holds no lone surrogate. *)
Definition printable (text : pystr) : bool := negb (existsb is_surrogate text).

(** Library behaviour the handler uses.  The message of an exception the
    interpreter raises names a type, gives the [repr] of the key at fault or
    the escaped form of the character the codec refused: CPython never puts
    a lone surrogate in it. *)
Record Runtime := {
  (** [json.loads] on the bytes read from the transcript object *)
  json_loads : pybytes -> exn + pyval;
  (** [str.lower] *)
  str_lower : pystr -> pystr;
  (** [str(v)] of a value that is not a string *)
  format_other : pyval -> pystr;
  (** [str(e)] of an exception raised by the interpreter *)
  error_text : exn -> pystr;
  error_text_printable : forall e, printable (error_text e) = true
}.

(** [str(v)], which is also [f"{v}"] *)
Definition format (rt : Runtime) (v : pyval) : pystr :=
  match v with
  | PStr s => s
  | _ => format_other rt v
  end.

(** [str(e)] *)
Definition str_exn (rt : Runtime) (e : exn) : pystr :=
  match e with
  | Exception msg => msg
  | Foreign msg => msg
  | _ => error_text rt e
  end.

(** ** The collaborators *)

(** The calls the handler makes, with their arguments. *)
Inductive call :=
| StartTranscriptionJob (job_name media_uri media_format language_code : pystr)
                        (output_bucket : pyval) (output_key : pystr)
| GetTranscriptionJob (job_name : pystr)
| Sleep (seconds : Z)
| GetObject (bucket : pyval) (key : pystr)
| ChatCompletion (model system_prompt : pystr) (user : pyval) (max_tokens : Z)
| PutObject (bucket : pyval) (key : pystr) (body : pybytes)
            (content_type : pystr).

Record entry := { called : call; returned : bool }.

(** What the outside world answers.  [get_transcription_job n] is the answer
    to the poll number [n] (from 0) and [sleep n] the outcome of the
    [time.sleep] that follows it; [get_object] stands for
    [s3.get_object(...)["Body"].read()]; [chat_completions_create] gives the
    [message.content] of each choice of the response.  Any of them may raise,
    also an exception that is not an [Exception]. *)
Record World := {
  uuid4_hex : pystr;
  start_transcription_job :
    pystr -> pystr -> pystr -> pystr -> pyval -> pystr -> exn + unit;
  get_transcription_job : nat -> pystr -> exn + pyval;
  sleep : nat -> exn + unit;
  get_object : pyval -> pystr -> exn + pybytes;
  chat_completions_create :
    pystr -> pystr -> pyval -> Z -> exn + list (option pystr);
  put_object : pyval -> pystr -> pybytes -> pystr -> exn + unit
}.

(** ** The monad of the handler: an exception or a value, and the log *)

Definition M (A : Type) : Type := (exn + A) * list entry.

Global Instance M_ret : MRet M := fun A a => (inr a, []).
Global Instance M_bind : MBind M := fun A B k m =>
  match m with
  | (inl e, l) => (inl e, l)
  | (inr a, l) => let '(r, l') := k a in (r, l ++ l')
  end.

Definition raise {A} (e : exn) : M A := (inl e, []).

(** A step of the interpreter: no call is made. *)
Definition eval {A} (r : exn + A) : M A := (r, []).

Definition succeeded {A} (r : exn + A) : bool :=
  match r with inl _ => false | inr _ => true end.

(** A call to a collaborator, logged with its outcome. *)
Definition invoke {A} (c : call) (r : exn + A) : M A :=
  (r, [{| called := c; returned := succeeded r |}]).

(** The log [l] followed by the run of [m]. *)
Definition prepend {A} (l : list entry) (m : M A) : M A := (m.1, l ++ m.2).

(** ** Standard output *)

(** [print(a1, ..., an)] writes the text of each argument in turn to
    [sys.stdout], a UTF-8 text stream with the strict error handler (Python's
    default, and what the Lambda runtime provides): the write of a text that
    holds a lone surrogate raises [UnicodeEncodeError], any other text is
    accepted.  What is printed is not part of the log. *)
Fixpoint print (args : list pystr) : M unit :=
  match args with
  | [] => mret tt
  | text :: args' =>
    if printable text then print args' else raise (UnicodeEncodeError text)
  end.
(** ** [lambda_handler] *)

Definition k_Records := lit "Records".
Definition k_s3 := lit "s3".
Definition k_bucket := lit "bucket".
Definition k_name := lit "name".
Definition k_object := lit "object".
Definition k_key := lit "key".
Definition k_TranscriptionJob := lit "TranscriptionJob".
Definition k_TranscriptionJobStatus := lit "TranscriptionJobStatus".
Definition k_results := lit "results".
Definition k_transcripts := lit "transcripts".
Definition k_transcript := lit "transcript".
Definition k_status := lit "status".
Definition k_summary_file := lit "summary_file".
Definition k_error := lit "error".

Definition COMPLETED := lit "COMPLETED".
Definition FAILED := lit "FAILED".
Definition IN_PROGRESS := lit "IN_PROGRESS".

Definition language_code := lit "en-US".
Definition model := lit "gpt-4o-mini".
Definition system_prompt :=
  lit "Summarize medical consultations clearly and concisely.".
Definition max_tokens : Z := 300.
Definition text_plain := lit "text/plain".
Definition poll_interval : Z := 10.
Definition max_attempts : nat := 30.

(** [v[k1][k2]...] evaluated left to right. *)
Fixpoint getpath (v : pyval) (subs : list subscript) : exn + pyval :=
  match subs with
  | [] => inr v
  | sub :: subs' =>
    match getitem v sub with
    | inl e => inl e
    | inr x => getpath x subs'
    end
  end.

(** [unquote_plus(v)]: [v.replace] exists on a string only. *)
Definition unquote_plus_val (v : pyval) : exn + pystr :=
  match v with
  | PStr s => inr (UrlParse.unquote_plus s)
  | _ => inl (AttributeError v (lit "replace"))
  end.

(** Lines 24-25. *)
Definition decode_event (event : pyval) : exn + (pyval * pystr) :=
  match getpath event [Key k_Records; Index 0%nat; Key k_s3;
                       Key k_bucket; Key k_name] with
  | inl e => inl e
  | inr bucket =>
    match getpath event [Key k_Records; Index 0%nat; Key k_s3;
                         Key k_object; Key k_key] with
    | inl e => inl e
    | inr k =>
      match unquote_plus_val k with
      | inl e => inl e
      | inr key => inr (bucket, key)
      end
    end
  end.

(** [f"s3://{bucket}/{key}"] *)
Definition s3_uri (rt : Runtime) (bucket : pyval) (key : pystr) : pystr :=
  lit "s3://" ++ format rt bucket ++ lit "/" ++ key.

(** [f"twilio-{uuid.uuid4().hex[:8]}"] *)
Definition job_name_of (w : World) : pystr :=
  lit "twilio-" ++ take 8 (uuid4_hex w).

(** [key.split(".")[-1].lower()] *)
Definition media_format_of (rt : Runtime) (key : pystr) : pystr :=
  let '(first, items) := UrlParse.split 46 key in
  str_lower rt (List.last items first).

Definition transcript_key_of (job_name : pystr) : pystr :=
  lit "transcripts/" ++ job_name ++ lit ".json".

Definition summary_key_of (job_name : pystr) : pystr :=
  lit "summaries/" ++ job_name ++ lit "_summary.txt".

(** The texts the handler prints (lines 28, 43, 53, 59, 67, 89 and 94); each
    starts with a pictograph, given by its code points. *)
Definition received_line (rt : Runtime) (bucket : pyval) (key : pystr)
    : pystr :=
  0x1F4C2 :: lit " Received audio file: " ++ s3_uri rt bucket key.
Definition started_line (job_name : pystr) : pystr :=
  0x25B6 :: 0xFE0F :: lit " Started Transcribe job: " ++ job_name.
Definition waiting_line : pystr :=
  0x23F3 :: lit " Waiting for transcription...".
Definition completed_line : pystr := 0x2705 :: lit " Transcription completed".
Definition sample_label : pystr :=
  0x1F4DC :: lit " Transcript extracted. Sample:".
Definition saved_line (rt : Runtime) (bucket : pyval) (summary_key : pystr)
    : pystr :=
  0x2705 :: lit " Summary saved: " ++ s3_uri rt bucket summary_key.
Definition error_line (rt : Runtime) (e : exn) : pystr :=
  0x274C :: lit " Error: " ++ str_exn rt e.

(** Lines 34-41. *)
Definition start_job (rt : Runtime) (w : World)
    (bucket : pyval) (key job_name : pystr) : M unit :=
  let file_uri := s3_uri rt bucket key in
  let media_format := media_format_of rt key in
  let output_key := transcript_key_of job_name in
  invoke (StartTranscriptionJob job_name file_uri media_format language_code
                                bucket output_key)
         (start_transcription_job w job_name file_uri media_format
                                  language_code bucket output_key).

(** [job_status in ['COMPLETED', 'FAILED']] *)
Definition is_terminal (job_status : pyval) : bool :=
  eq_str job_status COMPLETED || eq_str job_status FAILED.

(** Lines 47-48: one poll. *)
Definition poll_once (w : World) (job_name : pystr) (n : nat) : M pyval :=
  status ← invoke (GetTranscriptionJob job_name)
                  (get_transcription_job w n job_name);
  eval (getpath status [Key k_TranscriptionJob; Key k_TranscriptionJobStatus]).

(** Lines 46-54: the iterations [n], [n+1], ... of [for _ in range(30)],
    [remaining] of them; [job_status] is the local variable, unbound before
    the first poll. *)
Fixpoint poll_loop (w : World) (job_name : pystr) (remaining n : nat)
    (job_status : option pyval) : M (option pyval) :=
  match remaining with
  | O => mret job_status
  | S remaining' =>
    job_status' ← poll_once w job_name n;
    if is_terminal job_status' then mret (Some job_status')
    else
      _ ← print [waiting_line];
      _ ← invoke (Sleep poll_interval) (sleep w n);
      poll_loop w job_name remaining' (S n) (Some job_status')
  end.

Definition poll (w : World) (job_name : pystr) : M (option pyval) :=
  poll_loop w job_name max_attempts 0%nat None.

(** Lines 56-57. *)
Definition check_failed (job_status : option pyval) : M unit :=
  match job_status with
  | None => raise (UnboundLocalError (lit "job_status"))
  | Some s =>
    if eq_str s FAILED then raise (Exception (lit "Transcription failed"))
    else mret tt
  end.

(** Lines 62-67.  The second argument of the [print] of line 67 is the
    slice, printed as [str] gives it. *)
Definition fetch_transcript (rt : Runtime) (w : World)
    (bucket : pyval) (job_name : pystr) : M pyval :=
  let transcript_key := transcript_key_of job_name in
  body ← invoke (GetObject bucket transcript_key)
                (get_object w bucket transcript_key);
  transcript_json ← eval (json_loads rt body);
  transcript_text ← eval (getpath transcript_json
                            [Key k_results; Key k_transcripts; Index 0%nat;
                             Key k_transcript]);
  sample ← eval (getitem transcript_text (SliceTo 150));
  _ ← print [sample_label; format rt sample];
  mret transcript_text.

(** Lines 70-78. *)
Definition summarize (w : World) (transcript_text : pyval)
    : M (option pystr) :=
  choices ← invoke (ChatCompletion model system_prompt transcript_text
                                   max_tokens)
                   (chat_completions_create w model system_prompt
                                            transcript_text max_tokens);
  match choices with
  | [] => raise (SubscriptError (PList []) (Index 0))
  | content :: _ => mret content
  end.

(** [summary.encode("utf-8")] *)
Definition encode_summary (summary : option pystr) : exn + pybytes :=
  match summary with
  | None => inl (AttributeError PNone (lit "encode"))
  | Some s =>
    match Utf8.encode s with
    | Some body => inr body
    | None => inl (UnicodeEncodeError s)
    end
  end.

(** Lines 81-87. *)
Definition save_summary (w : World) (bucket : pyval) (job_name : pystr)
    (summary : option pystr) : M pystr :=
  let summary_key := summary_key_of job_name in
  body ← eval (encode_summary summary);
  _ ← invoke (PutObject bucket summary_key body text_plain)
             (put_object w bucket summary_key body text_plain);
  mret summary_key.

Definition success_record (location : pystr) : pyval :=
  PDict [(k_status, PStr (lit "success")); (k_summary_file, PStr location)].

Definition error_record (message : pystr) : pyval :=
  PDict [(k_error, PStr message)].

(** Lines 62-91: what follows the check of the job status. *)
Definition fetch_and_finish (rt : Runtime) (w : World)
    (bucket : pyval) (job_name : pystr) : M pyval :=
  transcript_text ← fetch_transcript rt w bucket job_name;
  summary ← summarize w transcript_text;
  summary_key ← save_summary w bucket job_name summary;
  _ ← print [saved_line rt bucket summary_key];
  mret (success_record (s3_uri rt bucket summary_key)).

(** Lines 46-91: what follows the submission of the job. *)
Definition poll_and_finish (rt : Runtime) (w : World)
    (bucket : pyval) (job_name : pystr) : M pyval :=
  job_status ← poll w job_name;
  _ ← check_failed job_status;
  _ ← print [completed_line];
  fetch_and_finish rt w bucket job_name.

(** Lines 23-91: the body of the [try]. *)
Definition handler_body (rt : Runtime) (w : World) (event : pyval)
    : M pyval :=
  '(bucket, key) ← eval (decode_event event);
  _ ← print [received_line rt bucket key];
  let job_name := job_name_of w in
  _ ← start_job rt w bucket key job_name;
  _ ← print [started_line job_name];
  poll_and_finish rt w bucket job_name.

(** Lines 93-95: the clause [except Exception as e].  It takes an exception
    that is an [Exception], prints its message and returns the error record;
    the exception [print] raises there leaves the handler, as does an
    exception that is not an [Exception]. *)
Definition except_clause (rt : Runtime) (e : exn) : M pyval :=
  if is_exception e then
    _ ← print [error_line rt e];
    mret (error_record (str_exn rt e))
  else raise e.

(** Lines 22 and 93-95: [try: ... except Exception as e: ...]. *)
Definition catch_all (rt : Runtime) (m : M pyval) : M pyval :=
  match m with
  | (inr result, log) => (inr result, log)
  | (inl e, log) => prepend log (except_clause rt e)
  end.

(** Lines 21-95: what the handler returns to the trigger, or the exception
    that leaves it, and the log. *)
Definition lambda_handler (rt : Runtime) (w : World) (event : pyval)
    : M pyval :=
  catch_all rt (handler_body rt w event).
(** ** Vocabulary of the statements *)

(** The job status the poll number [n] observes. *)
Definition observed (w : World) (job_name : pystr) (n : nat) : exn + pyval :=
  match get_transcription_job w n job_name with
  | inl e => inl e
  | inr status =>
    getpath status [Key k_TranscriptionJob; Key k_TranscriptionJobStatus]
  end.

(** The polls [n], ..., [n+k-1] all observe a status that is not terminal,
    and the sleeps that follow them return. *)
Definition pending (w : World) (job_name : pystr) (n k : nat) : Prop :=
  forall i, (i < k)%nat ->
    (exists s, observed w job_name (n + i) = inr s /\ is_terminal s = false) /\
    sleep w (n + i) = inr tt.

Definition polled (job_name : pystr) : entry :=
  {| called := GetTranscriptionJob job_name; returned := true |}.
Definition slept : entry :=
  {| called := Sleep poll_interval; returned := true |}.
(** A sleep that raised. *)
Definition interrupted : entry :=
  {| called := Sleep poll_interval; returned := false |}.

(** [k] rounds of a poll followed by a sleep. *)
Fixpoint waiting (job_name : pystr) (k : nat) : list entry :=
  match k with
  | O => []
  | S k' => polled job_name :: slept :: waiting job_name k'
  end.

Definition fetched (bucket : pyval) (job_name : pystr) : entry :=
  {| called := GetObject bucket (transcript_key_of job_name);
     returned := true |}.
Definition summarized (transcript_text : pyval) : entry :=
  {| called := ChatCompletion model system_prompt transcript_text max_tokens;
     returned := true |}.
Definition written (bucket : pyval) (job_name : pystr) (body : pybytes)
    : entry :=
  {| called := PutObject bucket (summary_key_of job_name) body text_plain;
     returned := true |}.

Definition is_poll (e : entry) : bool :=
  match called e with GetTranscriptionJob _ => true | _ => false end.
Definition is_sleep (e : entry) : bool :=
  match called e with Sleep _ => true | _ => false end.
Definition is_summarize (e : entry) : bool :=
  match called e with ChatCompletion _ _ _ _ => true | _ => false end.
Definition is_write (e : entry) : bool :=
  match called e with PutObject _ _ _ _ => true | _ => false end.
Definition is_fetch (e : entry) : bool :=
  match called e with GetObject _ _ => true | _ => false end.
Definition is_submit (e : entry) : bool :=
  match called e with
  | StartTranscriptionJob _ _ _ _ _ _ => true
  | _ => false
  end.
(** A call that is neither a poll nor a sleep. *)
Definition quiet (e : entry) : bool := negb (is_poll e || is_sleep e).

(** The number of polls of a log. *)
Definition polls (log : list entry) : nat := length (List.filter is_poll log).

(** How the block of polls and sleeps can end: on a sleep that returned, on
    a poll, or on a sleep that raised. *)
Inductive poll_tail (job_name : pystr) : list entry -> Prop :=
| tail_none : poll_tail job_name []
| tail_poll b :
    poll_tail job_name
      [{| called := GetTranscriptionJob job_name; returned := b |}]
| tail_sleep : poll_tail job_name [polled job_name; interrupted].

(** The field [k] of a record. *)
Definition field (v : pyval) (k : pystr) : option pyval :=
  match v with
  | PDict d => dict_get d k
  | _ => None
  end.

(** The transcript document has a [results.transcripts[0].transcript]. *)
Definition has_transcript (doc : pyval) : bool :=
  match field doc k_results with
  | Some results =>
    match field results k_transcripts with
    | Some (PList (first :: _)) =>
      match field first k_transcript with
      | Some _ => true
      | None => false
      end
    | _ => false
    end
  | None => false
  end.

(** The payload is well formed and its first record names [container] and
    the (encoded) key [key]. *)
Definition names_first (event : pyval) (container key : pystr) : Prop :=
  exists record others s3 b o,
    field event k_Records = Some (PList (record :: others)) /\
    field record k_s3 = Some s3 /\
    field s3 k_bucket = Some b /\
    field b k_name = Some (PStr container) /\
    field s3 k_object = Some o /\
    field o k_key = Some (PStr key).

(** The chat model answers with Python strings. *)
Definition answers_strings (w : World) : Prop :=
  forall m p u n choices summary,
    chat_completions_create w m p u n = inr choices ->
    In (Some summary) choices -> Forall is_code_point summary.

(** Line 46 is reached: the event was decoded to [(bucket, key)], the
    location of the audio was printed, the submission of the job was
    accepted and the name of the job was printed. *)
Definition submitted (rt : Runtime) (w : World) (event : pyval)
    (bucket : pyval) (key : pystr) : Prop :=
  decode_event event = inr (bucket, key) /\
  printable (received_line rt bucket key) = true /\
  start_transcription_job w (job_name_of w) (s3_uri rt bucket key)
    (media_format_of rt key) language_code bucket
    (transcript_key_of (job_name_of w)) = inr tt /\
  printable (started_line (job_name_of w)) = true.

Definition submission (rt : Runtime) (w : World) (bucket : pyval)
    (key : pystr) : entry :=
  {| called := StartTranscriptionJob (job_name_of w) (s3_uri rt bucket key)
                 (media_format_of rt key) language_code bucket
                 (transcript_key_of (job_name_of w));
     returned := true |}.

(** The clause [except Exception] catches [e] and can print its message:
    the handler returns the error record of [e]. *)
Definition reported (rt : Runtime) (e : exn) : bool :=
  is_exception e && printable (str_exn rt e).

(** ** The object store *)

(** The object store of the specification: [put] stores the bytes and the
    content type under (container, key), [get] reads them back.  The content
    type of an object the handler did not write is not known. *)
Module ObjectStore.

Record object := { body : pybytes; content_type : option pystr }.

Abbreviation store := (gmap (pystr * pystr) object).

Definition put (s : store) (container key : pystr) (bytes : pybytes)
    (ctype : pystr) : store :=
  <[(container, key) := {| body := bytes; content_type := Some ctype |}]> s.

Definition get (s : store) (container key : pystr) : option pybytes :=
  body <$> s !! (container, key).

(** The effect of one logged call on the store in which the invocation
    ends.  A [put_object] that returned stored its object.  A submission that
    returned started a job, and the service writes the transcript of a job
    that completes under the output container and key of the submission: what
    it has left there is what the world answers to a read of that object,
    nothing if that read fails.  No other call writes. *)
Definition apply (w : World) (s : store) (e : entry) : store :=
  match called e, returned e with
  | PutObject (PStr container) key bytes ctype, true =>
    put s container key bytes ctype
  | StartTranscriptionJob _ _ _ _ (PStr container) key, true =>
    match get_object w (PStr container) key with
    | inr bytes =>
      <[(container, key) := {| body := bytes; content_type := None |}]> s
    | inl _ => s
    end
  | _, _ => s
  end.

Definition replay (w : World) (s : store) (log : list entry) : store :=
  foldl (apply w) s log.

End ObjectStore.

(** A write that took effect. *)
Definition committed (e : entry) : bool := is_write e && returned e.

(** ** Percent-encoding *)

(** The escape [%XY] of the octet [b], in upper or lower case. *)
Definition escape_of (b : Z) (esc : pystr) : Prop :=
  exists x y,
    esc = [UrlParse.percent; x; y] /\
    UrlParse.is_hexdig x = true /\ UrlParse.is_hexdig y = true /\
    b = 16 * UrlParse.hexval x + UrlParse.hexval y.

(** [escapes bs esc]: [esc] is the escapes of the octets [bs], in order. *)
Inductive escapes : pybytes -> pystr -> Prop :=
| escapes_nil : escapes [] []
| escapes_cons b bs e esc :
    escape_of b e -> escapes bs esc -> escapes (b :: bs) (e ++ esc).

(** [encodes key s]: [key] is a URL-encoding of the string [s], as an object
    store writes the key of an object in a notification.  A character is
    written as the escapes of its UTF-8 octets; an ASCII character other than
    the percent sign and the plus sign may be written as it is, and a space
    may be written as a plus sign. *)
Inductive encodes : pystr -> pystr -> Prop :=
| encodes_nil : encodes [] []
| encodes_literal c key s :
    0 <= c < 0x80 -> c <> UrlParse.percent -> c <> UrlParse.plus ->
    encodes key s -> encodes (c :: key) (c :: s)
| encodes_plus key s :
    encodes key s -> encodes (UrlParse.plus :: key) (UrlParse.space :: s)
| encodes_escaped c esc key s :
    is_code_point c -> is_surrogate c = false ->
    escapes (Utf8.encode_cp c) esc ->
    encodes key s -> encodes (esc ++ key) (c :: s).
(** ** The end-to-end scenarios of the specification *)

Module Scenario.

Definition rt : Runtime := {|
  json_loads := fun _ =>
    inr (PDict [(k_results,
           PDict [(k_transcripts,
             PList [PDict [(k_transcript,
                      PStr (lit "Patient reports mild fever."))]])])]);
  str_lower := map (fun c => if (65 <=? c) && (c <=? 90) then c + 32 else c);
  format_other := fun _ => lit "<object>";
  error_text := fun _ => lit "<built-in error>";
  error_text_printable := fun _ => eq_refl
|}.

(** The same runtime, reading a transcript document that is an empty
    object. *)
Definition rt_empty : Runtime := {|
  json_loads := fun _ => inr (PDict []);
  str_lower := str_lower rt;
  format_other := format_other rt;
  error_text := error_text rt;
  error_text_printable := error_text_printable rt
|}.

(** A notification with one record. *)
Definition event_for (container key : pystr) : pyval :=
  PDict [(k_Records,
    PList [PDict [(k_s3,
      PDict [(k_bucket, PDict [(k_name, PStr container)]);
             (k_object, PDict [(k_key, PStr key)])])]])].

(** The payload: [bucket=medrecs], [key=calls/visit1.wav]. *)
Definition event : pyval := event_for (lit "medrecs") (lit "calls/visit1.wav").

(** A key with a plus sign that is not an escape. *)
Definition event_plus : pyval := event_for (lit "medrecs") (lit "a+b.wav").

Definition job_response (status : pystr) : pyval :=
  PDict [(k_TranscriptionJob,
          PDict [(k_TranscriptionJobStatus, PStr status)])].

(** A world whose transcription service answers the poll [n] with
    [statuses n], whose object store answers the fetch with [transcript],
    whose chat model answers "Patient has a mild fever.", and in which no
    sleep is interrupted. *)
Definition world (statuses : nat -> pystr) (transcript : exn + pybytes)
    : World := {|
  uuid4_hex := lit "3f2a9c1e5b7d4e0fa1b2c3d4e5f60718";
  start_transcription_job := fun _ _ _ _ _ _ => inr tt;
  get_transcription_job := fun n _ => inr (job_response (statuses n));
  sleep := fun _ => inr tt;
  get_object := fun _ _ => transcript;
  chat_completions_create := fun _ _ _ _ =>
    inr [Some (lit "Patient has a mild fever.")];
  put_object := fun _ _ _ _ => inr tt
|}.

Definition quoted (s : string) : pybytes := [34] ++ lit s ++ [34].

Definition transcript_document : pybytes :=
  lit "{" ++ quoted "results" ++ lit ": {" ++ quoted "transcripts"
  ++ lit ": [{" ++ quoted "transcript" ++ lit ": "
  ++ quoted "Patient reports mild fever." ++ lit "}]}}".

(** Scenario 1: IN_PROGRESS, IN_PROGRESS, COMPLETED. *)
Definition world1 : World :=
  world (fun n => if (n <? 2)%nat then IN_PROGRESS else COMPLETED)
        (inr transcript_document).

(** Scenario 2: the job never leaves IN_PROGRESS and there is no transcript
    object. *)
Definition world2 : World :=
  world (fun _ => IN_PROGRESS) (inl (Foreign (lit "NoSuchKey"))).

(** Scenario 3: FAILED on the first poll. *)
Definition world3 : World :=
  world (fun _ => FAILED) (inl (Foreign (lit "NoSuchKey"))).

(** The job never leaves IN_PROGRESS during the thirty polls, and completes
    while the handler sleeps for the last time: the transcript object is
    there when the handler fetches it. *)
Definition world_late : World :=
  world (fun _ => IN_PROGRESS) (inr transcript_document).

End Scenario.

(** ** Further vocabulary *)

(** The stages a call belongs to. *)
Inductive stage := AtSubmit | AtPoll | AtWait | AtFetch | AtSummarize | AtWrite.

Definition stage_of (e : entry) : stage :=
  match called e with
  | StartTranscriptionJob _ _ _ _ _ _ => AtSubmit
  | GetTranscriptionJob _ => AtPoll
  | Sleep _ => AtWait
  | GetObject _ _ => AtFetch
  | ChatCompletion _ _ _ _ => AtSummarize
  | PutObject _ _ _ _ => AtWrite
  end.

(** [k] rounds of polling and waiting. *)
Fixpoint rounds (k : nat) : list stage :=
  match k with
  | O => []
  | S k' => AtPoll :: AtWait :: rounds k'
  end.

(** The time the handler asks [time.sleep] for. *)
Definition total_sleep (log : list entry) : Z :=
  foldr (fun e acc => match called e with Sleep s => s + acc | _ => acc end)
        0 log.

(** Line 62 is reached: the job was submitted and the polling ended, with
    the log [l], on a status that is not FAILED. *)
Definition transcribed (rt : Runtime) (w : World) (event : pyval)
    (bucket : pyval) (key : pystr) (l : list entry) : Prop :=
  submitted rt w event bucket key /\
  exists s, poll w (job_name_of w) = (inr (Some s), l) /\
            eq_str s FAILED = false.

(** The values [v[:150]] is defined on. *)
Definition sliceable (v : pyval) : bool :=
  match v with
  | PStr _ | PList _ => true
  | _ => false
  end.

(** A code point that is not a surrogate. *)
Definition is_scalar (c : Z) : Prop :=
  is_code_point c /\ is_surrogate c = false.

Definition is_octet (b : Z) : Prop := 0 <= b <= 255.

(** An item of the decoder's output: a code point that is not a surrogate,
    or an error. *)
Definition scalar_or_error (o : option Z) : Prop :=
  match o with Some c => is_scalar c | None => True end.

(** The parameters every call of one invocation carries: one job name, one
    container, and the constants of the source. *)
Definition carries (rt : Runtime) (w : World) (bucket : pyval) (key : pystr)
    (e : entry) : Prop :=
  match called e with
  | StartTranscriptionJob job uri fmt lang out_bucket out_key =>
    job = job_name_of w /\ uri = lit "s3://" ++ format rt bucket ++ lit "/" ++ key /\
    fmt = media_format_of rt key /\ lang = lit "en-US" /\
    out_bucket = bucket /\
    out_key = lit "transcripts/" ++ job_name_of w ++ lit ".json"
  | GetTranscriptionJob job => job = job_name_of w
  | Sleep seconds => seconds = 10
  | GetObject b k =>
    b = bucket /\ k = lit "transcripts/" ++ job_name_of w ++ lit ".json"
  | ChatCompletion m p _ n =>
    m = lit "gpt-4o-mini" /\
    p = lit "Summarize medical consultations clearly and concisely." /\
    n = 300
  | PutObject b k _ ctype =>
    b = bucket /\ k = lit "summaries/" ++ job_name_of w ++ lit "_summary.txt" /\
    ctype = lit "text/plain"
  end.

(** ** Worlds with a fault *)

Module Faults.

(** The world of scenario 1 with another submission, polling, sleep, chat
    model or write. *)
Definition refusing (e : exn) : World := {|
  uuid4_hex := uuid4_hex Scenario.world1;
  start_transcription_job := fun _ _ _ _ _ _ => inl e;
  get_transcription_job := get_transcription_job Scenario.world1;
  sleep := sleep Scenario.world1;
  get_object := get_object Scenario.world1;
  chat_completions_create := chat_completions_create Scenario.world1;
  put_object := put_object Scenario.world1
|}.

(** The submission is refused. *)
Definition refused : World := refusing (Foreign (lit "LimitExceededException")).


(** The second poll fails. *)
Definition poll_fails : World := {|
  uuid4_hex := uuid4_hex Scenario.world1;
  start_transcription_job := start_transcription_job Scenario.world1;
  get_transcription_job := fun n job =>
    if (n =? 1)%nat then inl (Foreign (lit "ThrottlingException"))
    else get_transcription_job Scenario.world1 n job;
  sleep := sleep Scenario.world1;
  get_object := get_object Scenario.world1;
  chat_completions_create := chat_completions_create Scenario.world1;
  put_object := put_object Scenario.world1
|}.


(** The chat model answers with these choices. *)
Definition answering (choices : list (option pystr)) : World := {|
  uuid4_hex := uuid4_hex Scenario.world1;
  start_transcription_job := start_transcription_job Scenario.world1;
  get_transcription_job := get_transcription_job Scenario.world1;
  sleep := sleep Scenario.world1;
  get_object := get_object Scenario.world1;
  chat_completions_create := fun _ _ _ _ => inr choices;
  put_object := put_object Scenario.world1
|}.

(** The write is refused. *)
Definition read_only : World := {|
  uuid4_hex := uuid4_hex Scenario.world1;
  start_transcription_job := start_transcription_job Scenario.world1;
  get_transcription_job := get_transcription_job Scenario.world1;
  sleep := sleep Scenario.world1;
  get_object := get_object Scenario.world1;
  chat_completions_create := chat_completions_create Scenario.world1;
  put_object := fun _ _ _ _ => inl (Foreign (lit "AccessDenied"))
|}.

(** Payloads: without records, with a key that is a number, with an
    escaped key, with a key that holds a lone surrogate. *)
Definition event_no_records : pyval := PDict [(k_Records, PList [])].

Definition event_numeric_key : pyval :=
  PDict [(k_Records,
    PList [PDict [(k_s3,
      PDict [(k_bucket, PDict [(k_name, PStr (lit "medrecs"))]);
             (k_object, PDict [(k_key, PInt 7)])])]])].

Definition event_escaped : pyval :=
  Scenario.event_for (lit "medrecs") (lit "a%2Bb.wav").



(** An encoded key with a plus sign for a space, a literal character and
    the escapes of a character of two octets: "my caf" followed by U+00E9. *)
Definition key_cafe : pystr := lit "my+caf%C3%a9".

Definition event_cafe : pyval := Scenario.event_for (lit "medrecs") key_cafe.

(** The job answers every poll with [status]. *)
Definition answering_status (status : pyval) : World := {|
  uuid4_hex := uuid4_hex Scenario.world1;
  start_transcription_job := start_transcription_job Scenario.world1;
  get_transcription_job := fun _ _ =>
    inr (PDict [(k_TranscriptionJob,
                 PDict [(k_TranscriptionJobStatus, status)])]);
  sleep := sleep Scenario.world1;
  get_object := get_object Scenario.world1;
  chat_completions_create := chat_completions_create Scenario.world1;
  put_object := put_object Scenario.world1
|}.

(** The job is reported in lower case at every poll. *)
Definition lower_case : World := answering_status (PStr (lit "completed")).

(** A runtime that reads a document whose transcript is [v]. *)
Definition rt_reading (v : pyval) : Runtime := {|
  json_loads := fun _ =>
    inr (PDict [(k_results,
           PDict [(k_transcripts, PList [PDict [(k_transcript, v)]])])]);
  str_lower := str_lower Scenario.rt;
  format_other := format_other Scenario.rt;
  error_text := error_text Scenario.rt;
  error_text_printable := error_text_printable Scenario.rt
|}.

End Faults.

(** ** Every way a run can go *)

(** Calls that raised. *)
Definition submit_failed (rt : Runtime) (w : World) (bucket : pyval)
    (key : pystr) : entry :=
  {| called := called (submission rt w bucket key); returned := false |}.
Definition fetch_failed (bucket : pyval) (job_name : pystr) : entry :=
  {| called := GetObject bucket (transcript_key_of job_name);
     returned := false |}.
Definition summarize_failed (transcript_text : pyval) : entry :=
  {| called := ChatCompletion model system_prompt transcript_text max_tokens;
     returned := false |}.
Definition write_failed (bucket : pyval) (job_name : pystr) (body : pybytes)
    : entry :=
  {| called := PutObject bucket (summary_key_of job_name) body text_plain;
     returned := false |}.

(** The six ways lines 62-91 can go. *)
Inductive finish_case (rt : Runtime) (w : World) (bucket : pyval)
    (job : pystr) : M pyval -> Prop :=
| fetch_raised e :
    get_object w bucket (transcript_key_of job) = inl e ->
    finish_case rt w bucket job (inl e, [fetch_failed bucket job])
| document_rejected e :
    fetch_transcript rt w bucket job = (inl e, [fetched bucket job]) ->
    finish_case rt w bucket job (inl e, [fetched bucket job])
| chat_raised e t :
    fetch_transcript rt w bucket job = (inr t, [fetched bucket job]) ->
    chat_completions_create w model system_prompt t max_tokens = inl e ->
    finish_case rt w bucket job
      (inl e, [fetched bucket job; summarize_failed t])
| answer_rejected e t choices :
    fetch_transcript rt w bucket job = (inr t, [fetched bucket job]) ->
    chat_completions_create w model system_prompt t max_tokens
      = inr choices ->
    match choices with
    | [] => inl (SubscriptError (PList []) (Index 0))
    | content :: _ => encode_summary content
    end = inl e ->
    finish_case rt w bucket job (inl e, [fetched bucket job; summarized t])
| write_raised e t summary choices :
    fetch_transcript rt w bucket job = (inr t, [fetched bucket job]) ->
    chat_completions_create w model system_prompt t max_tokens
      = inr (Some summary :: choices) ->
    existsb is_surrogate summary = false ->
    put_object w bucket (summary_key_of job) (Utf8.encode_all summary)
      text_plain = inl e ->
    finish_case rt w bucket job
      (inl e, [fetched bucket job; summarized t;
               write_failed bucket job (Utf8.encode_all summary)])
| finished t summary choices :
    fetch_transcript rt w bucket job = (inr t, [fetched bucket job]) ->
    chat_completions_create w model system_prompt t max_tokens
      = inr (Some summary :: choices) ->
    existsb is_surrogate summary = false ->
    put_object w bucket (summary_key_of job) (Utf8.encode_all summary)
      text_plain = inr tt ->
    finish_case rt w bucket job
      (inr (success_record (s3_uri rt bucket (summary_key_of job))),
       [fetched bucket job; summarized t;
        written bucket job (Utf8.encode_all summary)]).

(** The six ways lines 23-91 can go. *)
Inductive run_case (rt : Runtime) (w : World) (event : pyval)
    : M pyval -> Prop :=
| not_decoded e :
    decode_event event = inl e -> run_case rt w event (inl e, [])
| not_announced bucket key :
    decode_event event = inr (bucket, key) ->
    printable (received_line rt bucket key) = false ->
    run_case rt w event
      (inl (UnicodeEncodeError (received_line rt bucket key)), [])
| not_submitted e bucket key :
    decode_event event = inr (bucket, key) ->
    start_transcription_job w (job_name_of w) (s3_uri rt bucket key)
      (media_format_of rt key) language_code bucket
      (transcript_key_of (job_name_of w)) = inl e ->
    run_case rt w event (inl e, [submit_failed rt w bucket key])
| not_started bucket key :
    decode_event event = inr (bucket, key) ->
    printable (started_line (job_name_of w)) = false ->
    run_case rt w event
      (inl (UnicodeEncodeError (started_line (job_name_of w))),
       [submission rt w bucket key])
| not_transcribed e bucket key k last :
    submitted rt w event bucket key ->
    (k + polls last <= max_attempts)%nat ->
    poll_tail (job_name_of w) last ->
    run_case rt w event
      (inl e, submission rt w bucket key :: waiting (job_name_of w) k ++ last)
| fetching bucket key k last m :
    transcribed rt w event bucket key (waiting (job_name_of w) k ++ last) ->
    (k + length last <= max_attempts)%nat ->
    (last = [] \/ last = [polled (job_name_of w)]) ->
    finish_case rt w bucket (job_name_of w) m ->
    run_case rt w event
      (prepend (submission rt w bucket key ::
                waiting (job_name_of w) k ++ last) m).

(** A run is tidy when every call returned, except possibly the last one
    if the run raised. *)
Definition tidy {A} (m : M A) : Prop :=
  match m.1 with
  | inr _ => forallb returned m.2 = true
  | inl _ => forallb returned (removelast m.2) = true
  end.

(** Why an answer of the chat model cannot be written: no choice, no
    content, or a content that [encode] refuses. *)
Definition rejection (choices : list (option pystr)) : option exn :=
  match choices with
  | [] => Some (SubscriptError (PList []) (Index 0))
  | None :: _ => Some (AttributeError PNone (lit "encode"))
  | Some s :: _ =>
    if existsb is_surrogate s then Some (UnicodeEncodeError s) else None
  end.

(** The transcript object was fetched and read, and gave [t], whose first
    150 items were printed. *)
Definition transcript_read (rt : Runtime) (w : World) (bucket : pyval)
    (t : pyval) : Prop :=
  exists bytes doc sample,
    get_object w bucket (transcript_key_of (job_name_of w)) = inr bytes /\
    json_loads rt bytes = inr doc /\
    getpath doc [Key k_results; Key k_transcripts; Index 0%nat;
                 Key k_transcript] = inr t /\
    getitem t (SliceTo 150) = inr sample /\
    printable (format rt sample) = true.
(** * Properties *)

(** ** The monad *)

Lemma bind_inr {A B} (a : A) (l : list entry) (k : A -> M B) :
  ((inr a, l) : M A) ≫= k = prepend l (k a).
Proof. unfold mbind, M_bind, prepend. destruct (k a); reflexivity. Qed.

Lemma bind_inl {A B} (e : exn) (l : list entry) (k : A -> M B) :
  ((inl e, l) : M A) ≫= k = (inl e, l).
Proof. reflexivity. Qed.

Lemma bind_eval_inr {A B} (a : A) (k : A -> M B) : eval (inr a) ≫= k = k a.
Proof. unfold eval. rewrite bind_inr. unfold prepend. destruct (k a); reflexivity. Qed.

Lemma prepend_prepend {A} (l1 l2 : list entry) (m : M A) :
  prepend l1 (prepend l2 m) = prepend (l1 ++ l2) m.
Proof. unfold prepend; simpl. by rewrite app_assoc. Qed.

Lemma bind_prepend {A B} (l : list entry) (m : M A) (k : A -> M B) :
  prepend l m ≫= k = prepend l (m ≫= k).
Proof.
  destruct m as [[e|a] l']; unfold prepend; simpl.
  - reflexivity.
  - unfold mbind, M_bind. destruct (k a); simpl. by rewrite app_assoc.
Qed.

Lemma bind_inv_inr {A B} (m : M A) (k : A -> M B) b l :
  m ≫= k = (inr b, l) ->
  exists a l1 l2, m = (inr a, l1) /\ k a = (inr b, l2) /\ l = l1 ++ l2.
Proof.
  destruct m as [[e|a] l1]; unfold mbind, M_bind; [discriminate|].
  destruct (k a) as [r l2] eqn:Hk. intros [= -> <-].
  exists a, l1, l2. auto.
Qed.

Lemma eval_inv_inr {A} (r : exn + A) a l :
  eval r = (inr a, l) -> r = inr a /\ l = [].
Proof. unfold eval. by intros [= -> <-]. Qed.

Lemma invoke_inv_inr {A} c (r : exn + A) a l :
  invoke c r = (inr a, l) ->
  r = inr a /\ l = [{| called := c; returned := true |}].
Proof. unfold invoke. by intros [= -> <-]. Qed.

Lemma mret_inv {A} (a b : A) l :
  (mret a : M A) = (inr b, l) -> a = b /\ l = [].
Proof. by intros [= -> <-]. Qed.

Lemma bind_log {A B} (P : entry -> bool) (m : M A) (k : A -> M B) :
  forallb P m.2 = true -> (forall a, forallb P (k a).2 = true) ->
  forallb P (m ≫= k).2 = true.
Proof.
  destruct m as [[e|a] l]; simpl; intros Hm Hk; [assumption|].
  specialize (Hk a). unfold mbind, M_bind. destruct (k a) as [r l'].
  simpl in *. by rewrite forallb_app, Hm, Hk.
Qed.

Ltac log_steps :=
  repeat first
    [ reflexivity
    | apply bind_log; [|intros]
    | match goal with
      | |- context [match ?x with _ => _ end] => destruct x
      end ].

Lemma print_log args : (print args).2 = [].
Proof.
  induction args as [|a args IH]; [reflexivity|].
  cbn [print]. by destruct (printable a).
Qed.

Lemma except_clause_log rt e : (except_clause rt e).2 = [].
Proof.
  unfold except_clause. destruct (is_exception e); [|reflexivity].
  pose proof (print_log [error_line rt e]) as H.
  destruct (print [error_line rt e]) as [[e'|[]] l]; cbn [snd] in H; by subst.
Qed.

Lemma catch_all_log rt m : (catch_all rt m).2 = m.2.
Proof.
  destruct m as [[e|r] l]; [|reflexivity]. unfold catch_all, prepend.
  cbn [snd]. by rewrite except_clause_log, app_nil_r.
Qed.
(** ** The UTF-8 codec *)

Section Utf8Facts.
Import Utf8 UrlParse.

Ltac zdm := Z.div_mod_to_equations; lia.

Ltac decide_tests :=
  repeat match goal with
  | |- context [?a <? ?b] =>
    destruct (Z.ltb_spec a b); try (exfalso; zdm)
  | |- context [?a <=? ?b] =>
    destruct (Z.leb_spec a b); try (exfalso; zdm)
  | |- context [?a =? ?b] =>
    destruct (Z.eqb_spec a b); try (exfalso; zdm)
  end.

Ltac case_tests :=
  repeat match goal with
  | |- context [if ?t then _ else _] => destruct t eqn:?
  end.

Lemma scan_cons b0 r0 :
  scan (b0 :: r0) =
    if b0 <? 0x80 then Some b0 :: scan r0
    else if b0 <? 0xC2 then None :: scan r0
    else if b0 <? 0xE0 then
      match r0 with
      | [] => [None]
      | b1 :: r1 =>
        if is_cont b1 then Some (cp2 b0 b1) :: scan r1 else None :: scan r0
      end
    else if b0 <? 0xF0 then
      match r0 with
      | [] => [None]
      | b1 :: r1 =>
        if bad_second3 b0 b1 then None :: scan r0
        else
          match r1 with
          | [] => [None]
          | b2 :: r2 =>
            if is_cont b2 then Some (cp3 b0 b1 b2) :: scan r2
            else None :: scan r1
          end
      end
    else if b0 <? 0xF5 then
      match r0 with
      | [] => [None]
      | b1 :: r1 =>
        if bad_second4 b0 b1 then None :: scan r0
        else
          match r1 with
          | [] => [None]
          | b2 :: r2 =>
            if is_cont b2 then
              match r2 with
              | [] => [None]
              | b3 :: r3 =>
                if is_cont b3 then Some (cp4 b0 b1 b2 b3) :: scan r3
                else None :: scan r2
              end
            else None :: scan r1
          end
      end
    else None :: scan r0.
Proof. reflexivity. Qed.

(** The decoder reads back one encoded code point. *)
Lemma scan_encode_cp c rest :
  is_code_point c -> is_surrogate c = false ->
  scan (encode_cp c ++ rest) = Some c :: scan rest.
Proof.
  unfold is_code_point, is_surrogate, encode_cp. intros Hc Hs.
  apply andb_false_iff in Hs.
  assert (Hsur : c < 0xD800 \/ 0xDFFF < c).
  { destruct Hs as [Hs|Hs]; apply Z.leb_gt in Hs; lia. }
  clear Hs.
  destruct (Z.ltb_spec c 0x80);
    [|destruct (Z.ltb_spec c 0x800); [|destruct (Z.ltb_spec c 0x10000)]];
    cbn [app]; rewrite scan_cons; unfold bad_second3, bad_second4, is_cont.
  - decide_tests. reflexivity.
  - decide_tests. cbn [andb]. do 2 f_equal. unfold cp2. zdm.
  - decide_tests; cbn [andb negb orb]; do 2 f_equal; unfold cp3; zdm.
  - decide_tests; cbn [andb negb orb]; do 2 f_equal; unfold cp4; zdm.
Qed.

(** The decoder reads back an encoded string without an error. *)
Lemma scan_encode_all s :
  Forall is_code_point s -> existsb is_surrogate s = false ->
  Utf8.scan (Utf8.encode_all s) = map Some s.
Proof.
  induction s as [|c s IH]; [reflexivity|].
  intros Hcp Hs. cbn [existsb] in Hs. apply orb_false_iff in Hs as [Hc Hs].
  apply Forall_cons in Hcp as [Hc' Hcp].
  unfold Utf8.encode_all. cbn [flat_map map].
  rewrite scan_encode_cp by assumption.
  f_equal. by apply IH.
Qed.

Lemma mapM_id_Some {A} (l : list A) : mapM id (map Some l) = Some l.
Proof.
  apply mapM_Some_2. induction l as [|x l IH]; constructor; auto.
Qed.

Lemma encode_Some s body :
  Utf8.encode s = Some body ->
  existsb is_surrogate s = false /\ body = Utf8.encode_all s.
Proof.
  unfold Utf8.encode. destruct (existsb is_surrogate s); [discriminate|].
  by intros [= <-].
Qed.

(** Every string without a lone surrogate is encoded. *)
Lemma encode_total s :
  existsb is_surrogate s = false -> Utf8.encode s = Some (Utf8.encode_all s).
Proof. unfold Utf8.encode. by intros ->. Qed.

(** Decoding inverts encoding. *)
Lemma decode_encode s body :
  Forall is_code_point s -> Utf8.encode s = Some body ->
  Utf8.decode body = Some s.
Proof.
  intros Hcp [Hs ->]%encode_Some. unfold Utf8.decode.
  rewrite scan_encode_all by assumption. apply mapM_id_Some.
Qed.

Lemma scan_ascii bs :
  forallb is_ascii bs = true -> scan bs = map Some bs.
Proof.
  induction bs as [|b bs IH]; [reflexivity|].
  cbn [forallb]. intros [Hb Hbs]%andb_true_iff.
  rewrite scan_cons. unfold is_ascii in Hb. rewrite Hb, IH by assumption.
  reflexivity.
Qed.

Lemma decode_replace_ascii bs :
  forallb is_ascii bs = true -> decode_replace bs = bs.
Proof.
  intros H. unfold decode_replace. rewrite scan_ascii by assumption.
  rewrite map_map. simpl. apply map_id.
Qed.

Lemma scan_space_head Y : scan (space :: Y) = Some space :: scan Y.
Proof. reflexivity. Qed.

Lemma is_cont_space : is_cont space = false.
Proof. reflexivity. Qed.
Lemma bad_second3_space b0 : bad_second3 b0 space = true.
Proof. reflexivity. Qed.
Lemma bad_second4_space b0 : bad_second4 b0 space = true.
Proof. reflexivity. Qed.

(** An ASCII byte closes whatever sequence precedes it, exactly as the end
    of the input does. *)
Lemma scan_space Y : forall n X, (length X <= n)%nat ->
  scan (X ++ space :: Y) = scan X ++ Some space :: scan Y.
Proof.
  induction n as [|n IH]; intros X Hn.
  - destruct X; [reflexivity | simpl in Hn; lia].
  - destruct X as [|b0 X]; [reflexivity|].
    assert (IH0 : scan (X ++ space :: Y) = scan X ++ Some space :: scan Y)
      by (apply IH; simpl in Hn; lia).
    cbn [app]. rewrite (scan_cons b0 (X ++ _)), (scan_cons b0 X).
    destruct X as [|b1 X].
    { cbn [app]. rewrite is_cont_space, bad_second3_space, bad_second4_space.
      rewrite scan_space_head. case_tests; reflexivity. }
    assert (IH1 : scan (X ++ space :: Y) = scan X ++ Some space :: scan Y)
      by (apply IH; simpl in Hn; lia).
    destruct X as [|b2 X].
    { cbn [app] in *. rewrite is_cont_space.
      case_tests; rewrite ?IH0, ?IH1; reflexivity. }
    assert (IH2 : scan (X ++ space :: Y) = scan X ++ Some space :: scan Y)
      by (apply IH; simpl in Hn; lia).
    destruct X as [|b3 X].
    { cbn [app] in *. rewrite is_cont_space.
      case_tests; rewrite ?IH0, ?IH1, ?IH2; reflexivity. }
    assert (IH3 : scan (X ++ space :: Y) = scan X ++ Some space :: scan Y)
      by (apply IH; simpl in Hn; lia).
    cbn [app] in *.
    case_tests; rewrite ?IH0, ?IH1, ?IH2, ?IH3; reflexivity.
Qed.

Lemma decode_replace_space X Y :
  decode_replace (X ++ space :: Y) =
  decode_replace X ++ space :: decode_replace Y.
Proof.
  unfold decode_replace. rewrite (scan_space Y (length X) X) by lia.
  by rewrite map_app.
Qed.

Lemma length_scan bs : forall n, (length bs <= n)%nat ->
  (length (scan bs) <= length bs)%nat.
Proof.
  intros n; revert bs. induction n as [|n IH]; intros bs Hn.
  - destruct bs; [simpl; lia | simpl in Hn; lia].
  - destruct bs as [|b0 r0]; [simpl; lia|].
    assert (H0 := IH r0).
    rewrite scan_cons.
    destruct r0 as [|b1 r1]; [case_tests; simpl in *; lia|].
    assert (H1 := IH r1).
    destruct r1 as [|b2 r2]; [case_tests; simpl in *; lia|].
    assert (H2 := IH r2).
    destruct r2 as [|b3 r3]; [case_tests; simpl in *; lia|].
    assert (H3 := IH r3).
    case_tests; cbn [length] in *; lia.
Qed.

Lemma length_decode_replace bs :
  (length (decode_replace bs) <= length bs)%nat.
Proof.
  unfold decode_replace. rewrite length_map. by apply (length_scan bs (length bs)).
Qed.

End Utf8Facts.

(** ** [unquote_plus] *)

Section UrlFacts.
Import Utf8 UrlParse.

Example unquote_plus_doc_example :
  UrlParse.unquote_plus (lit "a%2Bb.wav") = lit "a+b.wav".
Proof. reflexivity. Qed.

Example unquote_plus_utf8_example :
  UrlParse.unquote_plus (lit "caf%C3%A9+1%zz%E2%82.wav")
  = lit "caf" ++ [233] ++ lit " 1%zz" ++ [0xFFFD] ++ lit ".wav".
Proof. reflexivity. Qed.

Lemma hexdig_not_percent a : is_hexdig a = true -> (a =? percent) = false.
Proof.
  unfold is_hexdig, in_range, percent. intros H.
  apply Z.eqb_neq. intros ->. discriminate H.
Qed.

Lemma split_cons sep c r :
  split sep (c :: r) =
  if c =? sep then ([], (split sep r).1 :: (split sep r).2)
  else (c :: (split sep r).1, (split sep r).2).
Proof. simpl. by destruct (split sep r). Qed.

Lemma split_no_items sep s h : split sep s = (h, []) -> h = s.
Proof.
  revert h. induction s as [|c r IH]; intros h.
  - by intros [= <-].
  - rewrite split_cons. destruct (c =? sep); [discriminate|].
    destruct (split sep r) as [h' t']. simpl. intros [= <- ->].
    by rewrite (IH h').
Qed.

(** [unquote_to_bytes] in terms of the pieces. *)
Lemma unquote_to_bytes_pieces s :
  unquote_to_bytes s =
  (split percent s).1 ++ flat_map unquote_item (split percent s).2.
Proof.
  unfold unquote_to_bytes. destruct s as [|c r]; [reflexivity|].
  destruct (split percent (c :: r)) as [h [|i t]] eqn:Hs; [|reflexivity].
  simpl. rewrite app_nil_r. symmetry. by apply split_no_items in Hs.
Qed.

Lemma unquote_scan_cons_other c r :
  (c =? percent) = false -> unquote_scan (c :: r) = c :: unquote_scan r.
Proof. intros H. simpl. by rewrite H. Qed.

Lemma unquote_scan_percent r :
  unquote_scan (percent :: r) =
  match r with
  | a :: b :: r' =>
    if is_hexdig a && is_hexdig b
    then 16 * hexval a + hexval b :: unquote_scan r'
    else percent :: unquote_scan r
  | _ => percent :: unquote_scan r
  end.
Proof. reflexivity. Qed.

(** The split on the percent signs and the pass from left to right are the
    same function. *)
Lemma unquote_to_bytes_scan s : unquote_to_bytes s = unquote_scan s.
Proof.
  rewrite unquote_to_bytes_pieces.
  induction s as [|c r IH]; [reflexivity|].
  rewrite split_cons. destruct (c =? percent) eqn:Hc.
  - cbn [fst snd app flat_map]. cbn [unquote_scan]. rewrite Hc.
    unfold unquote_item.
    destruct r as [|a [|b r']].
    + reflexivity.
    + rewrite split_cons in *. destruct (a =? percent) eqn:Ha; simpl in *.
      * rewrite Ha. reflexivity.
      * rewrite Ha in *. reflexivity.
    + destruct (is_hexdig a && is_hexdig b) eqn:Hh.
      * apply andb_true_iff in Hh as [Hha Hhb].
        pose proof (hexdig_not_percent _ Hha) as Ha.
        pose proof (hexdig_not_percent _ Hhb) as Hb.
        rewrite (unquote_scan_cons_other a), (unquote_scan_cons_other b) in IH by assumption.
        rewrite !split_cons in *. rewrite Ha, Hb in *.
        cbn [fst snd take drop firstn skipn hextobyte] in *. rewrite Hha, Hhb. cbn [andb].
        simpl in IH. injection IH as IH. rewrite <- IH. reflexivity.
      * rewrite <- IH. 
        assert (hextobyte (take 2 (split percent (a :: b :: r')).1) = None) as ->; [|reflexivity].
        rewrite !split_cons.
        destruct (a =? percent) eqn:Ha; [reflexivity|].
        destruct (b =? percent) eqn:Hb; cbn [fst snd take firstn hextobyte].
        -- destruct (is_hexdig a); reflexivity.
        -- by rewrite Hh.
  - cbn [fst snd]. rewrite unquote_scan_cons_other by assumption.
    rewrite <- IH. reflexivity.
Qed.

Lemma unquote_scan_space L : forall n R, (length R <= n)%nat ->
  unquote_scan (R ++ space :: L) = unquote_scan R ++ space :: unquote_scan L.
Proof.
  induction n as [|n IH]; intros R Hn.
  - destruct R; [reflexivity | simpl in Hn; lia].
  - destruct R as [|c R]; [reflexivity|].
    destruct (c =? percent) eqn:Hc.
    + apply Z.eqb_eq in Hc as ->.
      destruct R as [|a [|b R]]; cbn [app]; rewrite !unquote_scan_percent.
      * destruct L; reflexivity.
      * change (is_hexdig space) with false. rewrite andb_false_r.
        cbn [app]. f_equal. apply (IH [a]). simpl in *; lia.
      * destruct (is_hexdig a && is_hexdig b).
        -- cbn [app]. f_equal. apply IH. simpl in *; lia.
        -- cbn [app]. f_equal. apply (IH (a :: b :: R)). simpl in *; lia.
    + cbn [app]. rewrite !unquote_scan_cons_other by assumption.
      cbn [app]. f_equal. apply IH. simpl in *; lia.
Qed.

Lemma unquote_run_space R L :
  unquote_run (R ++ space :: L) = unquote_run R ++ space :: unquote_run L.
Proof.
  unfold unquote_run. rewrite !unquote_to_bytes_scan.
  rewrite (unquote_scan_space L (length R) R) by lia.
  apply decode_replace_space.
Qed.

Lemma unquote_parts_nil run : unquote_parts run [] = unquote_run run.
Proof. reflexivity. Qed.

Lemma unquote_parts_cons run c r :
  unquote_parts run (c :: r) =
  if is_ascii c then unquote_parts (run ++ [c]) r
  else unquote_run run ++ c :: unquote_parts [] r.
Proof. reflexivity. Qed.

(** A space inside the current run splits it. *)
Lemma unquote_parts_run_space B : forall run L,
  unquote_parts (run ++ space :: L) B =
  unquote_run run ++ space :: unquote_parts L B.
Proof.
  induction B as [|c B IH]; intros run L.
  - rewrite !unquote_parts_nil. apply unquote_run_space.
  - rewrite !unquote_parts_cons. destruct (is_ascii c).
    + rewrite <- app_assoc. cbn [app]. apply IH.
    + rewrite unquote_run_space, <- app_assoc. reflexivity.
Qed.

Lemma unquote_parts_space B : forall A run,
  unquote_parts run (A ++ space :: B) =
  unquote_parts run A ++ space :: unquote_parts [] B.
Proof.
  induction A as [|c A IH]; intros run.
  - cbn [app]. rewrite unquote_parts_cons, unquote_parts_nil.
    change (is_ascii space) with true. cbv iota.
    apply (unquote_parts_run_space B run []).
  - cbn [app]. rewrite !unquote_parts_cons. destruct (is_ascii c).
    + apply IH.
    + rewrite IH, <- app_assoc. reflexivity.
Qed.

Lemma unquote_scan_no_percent s :
  existsb (Z.eqb percent) s = false -> unquote_scan s = s.
Proof.
  induction s as [|c s IH]; [reflexivity|].
  cbn [existsb]. intros [Hc Hs]%orb_false_iff.
  rewrite unquote_scan_cons_other by (by rewrite Z.eqb_sym).
  by rewrite IH.
Qed.

Lemma forallb_snoc {A} (f : A -> bool) l x :
  forallb f (l ++ [x]) = forallb f l && f x.
Proof. rewrite forallb_app. simpl. by rewrite andb_true_r. Qed.

Lemma existsb_snoc {A} (f : A -> bool) l x :
  existsb f (l ++ [x]) = existsb f l || f x.
Proof. rewrite existsb_app. simpl. by rewrite orb_false_r. Qed.

(** Without a percent sign nothing is unquoted. *)
Lemma unquote_parts_no_percent s : forall run,
  forallb is_ascii run = true ->
  existsb (Z.eqb percent) run = false ->
  existsb (Z.eqb percent) s = false ->
  unquote_parts run s = run ++ s.
Proof.
  assert (Hrun : forall run, forallb is_ascii run = true ->
            existsb (Z.eqb percent) run = false -> unquote_run run = run).
  { intros run Ha Hp. unfold unquote_run.
    rewrite unquote_to_bytes_scan, unquote_scan_no_percent by assumption.
    by apply decode_replace_ascii. }
  induction s as [|c s IH]; intros run Ha Hp Hs.
  - rewrite unquote_parts_nil, app_nil_r. by apply Hrun.
  - cbn [existsb] in Hs. apply orb_false_iff in Hs as [Hc Hs].
    rewrite unquote_parts_cons. destruct (is_ascii c) eqn:Hac.
    + rewrite IH.
      * by rewrite <- app_assoc.
      * by rewrite forallb_snoc, Ha, Hac.
      * by rewrite existsb_snoc, Hp, Hc.
      * assumption.
    + rewrite (Hrun run), (IH []) by (assumption || reflexivity). reflexivity.
Qed.

(** The shortcut of [unquote] for a string without a percent sign returns
    what the loop would. *)
Lemma unquote_loop s : unquote s = unquote_parts [] s.
Proof.
  unfold unquote. destruct (existsb (Z.eqb percent) s) eqn:Hp; [reflexivity|].
  by rewrite unquote_parts_no_percent.
Qed.

Lemma replace_plus_app a b :
  replace_plus (a ++ b) = replace_plus a ++ replace_plus b.
Proof. apply map_app. Qed.

(** A literal plus sign becomes a space and separates what is decoded
    before it from what is decoded after it. *)
Lemma unquote_plus_split pre post :
  unquote_plus (pre ++ plus :: post) =
  unquote_plus pre ++ space :: unquote_plus post.
Proof.
  unfold unquote_plus. rewrite replace_plus_app. cbn [replace_plus map].
  change (plus =? plus) with true. cbv iota.
  rewrite !unquote_loop. apply unquote_parts_space.
Qed.

(** An ASCII string is one run. *)
Lemma unquote_parts_ascii s : forall run,
  forallb is_ascii s = true -> unquote_parts run s = unquote_run (run ++ s).
Proof.
  induction s as [|c s IH]; intros run Hs.
  - by rewrite unquote_parts_nil, app_nil_r.
  - cbn [forallb] in Hs. apply andb_true_iff in Hs as [Hc Hs].
    rewrite unquote_parts_cons, Hc, IH by assumption.
    by rewrite <- app_assoc.
Qed.

(** On an ASCII key, which is what a notification carries, [unquote_plus]
    is: every plus sign becomes a space, every escape becomes its byte, and
    the bytes are decoded as UTF-8. *)
Lemma unquote_plus_ascii key :
  forallb is_ascii key = true ->
  unquote_plus key = decode_replace (unquote_scan (replace_plus key)).
Proof.
  intros Hk. unfold unquote_plus.
  rewrite unquote_loop, unquote_parts_ascii.
  - unfold unquote_run. by rewrite unquote_to_bytes_scan.
  - unfold replace_plus. rewrite forallb_forall in *. intros c Hc.
    apply in_map_iff in Hc as (c' & <- & Hc').
    destruct (c' =? plus); [reflexivity | by apply Hk].
Qed.

Lemma unquote_scan_shrinks : forall n s, (length s <= n)%nat ->
  unquote_scan s = s \/ (length (unquote_scan s) < length s)%nat.
Proof.
  assert (Hle : forall n s, (length s <= n)%nat ->
            (length (unquote_scan s) <= length s)%nat).
  { induction n as [|n IH]; intros s Hn.
    - destruct s; [simpl; lia | simpl in Hn; lia].
    - destruct s as [|c r]; [simpl; lia|].
      assert (H0 := IH r).
      destruct (c =? percent) eqn:Hc.
      + apply Z.eqb_eq in Hc as ->. rewrite unquote_scan_percent.
        destruct r as [|a [|b r']]; [simpl in *; lia ..|].
        assert (H2 := IH r').
        destruct (is_hexdig a && is_hexdig b); cbn [length] in *; lia.
      + rewrite unquote_scan_cons_other by assumption. cbn [length] in *. lia. }
  induction n as [|n IH]; intros s Hn.
  - destruct s; [by left | simpl in Hn; lia].
  - destruct s as [|c r]; [by left|].
    destruct (c =? percent) eqn:Hc.
    + apply Z.eqb_eq in Hc as ->. rewrite unquote_scan_percent.
      destruct r as [|a [|b r']].
      * by left.
      * destruct (IH [a]) as [->|H]; [simpl in *; lia | by left | right; simpl in *; lia].
      * destruct (is_hexdig a && is_hexdig b).
        -- right. pose proof (Hle (length r') r'). cbn [length] in *. lia.
        -- destruct (IH (a :: b :: r')) as [->|H]; [simpl in *; lia | by left |].
           right. cbn [length] in *. lia.
    + rewrite unquote_scan_cons_other by assumption.
      destruct (IH r) as [->|H]; [simpl in *; lia | by left |].
      right. cbn [length] in *. lia.
Qed.

Lemma unquote_run_shrinks run :
  forallb is_ascii run = true ->
  unquote_run run = run \/ (length (unquote_run run) < length run)%nat.
Proof.
  intros Ha. unfold unquote_run. rewrite unquote_to_bytes_scan.
  destruct (unquote_scan_shrinks (length run) run) as [->|H]; [lia | |].
  - left. by apply decode_replace_ascii.
  - right. pose proof (length_decode_replace (unquote_scan run)). lia.
Qed.

Lemma unquote_parts_shrinks s : forall run,
  forallb is_ascii run = true ->
  unquote_parts run s = run ++ s \/
  (length (unquote_parts run s) < length (run ++ s))%nat.
Proof.
  induction s as [|c s IH]; intros run Ha.
  - rewrite unquote_parts_nil, app_nil_r. by apply unquote_run_shrinks.
  - rewrite unquote_parts_cons. destruct (is_ascii c) eqn:Hc.
    + replace (run ++ c :: s) with ((run ++ [c]) ++ s)
        by (by rewrite <- app_assoc).
      apply IH. by rewrite forallb_snoc, Ha, Hc.
    + destruct (unquote_run_shrinks run Ha) as [->|H1];
        destruct (IH [] eq_refl) as [->|H2]; cbn [app] in *.
      * by left.
      * right. rewrite !length_app. cbn [length]. lia.
      * right. rewrite !length_app. cbn [length]. lia.
      * right. rewrite !length_app. cbn [length]. lia.
Qed.

(** Unquoting leaves the string as it is or makes it shorter. *)
Lemma unquote_shrinks s :
  unquote s = s \/ (length (unquote s) < length s)%nat.
Proof. rewrite unquote_loop. apply (unquote_parts_shrinks s [] eq_refl). Qed.

Lemma replace_plus_removes s : ~ In plus (replace_plus s).
Proof.
  unfold replace_plus. rewrite in_map_iff. intros (c & Hc & _).
  destruct (Z.eqb_spec c plus); [discriminate | congruence].
Qed.

(** A key with a literal plus sign is never decoded to itself. *)
Lemma unquote_plus_changes pre post :
  unquote_plus (pre ++ plus :: post) <> pre ++ plus :: post.
Proof.
  unfold unquote_plus.
  destruct (unquote_shrinks (replace_plus (pre ++ plus :: post))) as [->|H].
  - intros Heq. apply (replace_plus_removes (pre ++ plus :: post)).
    rewrite Heq. apply in_elt.
  - intros Heq. rewrite Heq in H. unfold replace_plus in H.
    rewrite length_map in H. lia.
Qed.

End UrlFacts.

(** ** Subscripts and the decoder *)

Lemma getitem_field v k x : field v k = Some x -> getitem v (Key k) = inr x.
Proof. destruct v; try discriminate. simpl. by intros ->. Qed.

Lemma getitem_field_None v k :
  field v k = None -> getitem v (Key k) = inl (SubscriptError v (Key k)).
Proof. destruct v; try reflexivity. simpl. by intros ->. Qed.

Lemma getpath_cons v sub subs :
  getpath v (sub :: subs) =
  match getitem v sub with inl e => inl e | inr x => getpath x subs end.
Proof. reflexivity. Qed.

Lemma getpath_step v sub subs x :
  getitem v sub = inr x -> getpath v (sub :: subs) = getpath x subs.
Proof. intros H. by rewrite getpath_cons, H. Qed.

Lemma getpath_field v k subs x :
  field v k = Some x -> getpath v (Key k :: subs) = getpath x subs.
Proof. intros H. apply getpath_step. by apply getitem_field. Qed.

(** Lines 24-25 on a well-formed payload. *)
Lemma decode_event_names_first event container key :
  names_first event container key ->
  decode_event event = inr (PStr container, UrlParse.unquote_plus key).
Proof.
  intros (record & others & s3 & b & o & HR & Hs3 & Hb & Hn & Ho & Hk).
  unfold decode_event.
  rewrite !(getpath_field _ _ _ _ HR).
  rewrite !(getpath_step (PList (record :: others)) (Index 0) _ record eq_refl).
  rewrite !(getpath_field _ _ _ _ Hs3).
  rewrite (getpath_field _ _ _ _ Hb), (getpath_field _ _ _ _ Hn).
  rewrite (getpath_field _ _ _ _ Ho), (getpath_field _ _ _ _ Hk).
  reflexivity.
Qed.

(** Line 66 on a document without the transcript. *)
Lemma getpath_missing doc :
  has_transcript doc = false ->
  exists v sub,
    getpath doc [Key k_results; Key k_transcripts; Index 0%nat;
                 Key k_transcript] = inl (SubscriptError v sub).
Proof.
  unfold has_transcript. intros H.
  destruct (field doc k_results) as [results|] eqn:Hr.
  2: { rewrite getpath_cons, (getitem_field_None _ _ Hr). eauto. }
  rewrite (getpath_field _ _ _ _ Hr).
  destruct (field results k_transcripts) as [ts|] eqn:Ht.
  2: { rewrite getpath_cons, (getitem_field_None _ _ Ht). eauto. }
  rewrite (getpath_field _ _ _ _ Ht).
  destruct ts as [| | | |s|[|first rest]|]; try (by eexists _, _).
  - destruct s as [|c s]; [by eexists _, _|].
    rewrite (getpath_step (PStr (c :: s)) (Index 0) _ (PStr [c]) eq_refl).
    by eexists _, _.
  - rewrite (getpath_step (PList (first :: rest)) (Index 0) _ first eq_refl).
    destruct (field first k_transcript) as [t|] eqn:Hf; [discriminate|].
    rewrite getpath_cons, (getitem_field_None _ _ Hf). eauto.
Qed.

Lemma error_record_no_status msg : field (error_record msg) k_status = None.
Proof. reflexivity. Qed.

Lemma success_record_status loc :
  field (success_record loc) k_status = Some (PStr (lit "success")).
Proof. reflexivity. Qed.

(** ** Standard output *)

Lemma bind_mret {A B} (a : A) (k : A -> M B) : mret a ≫= k = k a.
Proof.
  change (mret a : M A) with (eval (inr a) : M A). apply bind_eval_inr.
Qed.

Lemma bind_ext {A B} (m : M A) (k k' : A -> M B) :
  (forall a, k a = k' a) -> m ≫= k = m ≫= k'.
Proof.
  intros H. destruct m as [[e|a] l]; [reflexivity|].
  unfold mbind, M_bind. by rewrite H.
Qed.

Lemma bind_eval_inl {A B} (e : exn) (k : A -> M B) :
  eval (inl e) ≫= k = (inl e, []).
Proof. reflexivity. Qed.

Lemma bind_raise {A B} (e : exn) (k : A -> M B) : raise e ≫= k = raise e.
Proof. reflexivity. Qed.

Lemma printable_app a b : printable (a ++ b) = printable a && printable b.
Proof. unfold printable. by rewrite existsb_app, negb_orb. Qed.

Lemma printable_cons c a :
  printable (c :: a) = negb (is_surrogate c) && printable a.
Proof. unfold printable. cbn [existsb]. by rewrite negb_orb. Qed.

Lemma printable_app_l a b : printable (a ++ b) = true -> printable a = true.
Proof. rewrite printable_app. by intros [? _]%andb_true_iff. Qed.

Lemma printable_app_r a b : printable (a ++ b) = true -> printable b = true.
Proof. rewrite printable_app. by intros [_ ?]%andb_true_iff. Qed.

Lemma printable_not s : printable s = true -> existsb is_surrogate s = false.
Proof. unfold printable. by intros ?%negb_true_iff. Qed.

Lemma print_one text :
  printable text = true -> print [text] = mret tt.
Proof. intros H. cbn [print]. by rewrite H. Qed.

Lemma print_one_not text :
  printable text = false -> print [text] = raise (UnicodeEncodeError text).
Proof. intros H. cbn [print]. by rewrite H. Qed.

Lemma print_waiting : print [waiting_line] = mret tt.
Proof. reflexivity. Qed.

Lemma print_completed : print [completed_line] = mret tt.
Proof. reflexivity. Qed.

Lemma print_sample text : print [sample_label; text] = print [text].
Proof. reflexivity. Qed.

(** The lines of the handler are printable when what they quote is. *)
Lemma printable_received rt bucket key :
  printable (received_line rt bucket key) =
  printable (format rt bucket) && printable key.
Proof.
  unfold received_line, s3_uri.
  rewrite printable_cons, !printable_app. cbn [negb andb].
  by destruct (printable (format rt bucket)), (printable key).
Qed.

Lemma printable_started job :
  printable (started_line job) = printable job.
Proof.
  unfold started_line. rewrite !printable_cons, printable_app. reflexivity.
Qed.

Lemma printable_error_line rt e :
  printable (error_line rt e) = printable (str_exn rt e).
Proof. unfold error_line. rewrite printable_cons, printable_app. reflexivity. Qed.

Lemma printable_saved rt bucket key job :
  printable (received_line rt bucket key) = true ->
  printable (started_line job) = true ->
  printable (saved_line rt bucket (summary_key_of job)) = true.
Proof.
  rewrite printable_received, printable_started.
  intros [Hb _]%andb_true_iff Hj.
  unfold saved_line, s3_uri, summary_key_of.
  rewrite printable_cons, !printable_app, Hb, Hj. reflexivity.
Qed.

(** ** The clause [except Exception] *)

Lemma builtin_reported rt e : is_builtin e = true -> reported rt e = true.
Proof.
  unfold reported. destruct e; try discriminate; intros _;
    apply (error_text_printable rt).
Qed.

Lemma except_clause_reported rt e :
  reported rt e = true ->
  except_clause rt e = mret (error_record (str_exn rt e)).
Proof.
  unfold reported, except_clause. intros [-> Hp]%andb_true_iff.
  rewrite print_one, bind_mret; [reflexivity|].
  by rewrite printable_error_line.
Qed.

Lemma except_clause_unprintable rt e :
  is_exception e = true -> printable (str_exn rt e) = false ->
  except_clause rt e = raise (UnicodeEncodeError (error_line rt e)).
Proof.
  unfold except_clause. intros -> Hp.
  rewrite print_one_not; [reflexivity|]. by rewrite printable_error_line.
Qed.

Lemma except_clause_passes rt e :
  is_exception e = false -> except_clause rt e = raise e.
Proof. unfold except_clause. by intros ->. Qed.

Lemma catch_all_reported rt e log :
  reported rt e = true ->
  catch_all rt (inl e, log) = (inr (error_record (str_exn rt e)), log).
Proof.
  intros H. unfold catch_all. rewrite (except_clause_reported _ _ H).
  unfold prepend. cbn [fst snd]. by rewrite app_nil_r.
Qed.

Lemma catch_all_prepend rt l m :
  catch_all rt (prepend l m) = prepend l (catch_all rt m).
Proof.
  destruct m as [[e|r] log]; unfold catch_all, prepend; cbn [fst snd].
  - by rewrite app_assoc.
  - reflexivity.
Qed.

(** What the clause can make of an exception. *)
Lemma catch_all_cases rt e log :
  (reported rt e = true /\
   catch_all rt (inl e, log) = (inr (error_record (str_exn rt e)), log)) \/
  (is_exception e = true /\ printable (str_exn rt e) = false /\
   catch_all rt (inl e, log) =
     (inl (UnicodeEncodeError (error_line rt e)), log)) \/
  (is_exception e = false /\ catch_all rt (inl e, log) = (inl e, log)).
Proof.
  unfold catch_all, reported.
  destruct (is_exception e) eqn:He.
  - destruct (printable (str_exn rt e)) eqn:Hp.
    + left. split; [reflexivity|].
      rewrite except_clause_reported by (unfold reported; by rewrite He, Hp).
      unfold prepend. cbn [fst snd]. by rewrite app_nil_r.
    + right. left. split; [reflexivity|]. split; [reflexivity|].
      rewrite (except_clause_unprintable _ _ He Hp).
      unfold prepend, raise. cbn [fst snd]. by rewrite app_nil_r.
  - right. right. split; [reflexivity|].
    rewrite (except_clause_passes _ _ He).
    unfold prepend, raise. cbn [fst snd]. by rewrite app_nil_r.
Qed.

(** A record comes out of the clause only as the error record. *)
Lemma catch_all_inr rt m result log :
  catch_all rt m = (inr result, log) ->
  m = (inr result, log) \/
  exists e, m = (inl e, log) /\ reported rt e = true /\
            result = error_record (str_exn rt e).
Proof.
  destruct m as [[e|r] l]; [|intros [= <- <-]; by left].
  destruct (catch_all_cases rt e l) as [[Hr ->]|[(_ & _ & ->)|[_ ->]]];
    intros [= <- <-]. right. by exists e.
Qed.

(** ** The polling loop *)

Lemma poll_once_eq w job n :
  poll_once w job n =
  (observed w job n,
   [{| called := GetTranscriptionJob job;
       returned := succeeded (get_transcription_job w n job) |}]).
Proof.
  unfold poll_once, observed, invoke.
  by destruct (get_transcription_job w n job) as [e|status].
Qed.

Lemma observed_succeeded w job n s :
  observed w job n = inr s -> succeeded (get_transcription_job w n job) = true.
Proof. unfold observed. by destruct (get_transcription_job w n job). Qed.

Lemma poll_once_observed w job n s :
  observed w job n = inr s -> poll_once w job n = (inr s, [polled job]).
Proof.
  intros H. rewrite poll_once_eq, H.
  by rewrite (observed_succeeded _ _ _ _ H).
Qed.

Lemma poll_loop_S w job remaining n js :
  poll_loop w job (S remaining) n js =
  (job_status' ← poll_once w job n;
   if is_terminal job_status' then mret (Some job_status')
   else _ ← invoke (Sleep poll_interval) (sleep w n);
        poll_loop w job remaining (S n) (Some job_status')).
Proof.
  cbn [poll_loop]. apply bind_ext. intros s.
  destruct (is_terminal s); [reflexivity|].
  by rewrite print_waiting, bind_mret.
Qed.
(** One round of the loop on a status that is not terminal. *)
Lemma poll_loop_step w job remaining n js s :
  observed w job n = inr s -> is_terminal s = false -> sleep w n = inr tt ->
  poll_loop w job (S remaining) n js =
  prepend [polled job; slept] (poll_loop w job remaining (S n) (Some s)).
Proof.
  intros Hobs Hnt Hs.
  rewrite poll_loop_S, (poll_once_observed _ _ _ _ Hobs), bind_inr, Hnt.
  unfold invoke. rewrite Hs, bind_inr, prepend_prepend. reflexivity.
Qed.

(** The round that observes a terminal status is the last one. *)
Lemma poll_loop_stop w job remaining n js s :
  observed w job n = inr s -> is_terminal s = true ->
  poll_loop w job (S remaining) n js = (inr (Some s), [polled job]).
Proof.
  intros Hobs Ht.
  rewrite poll_loop_S, (poll_once_observed _ _ _ _ Hobs), bind_inr, Ht.
  reflexivity.
Qed.

(** A sleep that raises ends the loop. *)
Lemma poll_loop_interrupted w job remaining n js s e :
  observed w job n = inr s -> is_terminal s = false -> sleep w n = inl e ->
  poll_loop w job (S remaining) n js = (inl e, [polled job; interrupted]).
Proof.
  intros Hobs Hnt Hs.
  rewrite poll_loop_S, (poll_once_observed _ _ _ _ Hobs), bind_inr, Hnt.
  unfold invoke. by rewrite Hs, bind_inl.
Qed.

Lemma pending_S w job n k :
  pending w job n (S k) ->
  (exists s, observed w job n = inr s /\ is_terminal s = false) /\
  sleep w n = inr tt /\
  pending w job (S n) k.
Proof.
  intros H. destruct (H 0%nat) as [Hs Hz]; [lia|].
  rewrite Nat.add_0_r in Hs, Hz. split; [exact Hs|]. split; [exact Hz|].
  intros i Hi. destruct (H (S i)) as [Hs' Hz']; [lia|].
  by replace (S n + i)%nat with (n + S i)%nat by lia.
Qed.

Lemma pending_cons w job n k s :
  observed w job n = inr s -> is_terminal s = false -> sleep w n = inr tt ->
  pending w job (S n) k -> pending w job n (S k).
Proof.
  intros Hobs Hnt Hz Hp [|i] Hi.
  - rewrite Nat.add_0_r. split; [by exists s | exact Hz].
  - destruct (Hp i) as [Hs' Hz']; [lia|].
    by replace (n + S i)%nat with (S n + i)%nat by lia.
Qed.

Lemma pending_le w job n k k' :
  pending w job n k -> (k' <= k)%nat -> pending w job n k'.
Proof. intros H Hk i Hi. apply H. lia. Qed.

(** After [k] rounds without a terminal status the loop is where it would be
    had it started at the poll [n + k]. *)
Lemma poll_loop_pending w job k : forall remaining n js,
  pending w job n k -> (0 < k)%nat ->
  exists s, observed w job (n + k - 1) = inr s /\ is_terminal s = false /\
    poll_loop w job (k + remaining) n js =
    prepend (waiting job k) (poll_loop w job remaining (n + k) (Some s)).
Proof.
  induction k as [|k IH]; intros remaining n js Hp Hk; [lia|].
  apply pending_S in Hp as ((s & Hobs & Hnt) & Hz & Hp).
  change (S k + remaining)%nat with (S (k + remaining)).
  rewrite (poll_loop_step _ _ _ _ _ _ Hobs Hnt Hz).
  destruct k as [|k].
  - exists s. replace (n + 1 - 1)%nat with n by lia.
    replace (n + 1)%nat with (S n) by lia. auto.
  - destruct (IH remaining (S n) (Some s) Hp) as (s' & Hobs' & Hnt' & ->); [lia|].
    exists s'. replace (n + S (S k) - 1)%nat with (S n + S k - 1)%nat by lia.
    replace (n + S (S k))%nat with (S n + S k)%nat by lia.
    rewrite prepend_prepend. auto.
Qed.

(** What the loop does after [k] rounds without a terminal status is what
    it does from the poll [n + k] on. *)
Lemma poll_loop_after w job k remaining n js r l :
  pending w job n k ->
  (forall js', poll_loop w job remaining (n + k) js' = (r, l)) ->
  poll_loop w job (k + remaining) n js = (r, waiting job k ++ l).
Proof.
  intros Hp Hrest. destruct k as [|k].
  - rewrite Nat.add_0_r in Hrest. apply Hrest.
  - destruct (poll_loop_pending w job (S k) remaining n js Hp)
      as (s' & _ & _ & ->); [lia|].
    by rewrite Hrest.
Qed.

(** The loop stops at the first terminal status, after [k + 1] polls and [k]
    sleeps. *)
Lemma poll_loop_terminal w job k remaining n js s :
  pending w job n k -> observed w job (n + k) = inr s ->
  is_terminal s = true ->
  poll_loop w job (k + S remaining) n js =
  (inr (Some s), waiting job k ++ [polled job]).
Proof.
  intros Hp Hobs Ht. apply poll_loop_after; [exact Hp|].
  intros js'. by apply poll_loop_stop.
Qed.

(** A poll that raises ends the loop. *)
Lemma poll_loop_raises w job k remaining n js e :
  pending w job n k -> observed w job (n + k) = inl e ->
  poll_loop w job (k + S remaining) n js =
  (inl e, waiting job k ++
          [{| called := GetTranscriptionJob job;
              returned := succeeded (get_transcription_job w (n + k) job) |}]).
Proof.
  intros Hp Hobs. apply poll_loop_after; [exact Hp|].
  intros js'. by rewrite poll_loop_S, poll_once_eq, Hobs.
Qed.

(** A sleep that raises, after [k] rounds and a poll. *)
Lemma poll_loop_sleep_raises w job k remaining n js s e :
  pending w job n k -> observed w job (n + k) = inr s ->
  is_terminal s = false -> sleep w (n + k) = inl e ->
  poll_loop w job (k + S remaining) n js =
  (inl e, waiting job k ++ [polled job; interrupted]).
Proof.
  intros Hp Hobs Hnt Hz. apply poll_loop_after; [exact Hp|].
  intros js'. by eapply poll_loop_interrupted.
Qed.

(** Without a terminal status the loop uses its whole budget and ends with
    the status of the last poll. *)
Lemma poll_loop_exhausted w job k n js :
  pending w job n k -> (0 < k)%nat ->
  exists s, observed w job (n + k - 1) = inr s /\ is_terminal s = false /\
    poll_loop w job k n js = (inr (Some s), waiting job k).
Proof.
  intros Hp Hk.
  destruct (poll_loop_pending w job k 0 n js Hp Hk) as (s & Hobs & Hnt & Heq).
  exists s. rewrite Nat.add_0_r in Heq. rewrite Heq. simpl.
  unfold prepend; simpl. by rewrite app_nil_r.
Qed.

Lemma polls_waiting job k : polls (waiting job k) = k.
Proof.
  unfold polls. induction k as [|k IH]; [reflexivity|].
  cbn [waiting List.filter is_poll called polled slept length]. by rewrite IH.
Qed.

Lemma polls_app l1 l2 : polls (l1 ++ l2) = (polls l1 + polls l2)%nat.
Proof. unfold polls. by rewrite List.filter_app, length_app. Qed.

(** The log of the loop, whatever the world answers: rounds of a poll and a
    sleep, then at most one more poll, which a sleep that raised may follow;
    the polls are within the budget. *)
Lemma poll_loop_log w job : forall remaining n js,
  exists k tail,
    (poll_loop w job remaining n js).2 = waiting job k ++ tail /\
    (k + polls tail <= remaining)%nat /\
    poll_tail job tail.
Proof.
  induction remaining as [|remaining IH]; intros n js.
  - exists 0%nat, []. split; [reflexivity|]. split; [unfold polls; simpl; lia | constructor].
  - rewrite poll_loop_S, poll_once_eq.
    destruct (observed w job n) as [e|s] eqn:Hobs.
    + exists 0%nat. eexists. rewrite bind_inl. cbn [snd waiting app].
      split; [reflexivity|]. split; [unfold polls; simpl; lia | constructor].
    + rewrite (observed_succeeded _ _ _ _ Hobs), bind_inr.
      destruct (is_terminal s).
      * exists 0%nat. eexists. unfold prepend. cbn [snd waiting app].
        split; [reflexivity|]. split; [unfold polls; simpl; lia | constructor].
      * unfold invoke. destruct (sleep w n) as [e|[]].
        { exists 0%nat, [polled job; interrupted]. rewrite bind_inl.
          unfold prepend. cbn [snd waiting app].
          split; [reflexivity|]. split; [unfold polls; simpl; lia | constructor]. }
        rewrite bind_inr, prepend_prepend.
        destruct (IH (S n) (Some s)) as (k & tail & Hlog & Hlen & Htail).
        exists (S k), tail. unfold prepend. cbn [snd]. rewrite Hlog.
        split; [reflexivity|]. split; [lia | exact Htail].
Qed.

(** After a round the job status is bound. *)
Lemma poll_loop_result w job : forall remaining n js r l,
  poll_loop w job remaining n js = (inr r, l) ->
  (0 < remaining)%nat -> exists s, r = Some s.
Proof.
  induction remaining as [|remaining IH]; intros n js r l H Hr; [lia|].
  rewrite poll_loop_S in H.
  apply bind_inv_inr in H as (s & l1 & l2 & _ & H & _).
  destruct (is_terminal s).
  - apply mret_inv in H as [<- _]. eauto.
  - apply bind_inv_inr in H as (_ & _ & l3 & _ & H & _).
    destruct remaining as [|remaining'].
    + simpl in H. apply mret_inv in H as [<- _]. eauto.
    + eapply IH; [exact H | lia].
Qed.

Lemma poll_result w job r l :
  poll w job = (inr r, l) -> exists s, r = Some s.
Proof.
  intros H. eapply poll_loop_result; [exact H|]. unfold max_attempts. lia.
Qed.

(** How the loop can end with a status: a poll within the budget observed
    a terminal one, the first to do so, or no poll did. *)
Lemma poll_loop_inv w job : forall remaining n js s l,
  poll_loop w job remaining n js = (inr (Some s), l) ->
  (0 < remaining)%nat ->
  (exists k, (k < remaining)%nat /\ pending w job n k /\
             observed w job (n + k) = inr s /\ is_terminal s = true) \/
  (pending w job n remaining /\ is_terminal s = false).
Proof.
  induction remaining as [|remaining IH]; intros n js s l H Hr; [lia|].
  rewrite poll_loop_S, poll_once_eq in H.
  destruct (observed w job n) as [e|s0] eqn:Hobs; [discriminate|].
  rewrite (observed_succeeded _ _ _ _ Hobs), bind_inr in H.
  destruct (is_terminal s0) eqn:Ht.
  - injection H as <- _. left. exists 0%nat.
    rewrite Nat.add_0_r. split; [lia|]. split; [intros i Hi; lia | done].
  - unfold invoke in H. destruct (sleep w n) as [e|[]] eqn:Hz; [discriminate|].
    rewrite bind_inr, prepend_prepend in H.
    destruct (poll_loop w job remaining (S n) (Some s0)) as [r l'] eqn:Hl.
    injection H as -> _.
    destruct remaining as [|remaining'].
    + injection Hl as <- _. right. split; [|exact Ht].
      apply (pending_cons _ _ _ _ _ Hobs Ht Hz). intros i Hi; lia.
    + destruct (IH _ _ _ _ Hl) as [(k & Hk & Hp & Hobs' & Ht')|[Hp Ht']]; [lia| |].
      * left. exists (S k). replace (n + S k)%nat with (S n + k)%nat by lia.
        split; [lia|]. split; [by eapply pending_cons | done].
      * right. split; [by eapply pending_cons | exact Ht'].
Qed.

(** The log of a loop that returns. *)
Lemma poll_returned_log w job s l :
  poll w job = (inr (Some s), l) ->
  exists k last,
    l = waiting job k ++ last /\
    (k + length last <= max_attempts)%nat /\
    (last = [] \/ last = [polled job]).
Proof.
  intros H. unfold poll in H.
  destruct (poll_loop_inv _ _ _ _ _ _ _ H)
    as [(k & Hk & Hp & Hobs & Ht)|[Hp Ht]]; [unfold max_attempts; lia| |].
  - exists k, [polled job]. split; [|split; [cbn [length]; lia | by right]].
    replace max_attempts with (k + S (max_attempts - S k))%nat in H by lia.
    rewrite (poll_loop_terminal _ _ _ _ _ _ _ Hp Hobs Ht) in H.
    by injection H as <-.
  - exists max_attempts, []. split; [|split; [cbn [length]; lia | by left]].
    destruct (poll_loop_exhausted w job max_attempts 0 None Hp)
      as (s' & _ & _ & Heq); [unfold max_attempts; lia|].
    rewrite Heq in H. injection H as _ <-. by rewrite app_nil_r.
Qed.

Lemma terminal_not_failed s :
  is_terminal s = true -> eq_str s FAILED = false -> s = PStr COMPLETED.
Proof.
  unfold is_terminal. intros H Hf. rewrite Hf, orb_false_r in H.
  destruct s; try discriminate. unfold eq_str in H.
  apply bool_decide_eq_true in H. by subst.
Qed.

(** A status is terminal exactly when it is one of the two strings. *)
Lemma is_terminal_false s :
  is_terminal s = false <-> s <> PStr COMPLETED /\ s <> PStr FAILED.
Proof.
  unfold is_terminal. rewrite orb_false_iff. split.
  - intros [Hc Hf]. split; by intros ->.
  - intros [Hc Hf]. destruct s; try done. unfold eq_str.
    split; apply bool_decide_eq_false; congruence.
Qed.

Lemma forallb_waiting (P : entry -> bool) job k :
  P (polled job) = true -> P slept = true ->
  forallb P (waiting job k) = true.
Proof.
  intros Hp Hs. induction k as [|k IH]; [reflexivity|].
  cbn [waiting forallb]. by rewrite Hp, Hs, IH.
Qed.

Lemma existsb_waiting (P : entry -> bool) job k :
  P (polled job) = false -> P slept = false ->
  existsb P (waiting job k) = false.
Proof.
  intros Hp Hs. induction k as [|k IH]; [reflexivity|].
  cbn [waiting existsb]. by rewrite Hp, Hs, IH.
Qed.

(** A predicate that holds of every poll and of every sleep holds of the
    whole block. *)
Lemma forallb_poll_block (P : entry -> bool) job k tail :
  (forall b, P {| called := GetTranscriptionJob job; returned := b |} = true) ->
  (forall b, P {| called := Sleep poll_interval; returned := b |} = true) ->
  poll_tail job tail ->
  forallb P (waiting job k ++ tail) = true.
Proof.
  intros Hp Hs Ht. rewrite forallb_app, forallb_waiting by (apply Hp || apply Hs).
  destruct Ht; unfold polled, interrupted; cbn [forallb];
    rewrite ?Hp, ?Hs; reflexivity.
Qed.

Lemma poll_not_summarize w job r l :
  poll w job = (r, l) -> existsb is_summarize l = false.
Proof.
  intros H.
  destruct (poll_loop_log w job max_attempts 0 None)
    as (k & last & Hlog & _ & Hlast).
  fold (poll w job) in Hlog. rewrite H in Hlog. cbn [snd] in Hlog. subst l.
  rewrite existsb_app, existsb_waiting by reflexivity.
  by destruct Hlast.
Qed.
(** ** The exceptions of the interpreter *)

Lemma getitem_builtin v sub e : getitem v sub = inl e -> is_builtin e = true.
Proof.
  unfold getitem. intros H.
  repeat match type of H with
         | context [match ?x with _ => _ end] => destruct x
         end; try discriminate H; by injection H as <-.
Qed.

Lemma getpath_builtin subs : forall v e,
  getpath v subs = inl e -> is_builtin e = true.
Proof.
  induction subs as [|sub subs IH]; intros v e; [discriminate|].
  rewrite getpath_cons. destruct (getitem v sub) as [e'|x] eqn:Hg.
  - intros [= <-]. by eapply getitem_builtin.
  - apply IH.
Qed.

Lemma decode_event_builtin event e :
  decode_event event = inl e -> is_builtin e = true.
Proof.
  unfold decode_event.
  destruct (getpath event _) as [e1|bucket] eqn:H1.
  { intros [= <-]. by eapply getpath_builtin. }
  destruct (getpath event [_; _; _; Key k_object; _]) as [e2|k] eqn:H2.
  { intros [= <-]. by eapply getpath_builtin. }
  destruct k; try by intros [= <-].
Qed.

(** ** The stages of the handler *)

Ltac run_binds :=
  repeat first
    [ rewrite bind_prepend | rewrite bind_inr | rewrite bind_inl
    | rewrite bind_eval_inr | rewrite bind_eval_inl | rewrite bind_mret
    | rewrite bind_raise | rewrite prepend_prepend ];
  unfold prepend, raise; cbn [fst snd app];
  rewrite ?app_nil_r, <- ?app_assoc; cbn [app].

(** Lines 23-43 on an event that decodes, with a submission that is
    accepted and lines that can be printed. *)
Lemma handler_body_submitted rt w ev bucket key :
  submitted rt w ev bucket key ->
  handler_body rt w ev =
  prepend [submission rt w bucket key]
          (poll_and_finish rt w bucket (job_name_of w)).
Proof.
  intros (Hd & Hr & Hs & Hj). unfold handler_body.
  rewrite Hd, bind_eval_inr, (print_one _ Hr), bind_mret.
  unfold start_job, invoke. rewrite Hs, bind_inr.
  by rewrite (print_one _ Hj), bind_mret.
Qed.

Lemma check_failed_inv js l :
  check_failed js = (inr tt, l) ->
  exists s, js = Some s /\ eq_str s FAILED = false /\ l = [].
Proof.
  unfold check_failed. destruct js as [s|]; [|discriminate].
  destruct (eq_str s FAILED) eqn:Hf; [discriminate|].
  intros [= <-]. exists s. auto.
Qed.

(** Lines 56-59 let every status but FAILED through. *)
Lemma poll_and_finish_continue rt w bucket job s l :
  poll w job = (inr (Some s), l) -> eq_str s FAILED = false ->
  poll_and_finish rt w bucket job =
  prepend l (fetch_and_finish rt w bucket job).
Proof.
  intros Hp Hf. unfold poll_and_finish. rewrite Hp, bind_inr.
  unfold check_failed. rewrite Hf.
  by rewrite bind_mret, print_completed, bind_mret.
Qed.

Lemma poll_and_finish_failed rt w bucket job s l :
  poll w job = (inr (Some s), l) -> eq_str s FAILED = true ->
  poll_and_finish rt w bucket job =
  (inl (Exception (lit "Transcription failed")), l).
Proof.
  intros Hp Hf. unfold poll_and_finish. rewrite Hp, bind_inr.
  unfold check_failed. rewrite Hf. unfold raise, prepend; simpl.
  by rewrite app_nil_r.
Qed.

Lemma poll_and_finish_raised rt w bucket job e l :
  poll w job = (inl e, l) -> poll_and_finish rt w bucket job = (inl e, l).
Proof. intros Hp. unfold poll_and_finish. by rewrite Hp. Qed.

(** *** The transcript *)

Lemma fetch_transcript_got rt w bucket job bytes :
  get_object w bucket (transcript_key_of job) = inr bytes ->
  exists r, fetch_transcript rt w bucket job = (r, [fetched bucket job]).
Proof.
  intros Hget. unfold fetch_transcript, invoke. rewrite Hget, bind_inr.
  destruct (json_loads rt bytes) as [e|doc]; [by eexists|].
  rewrite bind_eval_inr.
  destruct (getpath doc _) as [e|t]; [by eexists|]. rewrite bind_eval_inr.
  destruct (getitem t (SliceTo 150)) as [e|sl]; [by eexists|].
  rewrite bind_eval_inr, print_sample.
  destruct (printable (format rt sl)) eqn:Hp.
  - rewrite (print_one _ Hp), bind_mret. by eexists.
  - rewrite (print_one_not _ Hp). by eexists.
Qed.

Lemma fetch_transcript_read rt w bucket t :
  transcript_read rt w bucket t ->
  fetch_transcript rt w bucket (job_name_of w) =
  (inr t, [fetched bucket (job_name_of w)]).
Proof.
  intros (bytes & doc & sample & Hget & Hdoc & Hpath & Hsl & Hp).
  unfold fetch_transcript, invoke. rewrite Hget, bind_inr, Hdoc.
  rewrite bind_eval_inr, Hpath, bind_eval_inr, Hsl, bind_eval_inr.
  by rewrite print_sample, (print_one _ Hp), bind_mret.
Qed.

Lemma print_inv_inr args l :
  print args = (inr tt, l) -> forallb printable args = true /\ l = [].
Proof.
  induction args as [|a args IH]; cbn [print forallb].
  - by intros [= <-].
  - destruct (printable a); [|discriminate]. apply IH.
Qed.

Lemma fetch_transcript_inv rt w bucket t l :
  fetch_transcript rt w bucket (job_name_of w) = (inr t, l) ->
  transcript_read rt w bucket t /\ l = [fetched bucket (job_name_of w)].
Proof.
  unfold fetch_transcript. intros Hf.
  apply bind_inv_inr in Hf as (bytes & la & lb & Hget & Hf & ->).
  apply invoke_inv_inr in Hget as [Hget ->].
  apply bind_inv_inr in Hf as (doc & lc & ld & Hdoc & Hf & ->).
  apply eval_inv_inr in Hdoc as [Hdoc ->].
  apply bind_inv_inr in Hf as (t' & le & lf & Ht & Hf & ->).
  apply eval_inv_inr in Ht as [Ht ->].
  apply bind_inv_inr in Hf as (sl & lg & lh & Hsl & Hf & ->).
  apply eval_inv_inr in Hsl as [Hsl ->].
  apply bind_inv_inr in Hf as ([] & li & lj & Hp & Hf & ->).
  apply print_inv_inr in Hp as [Hp ->].
  apply mret_inv in Hf as [-> ->].
  cbn [forallb] in Hp. apply andb_true_iff in Hp as [_ Hp].
  rewrite andb_true_r in Hp.
  split; [by exists bytes, doc, sl | reflexivity].
Qed.

(** *** The summary *)

Lemma finish_answer rt w bucket t choices :
  fetch_transcript rt w bucket (job_name_of w) =
    (inr t, [fetched bucket (job_name_of w)]) ->
  chat_completions_create w model system_prompt t max_tokens = inr choices ->
  fetch_and_finish rt w bucket (job_name_of w) =
  prepend [fetched bucket (job_name_of w); summarized t]
    (match choices with
     | [] => raise (SubscriptError (PList []) (Index 0))
     | content :: _ =>
       summary_key ← save_summary w bucket (job_name_of w) content;
       _ ← print [saved_line rt bucket summary_key];
       mret (success_record (s3_uri rt bucket summary_key))
     end).
Proof.
  intros Hf Hchat. unfold fetch_and_finish. rewrite Hf, bind_inr.
  unfold summarize, invoke. rewrite Hchat, bind_inr, bind_prepend.
  rewrite prepend_prepend. cbn [app]. f_equal.
  destruct choices as [|content rest]; [done|].
  by rewrite bind_mret.
Qed.

Lemma finish_summary rt w bucket t summary rest :
  fetch_transcript rt w bucket (job_name_of w) =
    (inr t, [fetched bucket (job_name_of w)]) ->
  chat_completions_create w model system_prompt t max_tokens
    = inr (Some summary :: rest) ->
  existsb is_surrogate summary = false ->
  printable (saved_line rt bucket (summary_key_of (job_name_of w))) = true ->
  fetch_and_finish rt w bucket (job_name_of w) =
  prepend [fetched bucket (job_name_of w); summarized t]
    (_ ← invoke (PutObject bucket (summary_key_of (job_name_of w))
                   (Utf8.encode_all summary) text_plain)
                (put_object w bucket (summary_key_of (job_name_of w))
                   (Utf8.encode_all summary) text_plain);
     mret (success_record
             (s3_uri rt bucket (summary_key_of (job_name_of w))))).
Proof.
  intros Hf Hchat Hs Hp. rewrite (finish_answer _ _ _ _ _ Hf Hchat). f_equal.
  unfold save_summary, encode_summary. rewrite (encode_total _ Hs).
  rewrite bind_eval_inr. unfold invoke.
  destruct (put_object w bucket _ _ text_plain) as [e|[]]; [done|].
  run_binds. by rewrite (print_one _ Hp), bind_mret.
Qed.

(** Every way lines 62-91 can go, after lines 28 and 43. *)
Lemma fetch_and_finish_case rt w bucket :
  printable (saved_line rt bucket (summary_key_of (job_name_of w))) = true ->
  finish_case rt w bucket (job_name_of w)
    (fetch_and_finish rt w bucket (job_name_of w)).
Proof.
  intros Hp. set (job := job_name_of w) in *.
  destruct (get_object w bucket (transcript_key_of job)) as [e|bytes] eqn:Hget.
  { replace (fetch_and_finish rt w bucket job)
      with (inl e : exn + pyval, [fetch_failed bucket job]).
    - by constructor.
    - unfold fetch_and_finish, fetch_transcript, invoke. by rewrite Hget. }
  destruct (fetch_transcript_got rt _ _ _ _ Hget) as [[e|t] Hf].
  { unfold fetch_and_finish. rewrite Hf. run_binds. by apply document_rejected. }
  destruct (chat_completions_create w model system_prompt t max_tokens)
    as [e|choices] eqn:Hchat.
  { unfold fetch_and_finish. rewrite Hf, bind_inr. unfold summarize, invoke.
    rewrite Hchat. run_binds. by apply chat_raised. }
  subst job. rewrite (finish_answer _ _ _ _ _ Hf Hchat).
  destruct choices as [|content choices].
  { run_binds. by eapply answer_rejected. }
  destruct (encode_summary content) as [e|body] eqn:Henc.
  { unfold save_summary. rewrite Henc. run_binds. by eapply answer_rejected. }
  unfold encode_summary in Henc. destruct content as [summary|]; [|done].
  destruct (Utf8.encode summary) as [body'|] eqn:Hbody; [|done].
  injection Henc as ->. apply encode_Some in Hbody as [Hsur ->].
  rewrite <- (finish_answer _ _ _ _ _ Hf Hchat).
  rewrite (finish_summary _ _ _ _ _ _ Hf Hchat Hsur Hp). unfold invoke.
  destruct (put_object w bucket (summary_key_of (job_name_of w)) _ text_plain)
    as [e|[]] eqn:Hput.
  - run_binds. by eapply write_raised.
  - run_binds. by eapply finished.
Qed.

Lemma fetch_and_finish_log rt w bucket job :
  exists rest,
    (fetch_and_finish rt w bucket job).2 =
    {| called := GetObject bucket (transcript_key_of job);
       returned := succeeded (get_object w bucket (transcript_key_of job)) |}
    :: rest.
Proof.
  unfold fetch_and_finish, fetch_transcript, invoke.
  destruct (get_object w bucket (transcript_key_of job)) as [e|bytes].
  - eexists. reflexivity.
  - rewrite bind_inr, !bind_prepend. unfold prepend. cbn [snd app].
    eexists. reflexivity.
Qed.

Lemma print_quiet (P : entry -> bool) args : forallb P (print args).2 = true.
Proof. by rewrite print_log. Qed.

Lemma fetch_and_finish_quiet rt w bucket job :
  forallb quiet (fetch_and_finish rt w bucket job).2 = true.
Proof.
  unfold fetch_and_finish, fetch_transcript, summarize, save_summary.
  repeat first
    [ apply print_quiet | reflexivity
    | apply bind_log; [|intros]
    | match goal with
      | |- context [match ?x with _ => _ end] => destruct x
      end ].
Qed.

Lemma after_poll_quiet rt w bucket job js :
  forallb quiet
    (check_failed js ≫= fun _ =>
     print [completed_line] ≫= fun _ => fetch_and_finish rt w bucket job).2
  = true.
Proof.
  apply bind_log; [unfold check_failed; log_steps|]. intros _.
  apply bind_log; [apply print_quiet|]. intros _.
  apply fetch_and_finish_quiet.
Qed.

(** *** Every way a run can go *)

Lemma handler_body_case rt w event :
  run_case rt w event (handler_body rt w event).
Proof.
  unfold handler_body.
  destruct (decode_event event) as [e|[bucket key]] eqn:Hd.
  { by apply not_decoded. }
  rewrite bind_eval_inr.
  destruct (printable (received_line rt bucket key)) eqn:Hr.
  2: { rewrite (print_one_not _ Hr), bind_raise. by apply not_announced. }
  rewrite (print_one _ Hr), bind_mret. unfold start_job, invoke.
  destruct (start_transcription_job w _ _ _ _ _ _) as [e|[]] eqn:Hs.
  { rewrite bind_inl. by eapply not_submitted. }
  rewrite bind_inr.
  destruct (printable (started_line (job_name_of w))) eqn:Hj.
  2: { rewrite (print_one_not _ Hj), bind_raise. unfold prepend, raise.
       cbn [fst snd app]. by apply not_started. }
  rewrite (print_one _ Hj), bind_mret.
  assert (Hsub : submitted rt w event bucket key) by done.
  destruct (poll w (job_name_of w)) as [[e|js] lp] eqn:Hp.
  { rewrite (poll_and_finish_raised _ _ _ _ _ _ Hp).
    unfold prepend. cbn [fst snd app].
    destruct (poll_loop_log w (job_name_of w) max_attempts 0 None)
      as (k & last & Hlog & Hlen & Hlast).
    fold (poll w (job_name_of w)) in Hlog. rewrite Hp in Hlog.
    cbn [snd] in Hlog. subst lp. by apply not_transcribed. }
  destruct (poll_result _ _ _ _ Hp) as [s ->].
  destruct (poll_returned_log _ _ _ _ Hp) as (k & last & -> & Hlen & Hlast).
  destruct (eq_str s FAILED) eqn:Hf.
  - rewrite (poll_and_finish_failed _ _ _ _ _ _ Hp Hf).
    unfold prepend. cbn [fst snd app].
    apply not_transcribed; [done | |].
    + destruct Hlast as [-> | ->]; unfold polls; cbn in *; lia.
    + destruct Hlast as [-> | ->]; constructor.
  - rewrite (poll_and_finish_continue _ _ _ _ _ _ Hp Hf), prepend_prepend.
    cbn [app].
    apply fetching; [| done | done |].
    + split; [done|]. by exists s.
    + apply fetch_and_finish_case. by eapply printable_saved.
Qed.

(** The log of any run: calls that are neither polls nor sleeps, then
    rounds of a poll and a sleep, then the end of the block, then calls that
    are neither polls nor sleeps. *)
Lemma handler_body_log rt w ev :
  exists before k last after,
    (handler_body rt w ev).2 =
      before ++ waiting (job_name_of w) k ++ last ++ after /\
    (k + polls last <= max_attempts)%nat /\
    poll_tail (job_name_of w) last /\
    forallb quiet (before ++ after) = true.
Proof.
  destruct (handler_body_case rt w ev)
    as [e He|bucket key Hd Hr|e bucket key Hd Hs|bucket key Hd Hj
       |e bucket key k last Hsub Hlen Hlast
       |bucket key k last m Ht Hlen Hlast Hm].
  - exists [], 0%nat, [], []. repeat split; [cbn; lia | constructor].
  - exists [], 0%nat, [], []. repeat split; [cbn; lia | constructor].
  - eexists [_], 0%nat, [], []. repeat split; [cbn; lia | constructor].
  - eexists [_], 0%nat, [], []. repeat split; [cbn; lia | constructor].
  - eexists [_], k, last, []. cbn [snd app].
    split; [by rewrite app_nil_r|]. auto.
  - eexists [_], k, last, m.2. unfold prepend. cbn [snd app].
    split; [by rewrite <- app_assoc|].
    split; [destruct Hlast as [-> | ->]; unfold polls; cbn in *; lia|].
    split; [destruct Hlast as [-> | ->]; constructor|].
    cbn [forallb]. destruct Hm; reflexivity.
Qed.

(** What a run of the whole body that returns has done. *)
Lemma handler_body_success rt w ev r log :
  handler_body rt w ev = (inr r, log) ->
  exists bucket key l_poll transcript_text summary choices,
    transcribed rt w ev bucket key l_poll /\
    transcript_read rt w bucket transcript_text /\
    chat_completions_create w model system_prompt transcript_text max_tokens
      = inr (Some summary :: choices) /\
    existsb is_surrogate summary = false /\
    r = success_record (s3_uri rt bucket (summary_key_of (job_name_of w))) /\
    log = submission rt w bucket key :: l_poll ++
          [fetched bucket (job_name_of w); summarized transcript_text;
           written bucket (job_name_of w) (Utf8.encode_all summary)].
Proof.
  intros H.
  destruct (handler_body_case rt w ev)
    as [e He|bucket key Hd Hr|e bucket key Hd Hs|bucket key Hd Hj
       |e bucket key k last Hsub Hlen Hlast
       |bucket key k last m Ht Hlen Hlast Hm]; try discriminate H.
  destruct Hm as [e ?|e ?|e t ? ?|e t choices ? ? ?|e t summary choices ? ? ? ?
                 |t summary choices Hf Hchat Hsur Hput];
    try discriminate H.
  unfold prepend in H. cbn [fst snd] in H. injection H as <- <-.
  apply fetch_transcript_inv in Hf as [Hread _].
  exists bucket, key, (waiting (job_name_of w) k ++ last), t, summary, choices.
  repeat split; try assumption; try apply Ht;
    try (cbn [app]; by rewrite <- app_assoc).
Qed.

Lemma succeeded_body rt w event result log :
  lambda_handler rt w event = (inr result, log) ->
  field result k_status = Some (PStr (lit "success")) ->
  handler_body rt w event = (inr result, log).
Proof.
  unfold lambda_handler. intros H Hst.
  apply catch_all_inr in H as [H|(e & _ & _ & ->)]; [exact H | discriminate].
Qed.

(** What a successful invocation has done: the last call is the write of
    the encoded summary, and nothing was written before. *)
Lemma success_run rt w event result log :
  lambda_handler rt w event = (inr result, log) ->
  field result k_status = Some (PStr (lit "success")) ->
  exists bucket key transcript summary choices before,
    decode_event event = inr (bucket, key) /\
    transcript_read rt w bucket transcript /\
    chat_completions_create w model system_prompt transcript max_tokens
      = inr (Some summary :: choices) /\
    existsb is_surrogate summary = false /\
    log = before ++ [written bucket (job_name_of w) (Utf8.encode_all summary)] /\
    forallb (fun e => negb (is_write e)) before = true /\
    In (submission rt w bucket key) before /\
    result = success_record (s3_uri rt bucket (summary_key_of (job_name_of w))).
Proof.
  intros Hh Hst. apply succeeded_body in Hh; [|exact Hst].
  destruct (handler_body_success _ _ _ _ _ Hh)
    as (bucket & key & lp & t & summary & choices &
        [Hsub (s & Hpoll & _)] & Hread & Hchat & Hsur & -> & ->).
  exists bucket, key, t, summary, choices.
  exists (submission rt w bucket key :: lp ++
          [fetched bucket (job_name_of w); summarized t]).
  split; [exact (proj1 Hsub)|]. split; [exact Hread|]. split; [exact Hchat|].
  split; [exact Hsur|].
  split; [cbn [app]; by rewrite <- app_assoc|].
  split; [|split; [by left | reflexivity]].
  cbn [forallb]. rewrite forallb_app. cbn [forallb].
  destruct (poll_loop_log w (job_name_of w) max_attempts 0 None)
    as (k & last & Hlog & _ & Hlast).
  fold (poll w (job_name_of w)) in Hlog. rewrite Hpoll in Hlog.
  cbn [snd] in Hlog. subst lp.
  by rewrite forallb_poll_block.
Qed.

(** What the handler does guarantee before it summarises: a poll observed
    COMPLETED, after polls that observed no terminal status, or all thirty
    polls observed no terminal status. *)
Lemma summarized_only_after rt w event :
  existsb is_summarize (lambda_handler rt w event).2 = true ->
  (exists k, (k < 30)%nat /\ pending w (job_name_of w) 0 k /\
             observed w (job_name_of w) k = inr (PStr COMPLETED)) \/
  pending w (job_name_of w) 0 30.
Proof.
  unfold lambda_handler. rewrite catch_all_log.
  destruct (handler_body_case rt w event)
    as [e He|bucket key Hd Hr|e bucket key Hd Hs|bucket key Hd Hj
       |e bucket key k last Hsub Hlen Hlast
       |bucket key k last m [Hsub (s & Hp & Hf)] Hlen Hlast Hm];
    try discriminate.
  - cbn [snd existsb is_summarize called submission orb].
    rewrite existsb_app, existsb_waiting by reflexivity.
    by destruct Hlast.
  - intros _. unfold poll in Hp.
    destruct (poll_loop_inv _ _ _ _ _ _ _ Hp)
      as [(k' & Hk & Hpend & Hobs & Ht)|[Hpend _]];
      [unfold max_attempts; lia | left | by right].
    exists k'. rewrite (terminal_not_failed _ Ht Hf) in Hobs.
    split; [exact Hk|]. split; assumption.
Qed.
(** *** The parameters of the calls *)

Lemma carries_waiting rt w bucket key k :
  Forall (carries rt w bucket key) (waiting (job_name_of w) k).
Proof. induction k as [|k IH]; repeat constructor. exact IH. Qed.

Lemma carries_tail rt w bucket key last :
  poll_tail (job_name_of w) last -> Forall (carries rt w bucket key) last.
Proof. intros []; by repeat constructor. Qed.

Lemma handler_body_carries rt w event bucket key :
  decode_event event = inr (bucket, key) ->
  Forall (carries rt w bucket key) (handler_body rt w event).2.
Proof.
  intros Hd.
  destruct (handler_body_case rt w event)
    as [e He|bucket' key' Hd' Hr|e bucket' key' Hd' Hs|bucket' key' Hd' Hj
       |e bucket' key' k last [Hd' _] Hlen Hlast
       |bucket' key' k last m [[Hd' _] _] Hlen Hlast Hm];
    try (rewrite Hd in Hd'; injection Hd' as <- <-).
  - constructor.
  - constructor.
  - repeat constructor.
  - repeat constructor.
  - cbn [snd]. constructor; [by repeat split|].
    apply Forall_app. split; [apply carries_waiting | by apply carries_tail].
  - unfold prepend. cbn [snd app]. constructor; [by repeat split|].
    rewrite <- app_assoc. apply Forall_app. split; [apply carries_waiting|].
    apply Forall_app. split; [destruct Hlast as [-> | ->]; by repeat constructor|].
    destruct Hm; cbn [snd]; by repeat constructor.
Qed.

(** *** The writes *)


(** ** The object store *)

Lemma replay_app w store l1 l2 :
  ObjectStore.replay w store (l1 ++ l2) =
  ObjectStore.replay w (ObjectStore.replay w store l1) l2.
Proof. apply foldl_app. Qed.

Lemma replay_cons w store e l :
  ObjectStore.replay w store (e :: l) =
  ObjectStore.replay w (ObjectStore.apply w store e) l.
Proof. reflexivity. Qed.

(** Polls, sleeps, reads and chat calls leave the store as it is, and so
    does a write that raised. *)
Lemma replay_inert w store l :
  forallb (fun e => negb (is_submit e) && negb (committed e)) l = true ->
  ObjectStore.replay w store l = store.
Proof.
  revert store. induction l as [|e l IH]; intros store; [reflexivity|].
  cbn [forallb]. intros [He Hl]%andb_true_iff.
  rewrite replay_cons, (IH _ Hl).
  unfold ObjectStore.apply, committed, is_write, is_submit in *.
  destruct e as [[] []]; try reflexivity; try discriminate He;
    by match goal with b : pyval |- _ => destruct b end.
Qed.

Lemma replay_waiting w store job k last :
  poll_tail job last ->
  ObjectStore.replay w store (waiting job k ++ last) = store.
Proof. intros H. apply replay_inert. by apply forallb_poll_block. Qed.

(** A call of the handler touches the transcript of the job or, if it is a
    write that returned, the summary. *)
Lemma apply_lookup rt w bucket key store e c k :
  carries rt w bucket key e ->
  k <> transcript_key_of (job_name_of w) ->
  committed e = false \/ k <> summary_key_of (job_name_of w) ->
  ObjectStore.apply w store e !! (c, k) = store !! (c, k).
Proof.
  unfold carries, ObjectStore.apply, committed, is_write.
  destruct e as [[job uri fmt lang [] out_key| | |b k'|m p u n|[] k' body ctype]
                   []];
    cbn [called returned andb]; try reflexivity.
  - intros (_ & _ & _ & _ & _ & ->) Hk _.
    destruct (get_object w _ _); [reflexivity|].
    apply lookup_insert_ne. intros [= _ H]. by apply Hk.
  - intros (_ & -> & _) _ [H|Hk]; [discriminate|].
    unfold ObjectStore.put. apply lookup_insert_ne. intros [= _ H]. by apply Hk.
Qed.


(** No key of a summary is the key of a transcript. *)
Lemma summaries_not_transcript job k :
  lit "summaries/" `prefix_of` k -> k <> transcript_key_of job.
Proof. intros [r ->]. unfold transcript_key_of. discriminate. Qed.

(** ** Percent-encoding *)

Section EncodingFacts.
Import Utf8 UrlParse.

Lemma hexdig_ascii a : is_hexdig a = true -> is_ascii a = true.
Proof.
  unfold is_hexdig, in_range, is_ascii. intros H. apply Z.ltb_lt.
  repeat (apply orb_true_iff in H as [H|H]);
    apply andb_true_iff in H as [_ H]; apply Z.leb_le in H; lia.
Qed.

Lemma hexdig_not_plus a : is_hexdig a = true -> (a =? plus) = false.
Proof.
  unfold is_hexdig, in_range, plus. intros H.
  apply Z.eqb_neq. intros ->. discriminate H.
Qed.

Lemma escape_of_ascii b e : escape_of b e -> forallb is_ascii e = true.
Proof.
  intros (x & y & -> & Hx & Hy & _). cbn [forallb].
  by rewrite (hexdig_ascii _ Hx), (hexdig_ascii _ Hy).
Qed.

Lemma escape_of_replace_plus b e : escape_of b e -> replace_plus e = e.
Proof.
  intros (x & y & -> & Hx & Hy & _). unfold replace_plus. cbn [map].
  by rewrite (hexdig_not_plus _ Hx), (hexdig_not_plus _ Hy).
Qed.

Lemma escape_of_scan b e rest :
  escape_of b e -> unquote_scan (e ++ rest) = b :: unquote_scan rest.
Proof.
  intros (x & y & -> & Hx & Hy & ->). cbn [app].
  by rewrite unquote_scan_percent, Hx, Hy.
Qed.

Lemma escapes_ascii bs esc : escapes bs esc -> forallb is_ascii esc = true.
Proof.
  induction 1 as [|b bs e esc He _ IH]; [reflexivity|].
  by rewrite forallb_app, (escape_of_ascii _ _ He), IH.
Qed.

Lemma escapes_replace_plus bs esc : escapes bs esc -> replace_plus esc = esc.
Proof.
  induction 1 as [|b bs e esc He _ IH]; [reflexivity|].
  by rewrite replace_plus_app, (escape_of_replace_plus _ _ He), IH.
Qed.

Lemma escapes_scan bs esc rest :
  escapes bs esc -> unquote_scan (esc ++ rest) = bs ++ unquote_scan rest.
Proof.
  induction 1 as [|b bs e esc He _ IH]; [reflexivity|].
  by rewrite <- app_assoc, (escape_of_scan _ _ _ He), IH.
Qed.

Lemma encodes_ascii key s : encodes key s -> forallb is_ascii key = true.
Proof.
  induction 1 as [|c key s Hc _ _ _ IH|key s _ IH|c esc key s _ _ He _ IH].
  - reflexivity.
  - cbn [forallb]. rewrite IH, andb_true_r. apply Z.ltb_lt. lia.
  - cbn [forallb]. by rewrite IH.
  - by rewrite forallb_app, (escapes_ascii _ _ He), IH.
Qed.

(** The bytes the decoder gets from an encoded key are the UTF-8 encoding
    of the string. *)
Lemma encodes_scan key s :
  encodes key s -> unquote_scan (replace_plus key) = encode_all s.
Proof.
  induction 1 as [|c key s Hc Hp Hq _ IH|key s _ IH|c esc key s _ _ He _ IH].
  - reflexivity.
  - unfold replace_plus. cbn [map]. fold (replace_plus key).
    apply Z.eqb_neq in Hp, Hq. rewrite Hq.
    rewrite unquote_scan_cons_other by exact Hp. rewrite IH.
    unfold encode_all. cbn [flat_map]. unfold encode_cp.
    destruct (Z.ltb_spec c 0x80); [reflexivity | lia].
  - unfold replace_plus. cbn [map]. fold (replace_plus key).
    rewrite unquote_scan_cons_other by reflexivity. by rewrite IH.
  - rewrite replace_plus_app, (escapes_replace_plus _ _ He).
    by rewrite (escapes_scan _ _ _ He), IH.
Qed.

Lemma encodes_well_formed key s :
  encodes key s -> Forall is_code_point s /\ existsb is_surrogate s = false.
Proof.
  induction 1 as [|c key s Hc _ _ _ [IH1 IH2]|key s _ [IH1 IH2]
                 |c esc key s Hc Hs _ _ [IH1 IH2]].
  - by split.
  - split; [constructor; [unfold is_code_point; lia | exact IH1]|].
    cbn [existsb]. rewrite IH2, orb_false_r. unfold is_surrogate.
    apply andb_false_iff. left. apply Z.leb_gt. lia.
  - split; [constructor; [unfold is_code_point, space; lia | exact IH1]|].
    cbn [existsb]. by rewrite IH2.
  - split; [by constructor|]. cbn [existsb]. by rewrite Hs, IH2.
Qed.

(** Decoding inverts every encoding. *)
Lemma unquote_plus_encodes key s : encodes key s -> unquote_plus key = s.
Proof.
  intros H. rewrite (unquote_plus_ascii _ (encodes_ascii _ _ H)).
  rewrite (encodes_scan _ _ H). unfold decode_replace.
  destruct (encodes_well_formed _ _ H) as [Hcp Hs].
  rewrite (scan_encode_all _ Hcp Hs), map_map. apply map_id.
Qed.

Lemma replace_plus_plain key :
  existsb (Z.eqb plus) key = false -> replace_plus key = key.
Proof.
  induction key as [|c key IH]; [reflexivity|].
  cbn [existsb]. intros [Hc Hk]%orb_false_iff.
  cbn [replace_plus map]. rewrite Z.eqb_sym, Hc. f_equal. by apply IH.
Qed.

End EncodingFacts.

(** ** The octets of an encoded string *)

Lemma encode_cp_octets c :
  is_code_point c ->
  Forall is_octet (Utf8.encode_cp c) /\
  (1 <= length (Utf8.encode_cp c) <= 4)%nat.
Proof.
  unfold is_code_point, is_octet, Utf8.encode_cp. intros Hc.
  destruct (Z.ltb_spec c 0x80); [|destruct (Z.ltb_spec c 0x800);
    [|destruct (Z.ltb_spec c 0x10000)]];
    (split; [repeat constructor; Z.div_mod_to_equations; lia | simpl; lia]).
Qed.

Lemma encode_all_octets s :
  Forall is_code_point s ->
  Forall is_octet (Utf8.encode_all s) /\
  (length s <= length (Utf8.encode_all s) <= 4 * length s)%nat.
Proof.
  unfold Utf8.encode_all. induction 1 as [|c s Hc _ [IH1 IH2]].
  - split; [constructor | simpl; lia].
  - destruct (encode_cp_octets c Hc) as [Ho Hl]. cbn [flat_map]. split.
    + by apply Forall_app.
    + rewrite length_app. cbn [length]. lia.
Qed.

(** ** Counting polls and sleeps *)

Lemma polls_quiet l : forallb quiet l = true -> polls l = 0%nat.
Proof.
  unfold polls. induction l as [|e l IH]; [reflexivity|].
  cbn [forallb List.filter]. intros [He Hl]%andb_true_iff.
  unfold quiet in He. apply negb_true_iff, orb_false_iff in He as [-> _].
  by apply IH.
Qed.

Lemma polls_tail job last : poll_tail job last -> (polls last <= 1)%nat.
Proof. intros []; unfold polls; simpl; lia. Qed.

Lemma sleeps_quiet l :
  forallb quiet l = true ->
  Forall (fun e => forall s, called e = Sleep s -> s = 10) l.
Proof.
  induction l as [|e l IH]; [constructor|].
  cbn [forallb]. intros [He Hl]%andb_true_iff.
  constructor; [|by apply IH].
  unfold quiet, is_sleep in He. apply negb_true_iff, orb_false_iff in He as [_ He].
  intros s Hs. rewrite Hs in He. discriminate He.
Qed.

Lemma sleeps_waiting job k :
  Forall (fun e => forall s, called e = Sleep s -> s = 10) (waiting job k).
Proof.
  induction k as [|k IH]; [constructor|]. cbn [waiting].
  constructor; [intros s; discriminate|].
  constructor; [by intros s [= <-] | exact IH].
Qed.

Lemma sleeps_tail job last :
  poll_tail job last ->
  Forall (fun e => forall s, called e = Sleep s -> s = 10) last.
Proof.
  intros []; repeat constructor; intros s; try discriminate.
  by intros [= <-].
Qed.
(** * The claims of the specification *)



(** C2.  The specification says that no summary is produced unless a poll
    observed COMPLETED.  Here every poll observes IN_PROGRESS, the thirty
    attempts are used up, and the transcript object is in the store when the
    handler fetches it: the handler summarises the transcript, writes the
    summary and reports success. *)
Theorem late_completion_is_summarized :
  (forall n, observed Scenario.world_late (job_name_of Scenario.world_late) n
             = inr (PStr IN_PROGRESS)) /\
  lambda_handler Scenario.rt Scenario.world_late Scenario.event =
    (inr (success_record
            (lit "s3://medrecs/summaries/twilio-3f2a9c1e_summary.txt")),
     submission Scenario.rt Scenario.world_late (PStr (lit "medrecs"))
       (lit "calls/visit1.wav")
     :: waiting (job_name_of Scenario.world_late) 30 ++
     [fetched (PStr (lit "medrecs")) (job_name_of Scenario.world_late);
      summarized (PStr (lit "Patient reports mild fever."));
      written (PStr (lit "medrecs")) (job_name_of Scenario.world_late)
        (lit "Patient has a mild fever.")]).
Proof. split; [intros n; reflexivity|]. vm_compute. reflexivity. Qed.

(** C3.  In every run the polls and the sleeps form one block of the log:
    [k] rounds of a poll followed by a sleep, then at most one more poll,
    which a sleep that raised may follow; the log holds at most 30 polls, and
    every sleep is of 10.  When the first terminal status (COMPLETED or
    FAILED) is observed by the poll number [k < 30], the loop makes exactly
    [k + 1] polls and [k] sleeps and returns that status; if it is COMPLETED,
    the next call of the handler is the fetch of the transcript object. *)
Theorem polling_policy rt w event :
  (exists before k last after,
     (lambda_handler rt w event).2 =
       before ++ waiting (job_name_of w) k ++ last ++ after /\
     (last = [] \/
      (exists b, last = [{| called := GetTranscriptionJob (job_name_of w);
                            returned := b |}]) \/
      last = [{| called := GetTranscriptionJob (job_name_of w);
                 returned := true |};
              {| called := Sleep 10; returned := false |}]) /\
     forallb (fun e => negb (is_poll e || is_sleep e)) (before ++ after)
       = true /\
     (polls (lambda_handler rt w event).2 <= 30)%nat /\
     Forall (fun e => forall s, called e = Sleep s -> s = 10)
       (lambda_handler rt w event).2) /\
  (forall bucket key k s,
     submitted rt w event bucket key ->
     (k < 30)%nat ->
     pending w (job_name_of w) 0 k ->
     observed w (job_name_of w) k = inr s ->
     is_terminal s = true ->
     poll w (job_name_of w) =
       (inr (Some s), waiting (job_name_of w) k ++ [polled (job_name_of w)])
     /\
     (eq_str s COMPLETED = true ->
      exists rest,
        (lambda_handler rt w event).2 =
          submission rt w bucket key :: waiting (job_name_of w) k ++
          polled (job_name_of w) ::
          {| called := GetObject bucket (transcript_key_of (job_name_of w));
             returned := succeeded (get_object w bucket
                           (transcript_key_of (job_name_of w))) |} :: rest)).
Proof.
  split.
  - destruct (handler_body_log rt w event)
      as (before & k & last & after & Hlog & Hlen & Hlast & Hq).
    exists before, k, last, after. unfold lambda_handler.
    rewrite catch_all_log, Hlog.
    split; [reflexivity|]. split; [|split; [exact Hq|]].
    { destruct Hlast as [|b|]; [by left | right; left; by exists b | by right; right]. }
    rewrite forallb_app in Hq. apply andb_true_iff in Hq as [Hb Ha].
    split.
    + rewrite !polls_app, polls_waiting.
      rewrite (polls_quiet _ Hb), (polls_quiet _ Ha).
      unfold max_attempts in Hlen. lia.
    + repeat (apply Forall_app; split);
        [by apply sleeps_quiet | apply sleeps_waiting
        | by eapply sleeps_tail | by apply sleeps_quiet].
  - intros bucket key k s Hsub Hk Hpend Hobs Hterm.
    assert (Hpoll : poll w (job_name_of w) =
              (inr (Some s),
               waiting (job_name_of w) k ++ [polled (job_name_of w)])).
    { unfold poll, max_attempts.
      replace 30%nat with (k + S (29 - k))%nat by lia.
      by apply poll_loop_terminal. }
    split; [exact Hpoll|]. intros Hc.
    assert (Hf : eq_str s FAILED = false).
    { destruct s; try reflexivity. unfold eq_str in *.
      apply bool_decide_eq_true in Hc. subst. reflexivity. }
    unfold lambda_handler. rewrite catch_all_log.
    rewrite (handler_body_submitted _ _ _ _ _ Hsub).
    rewrite (poll_and_finish_continue _ _ _ _ _ _ Hpoll Hf), prepend_prepend.
    destruct (fetch_and_finish_log rt w bucket (job_name_of w)) as [rest Hrest].
    exists rest. unfold prepend. cbn [fst snd]. rewrite Hrest.
    cbn [app]. by rewrite <- app_assoc.
Qed.

(** C4.  When the job was submitted and the first terminal status observed
    is FAILED (at the poll number [k < 30], [k = 0] being the first poll),
    the orchestrator raises [Exception("Transcription failed")], the handler
    returns [{error: "Transcription failed"}], the log holds the submission
    and the polls only (no fetch, no summarisation call, no write), and every
    object whose key starts with [summaries/] is as it was. *)
Theorem transcription_failed rt w event bucket key k :
  submitted rt w event bucket key ->
  (k < 30)%nat ->
  pending w (job_name_of w) 0 k ->
  observed w (job_name_of w) k = inr (PStr FAILED) ->
  poll_and_finish rt w bucket (job_name_of w) =
    (inl (Exception (lit "Transcription failed")),
     waiting (job_name_of w) k ++ [polled (job_name_of w)]) /\
  lambda_handler rt w event =
    (inr (error_record (lit "Transcription failed")),
     submission rt w bucket key :: waiting (job_name_of w) k ++
     [polled (job_name_of w)]) /\
  forallb (fun e => negb (is_fetch e || is_summarize e || is_write e))
    (lambda_handler rt w event).2 = true /\
  forall store container key',
    lit "summaries/" `prefix_of` key' ->
    ObjectStore.replay w store (lambda_handler rt w event).2
      !! (container, key') = store !! (container, key').
Proof.
  intros Hsub Hk Hpend Hobs.
  assert (Hpoll : poll w (job_name_of w) =
            (inr (Some (PStr FAILED)),
             waiting (job_name_of w) k ++ [polled (job_name_of w)])).
  { unfold poll, max_attempts.
    replace 30%nat with (k + S (29 - k))%nat by lia.
    by apply poll_loop_terminal. }
  assert (Hpf := poll_and_finish_failed rt w bucket _ _ _ Hpoll eq_refl).
  assert (Hh : lambda_handler rt w event =
    (inr (error_record (lit "Transcription failed")),
     submission rt w bucket key :: waiting (job_name_of w) k ++
     [polled (job_name_of w)])).
  { unfold lambda_handler.
    rewrite (handler_body_submitted _ _ _ _ _ Hsub), Hpf.
    unfold prepend. cbn [fst snd app]. by rewrite catch_all_reported. }
  split; [exact Hpf|]. split; [exact Hh|]. rewrite Hh. cbn [snd]. split.
  - cbn [forallb]. rewrite forallb_app, forallb_waiting by reflexivity.
    reflexivity.
  - intros store container key' Hpre.
    rewrite replay_cons, replay_waiting by constructor.
    apply (apply_lookup rt w bucket key); [by repeat split | | by left].
    by apply summaries_not_transcript.
Qed.

(** C5.  When the job was submitted, all thirty polls observe IN_PROGRESS
    and no sleep is interrupted, the loop ends after exactly thirty polls
    (each followed by a sleep) with IN_PROGRESS as the job status, the check
    of line 56 does not raise, and the handler goes on with the fetch of the
    transcript object: its result is whatever lines 62-95 give, not a timeout
    error of its own. *)
Theorem budget_exhausted rt w event bucket key :
  submitted rt w event bucket key ->
  (forall n, (n < 30)%nat ->
     observed w (job_name_of w) n = inr (PStr IN_PROGRESS)) ->
  (forall n, (n < 30)%nat -> sleep w n = inr tt) ->
  poll w (job_name_of w) =
    (inr (Some (PStr IN_PROGRESS)), waiting (job_name_of w) 30) /\
  check_failed (Some (PStr IN_PROGRESS)) = mret tt /\
  lambda_handler rt w event =
    catch_all rt
      (prepend (submission rt w bucket key :: waiting (job_name_of w) 30)
               (fetch_and_finish rt w bucket (job_name_of w))) /\
  exists rest,
    (lambda_handler rt w event).2 =
      submission rt w bucket key :: waiting (job_name_of w) 30 ++
      {| called := GetObject bucket (transcript_key_of (job_name_of w));
         returned := succeeded (get_object w bucket
                       (transcript_key_of (job_name_of w))) |} :: rest.
Proof.
  intros Hsub Hall Hsleep.
  assert (Hpend : pending w (job_name_of w) 0 30).
  { intros i Hi. split; [|by apply Hsleep].
    exists (PStr IN_PROGRESS). split; [by apply Hall | reflexivity]. }
  assert (Hpoll : poll w (job_name_of w) =
            (inr (Some (PStr IN_PROGRESS)), waiting (job_name_of w) 30)).
  { destruct (poll_loop_exhausted w (job_name_of w) 30 0 None)
      as (s & Hobs & _ & Heq); [exact Hpend | lia |].
    rewrite Hall in Hobs by lia. injection Hobs as <-. exact Heq. }
  assert (Hh : handler_body rt w event =
    prepend (submission rt w bucket key :: waiting (job_name_of w) 30)
            (fetch_and_finish rt w bucket (job_name_of w))).
  { rewrite (handler_body_submitted _ _ _ _ _ Hsub).
    rewrite (poll_and_finish_continue _ _ _ _ _ _ Hpoll eq_refl).
    by rewrite prepend_prepend. }
  split; [exact Hpoll|]. split; [reflexivity|]. unfold lambda_handler.
  rewrite Hh. split; [reflexivity|].
  rewrite catch_all_log.
  destruct (fetch_and_finish_log rt w bucket (job_name_of w)) as [rest Hrest].
  exists rest. unfold prepend. cbn [fst snd]. by rewrite Hrest.
Qed.

(** C6.  When the fetch is reached and the transcript document has no
    [results.transcripts[0].transcript], the Transcript Fetcher raises the
    error of the failing subscript (no default is substituted), and the
    handler returns the error record of that exception; nothing is called
    after the fetch. *)
Theorem missing_transcript rt w event bucket key s l bytes doc :
  submitted rt w event bucket key ->
  poll w (job_name_of w) = (inr (Some s), l) ->
  eq_str s FAILED = false ->
  get_object w bucket (transcript_key_of (job_name_of w)) = inr bytes ->
  json_loads rt bytes = inr doc ->
  has_transcript doc = false ->
  exists v sub,
    fetch_transcript rt w bucket (job_name_of w) =
      (inl (SubscriptError v sub), [fetched bucket (job_name_of w)]) /\
    lambda_handler rt w event =
      (inr (error_record (str_exn rt (SubscriptError v sub))),
       submission rt w bucket key :: l ++ [fetched bucket (job_name_of w)]).
Proof.
  intros Hsub Hpoll Hnf Hget Hdoc Hmiss.
  destruct (getpath_missing doc Hmiss) as (v & sub & Hpath).
  exists v, sub.
  assert (Hf : fetch_transcript rt w bucket (job_name_of w) =
            (inl (SubscriptError v sub), [fetched bucket (job_name_of w)])).
  { unfold fetch_transcript, invoke. rewrite Hget, bind_inr, Hdoc.
    rewrite bind_eval_inr, Hpath. reflexivity. }
  split; [exact Hf|]. unfold lambda_handler.
  rewrite (handler_body_submitted _ _ _ _ _ Hsub).
  rewrite (poll_and_finish_continue _ _ _ _ _ _ Hpoll Hnf), prepend_prepend.
  unfold fetch_and_finish. rewrite Hf, bind_inl.
  unfold prepend. cbn [fst snd app].
  by rewrite catch_all_reported by by apply builtin_reported.
Qed.

(** C7.  For a payload whose first record names a container and a key, the
    decoder returns that container and [unquote_plus] of that key, whatever
    the other records are.  For a key that is the URL-encoding of a string
    (escapes of the UTF-8 octets of its characters, ASCII characters other
    than the percent and plus signs possibly as they are, a space possibly
    as a plus sign) the decoded key is exactly that string.  For a key
    without a plus sign it is the percent-decoding of the key.  The key
    [a%2Bb.wav] decodes to [a+b.wav]. *)
Theorem decode_event_first_record event container key :
  names_first event container key ->
  decode_event event = inr (PStr container, UrlParse.unquote_plus key) /\
  (forall s, encodes key s -> decode_event event = inr (PStr container, s)) /\
  (existsb (Z.eqb UrlParse.plus) key = false ->
   decode_event event = inr (PStr container, UrlParse.unquote key)) /\
  UrlParse.unquote_plus (lit "a%2Bb.wav") = lit "a+b.wav".
Proof.
  intros H. pose proof (decode_event_names_first _ _ _ H) as Hd.
  split; [exact Hd|]. split; [|split; [|reflexivity]].
  - intros s Hs. by rewrite Hd, (unquote_plus_encodes _ _ Hs).
  - intros Hp. rewrite Hd. unfold UrlParse.unquote_plus.
    by rewrite replace_plus_plain.
Qed.

(** C7, as the specification states it, fails on a key with a plus sign:
    the percent-decoding of [a+b.wav] is [a+b.wav], and the decoder returns
    [a b.wav]. *)
Lemma plus_is_not_percent_decoded :
  names_first Scenario.event_plus (lit "medrecs") (lit "a+b.wav") /\
  UrlParse.unquote (lit "a+b.wav") = lit "a+b.wav" /\
  decode_event Scenario.event_plus = inr (PStr (lit "medrecs"), lit "a b.wav") /\
  decode_event Scenario.event_plus <>
    inr (PStr (lit "medrecs"), UrlParse.unquote (lit "a+b.wav")).
Proof.
  split.
  { unfold names_first, Scenario.event_plus, Scenario.event_for.
    do 5 eexists. repeat split; reflexivity. }
  split; [reflexivity|]. split; [reflexivity|]. discriminate.
Qed.

(** C8.  After a successful invocation on a container given by name, with a
    chat model that answers with strings, the object read back from the store
    under that container and the key of the summary holds bytes whose strict
    UTF-8 decoding is exactly the summary the chat model returned. *)
Theorem summary_round_trip rt w event container key result log store :
  answers_strings w ->
  decode_event event = inr (PStr container, key) ->
  lambda_handler rt w event = (inr result, log) ->
  field result k_status = Some (PStr (lit "success")) ->
  exists transcript summary choices body,
    chat_completions_create w model system_prompt transcript max_tokens
      = inr (Some summary :: choices) /\
    In (written (PStr container) (job_name_of w) body) log /\
    ObjectStore.get (ObjectStore.replay w store log) container
      (summary_key_of (job_name_of w)) = Some body /\
    Utf8.decode body = Some summary.
Proof.
  intros Hw Hd Hh Hst.
  destruct (success_run _ _ _ _ _ Hh Hst)
    as (bucket & key' & t & summary & choices & before &
        Hd' & _ & Hchat & Hsur & -> & _ & _ & _).
  rewrite Hd in Hd'. injection Hd' as <- <-.
  exists t, summary, choices, (Utf8.encode_all summary).
  split; [exact Hchat|]. split; [apply in_elt|]. split.
  - rewrite replay_app.
    unfold ObjectStore.get, ObjectStore.replay, ObjectStore.apply,
      ObjectStore.put. cbn [foldl called returned written].
    by rewrite lookup_insert_eq.
  - apply decode_encode; [|by apply encode_total].
    eapply Hw; [exact Hchat | by left].
Qed.

(** C9.  After a successful invocation, with a chat model that answers with
    strings, the last call of the log is the write of the UTF-8 encoding of
    the summary the chat model returned (octets whose strict UTF-8 decoding
    is that summary) into the container decoded from the event (the one the
    job was submitted for), under the key [summaries/{job_name}_summary.txt],
    with content type [text/plain]; nothing else was written; and the
    [summary_file] of the result is
    [s3://{container}/summaries/{job_name}_summary.txt]. *)
Theorem summary_location rt w event result log :
  answers_strings w ->
  lambda_handler rt w event = (inr result, log) ->
  field result k_status = Some (PStr (lit "success")) ->
  exists bucket key transcript summary choices before body,
    decode_event event = inr (bucket, key) /\
    chat_completions_create w model system_prompt transcript max_tokens
      = inr (Some summary :: choices) /\
    log = before ++
      [{| called := PutObject bucket
                      (lit "summaries/" ++ job_name_of w ++ lit "_summary.txt")
                      body (lit "text/plain");
          returned := true |}] /\
    Forall is_octet body /\
    Utf8.decode body = Some summary /\
    forallb (fun e => negb (is_write e)) before = true /\
    In (submission rt w bucket key) before /\
    field result k_summary_file =
      Some (PStr (lit "s3://" ++ format rt bucket ++ lit "/" ++
                  lit "summaries/" ++ job_name_of w ++ lit "_summary.txt")).
Proof.
  intros Hw Hh Hst.
  destruct (success_run _ _ _ _ _ Hh Hst)
    as (bucket & key & t & summary & choices & before &
        Hd & _ & Hchat & Hsur & -> & Hbefore & Hin & ->).
  assert (Hcp : Forall is_code_point summary)
    by (eapply Hw; [exact Hchat | by left]).
  exists bucket, key, t, summary, choices, before, (Utf8.encode_all summary).
  split; [exact Hd|]. split; [exact Hchat|]. split; [reflexivity|].
  split; [by apply encode_all_octets|].
  split; [apply decode_encode; [exact Hcp | by apply encode_total]|].
  split; [exact Hbefore|]. split; [exact Hin | reflexivity].
Qed.

(** C10.  For a key with a plus sign that is not written as an escape, the
    decoder returns the decoded text before the plus sign, a space, and the
    decoded text after it; the decoded key differs from the key of the
    event. *)
Theorem literal_plus_becomes_space event container pre post :
  names_first event container (pre ++ UrlParse.plus :: post) ->
  exists key,
    decode_event event = inr (PStr container, key) /\
    key = UrlParse.unquote_plus pre ++
          UrlParse.space :: UrlParse.unquote_plus post /\
    key <> pre ++ UrlParse.plus :: post.
Proof.
  intros H. exists (UrlParse.unquote_plus (pre ++ UrlParse.plus :: post)).
  split; [by apply decode_event_names_first|].
  split; [apply unquote_plus_split | apply unquote_plus_changes].
Qed.
(** * The scenarios as instances *)

(** Scenario 1 of the specification. *)
Example scenario1 :
  (lambda_handler Scenario.rt Scenario.world1 Scenario.event).1 =
    inr (success_record
           (lit "s3://medrecs/summaries/twilio-3f2a9c1e_summary.txt"))
  /\ ObjectStore.get
       (ObjectStore.replay Scenario.world1 ∅
          (lambda_handler Scenario.rt Scenario.world1 Scenario.event).2)
       (lit "medrecs") (lit "summaries/twilio-3f2a9c1e_summary.txt")
     = Some (lit "Patient has a mild fever.").
Proof. split; vm_compute; reflexivity. Qed.

(** Scenario 2: the handler goes on to the fetch, which fails. *)
Example scenario2 :
  lambda_handler Scenario.rt Scenario.world2 Scenario.event =
    (inr (error_record (lit "NoSuchKey")),
     submission Scenario.rt Scenario.world2 (PStr (lit "medrecs"))
       (lit "calls/visit1.wav")
     :: waiting (job_name_of Scenario.world2) 30 ++
     [{| called := GetObject (PStr (lit "medrecs"))
                     (lit "transcripts/twilio-3f2a9c1e.json");
         returned := false |}]).
Proof. vm_compute. reflexivity. Qed.

(** Scenario 3. *)
Example scenario3 :
  (lambda_handler Scenario.rt Scenario.world3 Scenario.event).1 =
    inr (error_record (lit "Transcription failed"))
  /\ ObjectStore.replay Scenario.world3 ∅
       (lambda_handler Scenario.rt Scenario.world3 Scenario.event).2 = ∅.
Proof. split; vm_compute; reflexivity. Qed.

(** A summary with a character of two octets. *)
Example scenario_accent :
  (lambda_handler Scenario.rt (Faults.answering [Some (lit "caf" ++ [0xE9])])
     Scenario.event).2 =
  submission Scenario.rt Scenario.world1 (PStr (lit "medrecs"))
    (lit "calls/visit1.wav")
  :: waiting (job_name_of Scenario.world1) 2 ++
  [polled (job_name_of Scenario.world1);
   fetched (PStr (lit "medrecs")) (job_name_of Scenario.world1);
   summarized (PStr (lit "Patient reports mild fever."));
   written (PStr (lit "medrecs")) (job_name_of Scenario.world1)
     (lit "caf" ++ [0xC3; 0xA9])].
Proof. vm_compute. reflexivity. Qed.

Lemma scenario_submitted statuses transcript :
  submitted Scenario.rt (Scenario.world statuses transcript) Scenario.event
    (PStr (lit "medrecs")) (lit "calls/visit1.wav").
Proof. repeat split. Defined.

Lemma scenario1_answers_strings : answers_strings Scenario.world1.
Proof.
  intros m p u n choices summary [= <-] [[= <-]|[]].
  repeat constructor; unfold is_code_point; lia.
Defined.

Lemma accent_answers_strings :
  answers_strings (Faults.answering [Some (lit "caf" ++ [0xE9])]).
Proof.
  intros m p u n choices summary [= <-] [[= <-]|[]].
  repeat constructor; unfold is_code_point; lia.
Defined.

Lemma scenario1_pending :
  pending Scenario.world1 (job_name_of Scenario.world1) 0 2.
Proof.
  intros i Hi. split; [|reflexivity]. exists (PStr IN_PROGRESS).
  destruct i as [|[|i]]; [split; reflexivity .. | lia].
Defined.

Lemma polling_policy_witness :
  pending Scenario.world1 (job_name_of Scenario.world1) 0 2 /\
  observed Scenario.world1 (job_name_of Scenario.world1) 2
    = inr (PStr COMPLETED) /\
  poll Scenario.world1 (job_name_of Scenario.world1) =
    (inr (Some (PStr COMPLETED)),
     waiting (job_name_of Scenario.world1) 2 ++
     [polled (job_name_of Scenario.world1)]).
Proof.
  split; [exact scenario1_pending|]. split; [reflexivity|].
  refine (proj1 (proj2 (polling_policy Scenario.rt Scenario.world1
                          Scenario.event)
                   (PStr (lit "medrecs")) (lit "calls/visit1.wav") 2%nat
                   (PStr COMPLETED) (scenario_submitted _ _) _
                   scenario1_pending eq_refl eq_refl)).
  lia.
Defined.

Lemma transcription_failed_witness :
  observed Scenario.world3 (job_name_of Scenario.world3) 0
    = inr (PStr FAILED) /\
  lambda_handler Scenario.rt Scenario.world3 Scenario.event =
    (inr (error_record (lit "Transcription failed")),
     [submission Scenario.rt Scenario.world3 (PStr (lit "medrecs"))
        (lit "calls/visit1.wav");
      polled (job_name_of Scenario.world3)]).
Proof.
  split; [reflexivity|].
  refine (proj1 (proj2 (transcription_failed Scenario.rt Scenario.world3
            Scenario.event (PStr (lit "medrecs")) (lit "calls/visit1.wav")
            0%nat (scenario_submitted _ _) _ _ eq_refl))).
  - lia.
  - intros i Hi. lia.
Defined.

Lemma budget_exhausted_witness :
  (forall n, (n < 30)%nat ->
     observed Scenario.world2 (job_name_of Scenario.world2) n
     = inr (PStr IN_PROGRESS)) /\
  poll Scenario.world2 (job_name_of Scenario.world2) =
    (inr (Some (PStr IN_PROGRESS)),
     waiting (job_name_of Scenario.world2) 30).
Proof.
  assert (H : forall n, (n < 30)%nat ->
            observed Scenario.world2 (job_name_of Scenario.world2) n
            = inr (PStr IN_PROGRESS)) by reflexivity.
  split; [exact H|].
  exact (proj1 (budget_exhausted Scenario.rt Scenario.world2 Scenario.event
                  (PStr (lit "medrecs")) (lit "calls/visit1.wav")
                  (scenario_submitted _ _) H (fun _ _ => eq_refl))).
Defined.

Lemma missing_transcript_witness :
  has_transcript (PDict []) = false /\
  exists v sub,
    fetch_transcript Scenario.rt_empty Scenario.world1 (PStr (lit "medrecs"))
      (job_name_of Scenario.world1) =
      (inl (SubscriptError v sub),
       [fetched (PStr (lit "medrecs")) (job_name_of Scenario.world1)]) /\
    lambda_handler Scenario.rt_empty Scenario.world1 Scenario.event =
      (inr (error_record (str_exn Scenario.rt_empty (SubscriptError v sub))),
       submission Scenario.rt_empty Scenario.world1 (PStr (lit "medrecs"))
         (lit "calls/visit1.wav")
       :: (waiting (job_name_of Scenario.world1) 2 ++
           [polled (job_name_of Scenario.world1)])
       ++ [fetched (PStr (lit "medrecs")) (job_name_of Scenario.world1)]).
Proof.
  split; [reflexivity|].
  refine (missing_transcript Scenario.rt_empty Scenario.world1 Scenario.event
            (PStr (lit "medrecs")) (lit "calls/visit1.wav")
            (PStr COMPLETED) _ Scenario.transcript_document (PDict [])
            _ _ eq_refl eq_refl eq_refl eq_refl).
  - repeat split.
  - reflexivity.
Defined.

Lemma cafe_names_first :
  names_first Faults.event_cafe (lit "medrecs") Faults.key_cafe.
Proof.
  unfold names_first, Faults.event_cafe, Scenario.event_for.
  do 5 eexists. repeat split; reflexivity.
Defined.

Lemma cafe_encodes : encodes Faults.key_cafe (lit "my caf" ++ [0xE9]).
Proof.
  change (encodes ([109; 121; 43; 99; 97; 102] ++ [37; 67; 51; 37; 97; 57])
                  [109; 121; 32; 99; 97; 102; 233]).
  cbn [app].
  apply encodes_literal; [lia | discriminate | discriminate |].
  apply encodes_literal; [lia | discriminate | discriminate |].
  apply encodes_plus.
  apply encodes_literal; [lia | discriminate | discriminate |].
  apply encodes_literal; [lia | discriminate | discriminate |].
  apply encodes_literal; [lia | discriminate | discriminate |].
  apply (encodes_escaped 233 [37; 67; 51; 37; 97; 57] [] []);
    [unfold is_code_point; lia | reflexivity | | constructor].
  apply (escapes_cons 195 [169] [37; 67; 51] [37; 97; 57]);
    [by exists 67, 51|].
  apply (escapes_cons 169 [] [37; 97; 57] []); [by exists 97, 57|].
  constructor.
Qed.

Lemma decode_event_first_record_witness :
  decode_event Faults.event_cafe =
    inr (PStr (lit "medrecs"), lit "my caf" ++ [0xE9]) /\
  UrlParse.unquote_plus (lit "a%2Bb.wav") = lit "a+b.wav".
Proof.
  split.
  - exact (proj1 (proj2 (decode_event_first_record _ _ _ cafe_names_first))
             _ cafe_encodes).
  - exact (proj2 (proj2 (proj2
             (decode_event_first_record _ _ _ cafe_names_first)))).
Defined.

Lemma summary_round_trip_witness :
  exists transcript summary choices body,
    chat_completions_create Scenario.world1 model system_prompt transcript
      max_tokens = inr (Some summary :: choices) /\
    In (written (PStr (lit "medrecs")) (job_name_of Scenario.world1) body)
       (lambda_handler Scenario.rt Scenario.world1 Scenario.event).2 /\
    ObjectStore.get
      (ObjectStore.replay Scenario.world1 ∅
         (lambda_handler Scenario.rt Scenario.world1 Scenario.event).2)
      (lit "medrecs") (summary_key_of (job_name_of Scenario.world1))
      = Some body /\
    Utf8.decode body = Some summary.
Proof.
  exact (summary_round_trip Scenario.rt Scenario.world1 Scenario.event
           (lit "medrecs") (lit "calls/visit1.wav") _ _ ∅
           scenario1_answers_strings eq_refl eq_refl eq_refl).
Defined.

Lemma summary_location_witness :
  exists bucket key transcript summary choices before body,
    decode_event Scenario.event = inr (bucket, key) /\
    chat_completions_create (Faults.answering [Some (lit "caf" ++ [0xE9])])
      model system_prompt transcript max_tokens
      = inr (Some summary :: choices) /\
    (lambda_handler Scenario.rt (Faults.answering [Some (lit "caf" ++ [0xE9])])
       Scenario.event).2 = before ++
      [{| called := PutObject bucket
                      (lit "summaries/" ++ job_name_of Scenario.world1
                       ++ lit "_summary.txt")
                      body (lit "text/plain");
          returned := true |}] /\
    Forall is_octet body /\
    Utf8.decode body = Some summary /\
    forallb (fun e => negb (is_write e)) before = true /\
    In (submission Scenario.rt Scenario.world1 bucket key) before /\
    field (success_record
             (lit "s3://medrecs/summaries/twilio-3f2a9c1e_summary.txt"))
      k_summary_file =
      Some (PStr (lit "s3://" ++ format Scenario.rt bucket ++ lit "/" ++
                  lit "summaries/" ++ job_name_of Scenario.world1
                  ++ lit "_summary.txt")).
Proof.
  exact (summary_location Scenario.rt
           (Faults.answering [Some (lit "caf" ++ [0xE9])]) Scenario.event _ _
           accent_answers_strings eq_refl eq_refl).
Defined.

Lemma literal_plus_becomes_space_witness :
  names_first Scenario.event_plus (lit "medrecs")
    (lit "a" ++ UrlParse.plus :: lit "b.wav") /\
  exists key,
    decode_event Scenario.event_plus = inr (PStr (lit "medrecs"), key) /\
    key = lit "a b.wav" /\ key <> lit "a+b.wav".
Proof.
  assert (H : names_first Scenario.event_plus (lit "medrecs")
                (lit "a" ++ UrlParse.plus :: lit "b.wav")).
  { unfold names_first, Scenario.event_plus, Scenario.event_for.
    do 5 eexists. repeat split; reflexivity. }
  split; [exact H|].
  exact (literal_plus_becomes_space _ _ _ _ H).
Defined.
(** * Further properties of the handler *)

(** ** The decoder *)

Lemma getitem_key_inv v k x : getitem v (Key k) = inr x -> field v k = Some x.
Proof.
  destruct v; try discriminate. simpl.
  destruct (dict_get d k); [by intros [= ->] | discriminate].
Qed.

Lemma getpath_cons_inv v sub subs x :
  getpath v (sub :: subs) = inr x ->
  exists y, getitem v sub = inr y /\ getpath y subs = inr x.
Proof.
  rewrite getpath_cons. destruct (getitem v sub) as [e|y]; [discriminate|].
  eauto.
Qed.

Lemma getitem_first_inv v x k y :
  getitem v (Index 0) = inr x -> getitem x (Key k) = inr y ->
  exists others, v = PList (x :: others).
Proof.
  destruct v as [| | | |s|l|d]; try discriminate.
  - destruct s as [|c s]; [discriminate|]. intros [= <-]. discriminate.
  - destruct l as [|x' l]; [discriminate|]. intros [= <-] _. eauto.
Qed.

(** When the decoder returns: the first record has a container name, of
    any type, and a key that is a string. *)
Lemma decode_event_iff event bucket key :
  decode_event event = inr (bucket, key) <->
  exists record others s3 b o k,
    field event k_Records = Some (PList (record :: others)) /\
    field record k_s3 = Some s3 /\
    field s3 k_bucket = Some b /\
    field b k_name = Some bucket /\
    field s3 k_object = Some o /\
    field o k_key = Some (PStr k) /\
    key = UrlParse.unquote_plus k.
Proof.
  split.
  - unfold decode_event.
    destruct (getpath event _) as [e|bucket'] eqn:Hb; [discriminate|].
    destruct (getpath event [_; _; _; Key k_object; _]) as [e|kv] eqn:Hk;
      [discriminate|].
    destruct kv as [| | | |k| |]; try discriminate.
    intros [= <- <-].
    apply getpath_cons_inv in Hb as (recs & HR & Hb).
    apply getpath_cons_inv in Hb as (record & H0 & Hb).
    apply getpath_cons_inv in Hb as (s3 & Hs3 & Hb).
    apply getpath_cons_inv in Hb as (b & Hbk & Hb).
    apply getpath_cons_inv in Hb as (n & Hn & [= ->]).
    apply getpath_cons_inv in Hk as (recs' & HR' & Hk).
    rewrite HR in HR'. injection HR' as <-.
    apply getpath_cons_inv in Hk as (record' & H0' & Hk).
    rewrite H0 in H0'. injection H0' as <-.
    apply getpath_cons_inv in Hk as (s3' & Hs3' & Hk).
    rewrite Hs3 in Hs3'. injection Hs3' as <-.
    apply getpath_cons_inv in Hk as (o & Ho & Hk).
    apply getpath_cons_inv in Hk as (k' & Hkk & [= ->]).
    destruct (getitem_first_inv _ _ _ _ H0 Hs3) as [others ->].
    exists record, others, s3, b, o, k.
    repeat split; by apply getitem_key_inv.
  - intros (record & others & s3 & b & o & k & HR & Hs3 & Hb & Hn & Ho & Hk & ->).
    unfold decode_event.
    rewrite !(getpath_field _ _ _ _ HR).
    rewrite !(getpath_step (PList (record :: others)) (Index 0) _ record eq_refl).
    rewrite !(getpath_field _ _ _ _ Hs3).
    rewrite (getpath_field _ _ _ _ Hb), (getpath_field _ _ _ _ Hn).
    rewrite (getpath_field _ _ _ _ Ho), (getpath_field _ _ _ _ Hk).
    reflexivity.
Qed.

(** X1.  The decoder returns a pair exactly when the event has a
    [Records] list whose first item has [s3.bucket.name], of any type, and
    [s3.object.key], a string; the pair is that name and [unquote_plus] of
    that key.  The name is not checked to be a string. *)
Theorem decode_event_spec event bucket key :
  decode_event event = inr (bucket, key) <->
  exists record others s3 b o k,
    field event k_Records = Some (PList (record :: others)) /\
    field record k_s3 = Some s3 /\
    field s3 k_bucket = Some b /\
    field b k_name = Some bucket /\
    field s3 k_object = Some o /\
    field o k_key = Some (PStr k) /\
    key = UrlParse.unquote_plus k.
Proof. apply decode_event_iff. Qed.

(** X2.  On an event that lacks a first record with a container name and
    a string key, the handler returns the error record of the exception the
    decoder raised and calls no collaborator. *)
Theorem malformed_event rt w event :
  ~ (exists record others s3 b name o k,
       field event k_Records = Some (PList (record :: others)) /\
       field record k_s3 = Some s3 /\
       field s3 k_bucket = Some b /\
       field b k_name = Some name /\
       field s3 k_object = Some o /\
       field o k_key = Some (PStr k)) ->
  exists e,
    decode_event event = inl e /\
    lambda_handler rt w event = (inr (error_record (str_exn rt e)), []).
Proof.
  intros Hno. destruct (decode_event event) as [e|[bucket key]] eqn:Hd.
  - exists e. split; [reflexivity|].
    unfold lambda_handler, handler_body. rewrite Hd, bind_eval_inl.
    apply catch_all_reported, builtin_reported.
    by eapply decode_event_builtin.
  - destruct Hno. apply decode_event_iff in Hd
      as (record & others & s3 & b & o & k & H1 & H2 & H3 & H4 & H5 & H6 & _).
    by exists record, others, s3, b, bucket, o, k.
Qed.

(** X3.  A key that is present but is not a string (a number, null, a list)
    makes [unquote_plus] raise the missing [replace] method, once the
    container name has been read. *)
Theorem key_not_a_string event record others s3 b name o v :
  field event k_Records = Some (PList (record :: others)) ->
  field record k_s3 = Some s3 ->
  field s3 k_bucket = Some b ->
  field b k_name = Some name ->
  field s3 k_object = Some o ->
  field o k_key = Some v ->
  (forall k, v <> PStr k) ->
  decode_event event = inl (AttributeError v (lit "replace")).
Proof.
  intros HR Hs3 Hb Hn Ho Hk Hv. unfold decode_event.
  rewrite !(getpath_field _ _ _ _ HR).
  rewrite !(getpath_step (PList (record :: others)) (Index 0) _ record eq_refl).
  rewrite !(getpath_field _ _ _ _ Hs3).
  rewrite (getpath_field _ _ _ _ Hb), (getpath_field _ _ _ _ Hn).
  rewrite (getpath_field _ _ _ _ Ho), (getpath_field _ _ _ _ Hk).
  cbn [getpath]. destruct v; try reflexivity. by destruct (Hv s).
Qed.

(** ** [unquote_plus] on the key *)

Section KeyFacts.
Import Utf8 UrlParse.

(** X4.  A key with neither a percent sign nor a plus sign is returned as
    it is. *)
Theorem plain_key_unchanged event container key :
  names_first event container key ->
  existsb (Z.eqb percent) key = false ->
  existsb (Z.eqb plus) key = false ->
  decode_event event = inr (PStr container, key).
Proof.
  intros H Hp Hplus. rewrite (decode_event_names_first _ _ _ H).
  unfold unquote_plus. rewrite replace_plus_plain by assumption.
  unfold unquote. by rewrite Hp.
Qed.

(** X5.  On an ASCII key the decoder computes: every plus sign becomes a
    space, every percent sign followed by two hexadecimal digits becomes the
    byte they write, any other percent sign stays, and the bytes are decoded
    as UTF-8 with the replacement character for what is not UTF-8. *)
Theorem ascii_key_decoding event container key :
  names_first event container key ->
  forallb is_ascii key = true ->
  decode_event event =
    inr (PStr container,
         decode_replace (unquote_scan (replace_plus key))).
Proof.
  intros H Ha. rewrite (decode_event_names_first _ _ _ H).
  by rewrite unquote_plus_ascii.
Qed.

Lemma length_replace_plus key : length (replace_plus key) = length key.
Proof. apply length_map. Qed.

(** X6.  The decoded key is never longer than the key of the event, and
    when it is as long it is the key with its plus signs turned into
    spaces. *)
Theorem decoded_key_not_longer event container key :
  names_first event container key ->
  exists decoded,
    decode_event event = inr (PStr container, decoded) /\
    (length decoded <= length key)%nat /\
    (length decoded = length key -> decoded = replace_plus key).
Proof.
  intros H. exists (unquote_plus key).
  split; [by apply decode_event_names_first|]. unfold unquote_plus.
  destruct (unquote_shrinks (replace_plus key)) as [->|Hlt].
  - rewrite length_replace_plus. split; [lia | done].
  - rewrite length_replace_plus in Hlt. split; lia.
Qed.

(** *** The decoded key is a well-formed string *)

Ltac split_tests :=
  repeat match goal with
  | |- context [?a <? ?b] => destruct (Z.ltb_spec a b)
  | |- context [?a <=? ?b] => destruct (Z.leb_spec a b)
  | |- context [?a =? ?b] => destruct (Z.eqb_spec a b)
  end; cbn [andb orb negb].

Lemma is_scalar_intro c :
  0 <= c <= 0x10FFFF -> (c < 0xD800 \/ 0xDFFF < c) -> is_scalar c.
Proof.
  intros Hc Hs. split; [exact Hc|]. unfold is_surrogate.
  destruct Hs; [apply andb_false_iff; left | apply andb_false_iff; right];
    apply Z.leb_gt; lia.
Qed.

(** Whatever the bytes, what the decoder accepts is a code point that is
    not a surrogate. *)
Lemma scan_scalar : forall n bs, (length bs <= n)%nat ->
  Forall (fun b => 0 <= b) bs -> Forall scalar_or_error (scan bs).
Proof.
  induction n as [|n IH]; intros bs Hn Hbs.
  - destruct bs; [constructor | simpl in Hn; lia].
  - destruct bs as [|b0 r0]; [constructor|].
    apply Forall_cons in Hbs as [H0 Hr0].
    assert (IH0 := IH r0). rewrite scan_cons.
    destruct r0 as [|b1 r1].
    { split_tests; repeat constructor; apply is_scalar_intro; lia. }
    pose proof Hr0 as Hr0'. apply Forall_cons in Hr0' as [H1 Hr1].
    assert (IH1 := IH r1).
    destruct r1 as [|b2 r2].
    { unfold bad_second3, bad_second4, is_cont, cp2. split_tests;
        repeat (constructor; simpl);
        try (apply is_scalar_intro; lia);
        try (apply IH0; [simpl in *; lia | assumption]);
        try (apply IH1; [simpl in *; lia | assumption]). }
    pose proof Hr1 as Hr1'. apply Forall_cons in Hr1' as [H2 Hr2].
    assert (IH2 := IH r2).
    destruct r2 as [|b3 r3].
    { unfold bad_second3, bad_second4, is_cont, cp2, cp3. split_tests;
        repeat (constructor; simpl);
        try (apply is_scalar_intro; lia);
        try (apply IH0; [simpl in *; lia | assumption]);
        try (apply IH1; [simpl in *; lia | assumption]);
        try (apply IH2; [simpl in *; lia | assumption]). }
    pose proof Hr2 as Hr2'. apply Forall_cons in Hr2' as [H3 Hr3].
    assert (IH3 := IH r3).
    unfold bad_second3, bad_second4, is_cont, cp2, cp3, cp4. split_tests;
      constructor; simpl;
      try (apply is_scalar_intro; lia); try exact I;
      try (apply IH0; [simpl in *; lia | assumption]);
      try (apply IH1; [simpl in *; lia | assumption]);
      try (apply IH2; [simpl in *; lia | assumption]);
      try (apply IH3; [simpl in *; lia | assumption]).
Qed.

Lemma decode_replace_scalar bs :
  Forall (fun b => 0 <= b) bs -> Forall is_scalar (decode_replace bs).
Proof.
  intros H. unfold decode_replace.
  pose proof (scan_scalar (length bs) bs (le_n _) H) as Hs.
  induction Hs as [|o l Ho _ IH]; [constructor|].
  cbn [map]. constructor; [|exact IH].
  destruct o as [c|]; [exact Ho|].
  apply is_scalar_intro; simpl; unfold replacement_character; lia.
Qed.

Lemma hexval_nonneg a : is_hexdig a = true -> 0 <= hexval a <= 15.
Proof.
  unfold is_hexdig, hexval, in_range.
  destruct (Z.leb_spec 48 a), (Z.leb_spec a 57), (Z.leb_spec 65 a),
    (Z.leb_spec a 70), (Z.leb_spec 97 a), (Z.leb_spec a 102);
    cbn [andb orb]; intros; try discriminate; lia.
Qed.

(** Unquoting an ASCII run gives octets. *)
Lemma unquote_scan_octets : forall n s, (length s <= n)%nat ->
  Forall (fun c => 0 <= c < 128) s -> Forall is_octet (unquote_scan s).
Proof.
  induction n as [|n IH]; intros s Hn Hs.
  - destruct s; [constructor | simpl in Hn; lia].
  - destruct s as [|c r]; [constructor|].
    apply Forall_cons in Hs as [Hc Hr].
    destruct (c =? percent) eqn:Hcp.
    + apply Z.eqb_eq in Hcp as ->. rewrite unquote_scan_percent.
      assert (Hpct : is_octet percent) by (unfold is_octet, percent; lia).
      destruct r as [|a [|b r']];
        try (constructor; [exact Hpct | apply IH; [simpl in *; lia | done]]).
      destruct (is_hexdig a && is_hexdig b) eqn:Hh.
      * apply andb_true_iff in Hh as [Ha Hb].
        apply hexval_nonneg in Ha, Hb.
        apply Forall_cons in Hr as [_ Hr]. apply Forall_cons in Hr as [_ Hr].
        constructor; [unfold is_octet; lia|].
        apply IH; [simpl in *; lia | done].
      * constructor; [exact Hpct | apply IH; [simpl in *; lia | done]].
    + rewrite unquote_scan_cons_other by assumption.
      constructor; [unfold is_octet; lia | apply IH; [simpl in *; lia | done]].
Qed.

Lemma unquote_run_scalar run :
  Forall (fun c => 0 <= c < 128) run -> Forall is_scalar (unquote_run run).
Proof.
  intros H. unfold unquote_run. rewrite unquote_to_bytes_scan.
  apply decode_replace_scalar.
  eapply Forall_impl; [apply (unquote_scan_octets (length run) run); done|].
  unfold is_octet. intros; simpl in *; lia.
Qed.

Lemma unquote_parts_scalar s : forall run,
  Forall is_scalar s -> Forall (fun c => 0 <= c < 128) run ->
  Forall is_scalar (unquote_parts run s).
Proof.
  induction s as [|c s IH]; intros run Hs Hrun.
  - rewrite unquote_parts_nil. by apply unquote_run_scalar.
  - apply Forall_cons in Hs as [Hc Hs]. rewrite unquote_parts_cons.
    destruct (is_ascii c) eqn:Ha.
    + apply IH; [exact Hs|]. apply Forall_app. split; [exact Hrun|].
      constructor; [|constructor]. unfold is_ascii in Ha.
      apply Z.ltb_lt in Ha. destruct Hc as [[? ?] _]. lia.
    + apply Forall_app. split; [by apply unquote_run_scalar|].
      constructor; [exact Hc|]. apply IH; [exact Hs | constructor].
Qed.

(** X7.  If the key of the event is a well-formed string (code points that
    are not surrogates), so is the decoded key, whatever the escapes: it can
    always be encoded as UTF-8. *)
Theorem decoded_key_well_formed event container key :
  names_first event container key ->
  Forall is_scalar key ->
  exists decoded,
    decode_event event = inr (PStr container, decoded) /\
    Forall is_scalar decoded /\
    Utf8.encode decoded = Some (Utf8.encode_all decoded).
Proof.
  intros H Hk. exists (unquote_plus key).
  split; [by apply decode_event_names_first|].
  assert (Hd : Forall is_scalar (unquote_plus key)).
  { unfold unquote_plus. rewrite unquote_loop.
    apply unquote_parts_scalar; [|constructor].
    unfold replace_plus. rewrite Forall_map.
    eapply Forall_impl; [exact Hk|]. intros c Hc. simpl.
    destruct (c =? plus); [|exact Hc].
    apply is_scalar_intro; unfold space; lia. }
  split; [exact Hd|]. apply encode_total.
  apply not_true_is_false. intros Hex.
  apply existsb_exists in Hex as (c & Hin & Hc).
  apply list_elem_of_In in Hin. rewrite Forall_forall in Hd.
  destruct (Hd c Hin) as [_ Hns]. congruence.
Qed.

(** ** The media format *)

Lemma split_plain sep s :
  existsb (Z.eqb sep) s = false -> split sep s = (s, []).
Proof.
  induction s as [|c s IH]; [reflexivity|].
  cbn [existsb]. intros [Hc Hs]%orb_false_iff.
  rewrite split_cons, Z.eqb_sym, Hc, IH by assumption. reflexivity.
Qed.

Lemma last_cons_default {A} (x : A) l d : List.last (x :: l) d = List.last l x.
Proof.
  revert x d. induction l as [|y l IH]; intros x d; [reflexivity|].
  change (List.last (x :: y :: l) d) with (List.last (y :: l) d).
  by rewrite !IH.
Qed.

(** The last piece of a string is what follows its last separator. *)
Lemma split_last sep stem ext :
  existsb (Z.eqb sep) ext = false ->
  List.last (split sep (stem ++ sep :: ext)).2
            (split sep (stem ++ sep :: ext)).1 = ext
  /\ (split sep (stem ++ sep :: ext)).2 <> [].
Proof.
  intros He. induction stem as [|c stem [IH1 IH2]].
  - cbn [app]. rewrite split_cons, Z.eqb_refl, split_plain by assumption.
    split; [reflexivity | discriminate].
  - cbn [app]. rewrite split_cons.
    destruct (split sep (stem ++ sep :: ext)) as [h t]. cbn [fst snd] in *.
    destruct (c =? sep); cbn [fst snd].
    + split; [|discriminate]. by rewrite last_cons_default.
    + split; [|exact IH2]. destruct t as [|x t]; [done|].
      rewrite last_cons_default in *. exact IH1.
Qed.

(** X8.  The media format is the lower-cased text after the last dot of the
    decoded key; for a key without a dot it is the whole lower-cased key. *)
Theorem media_format_is_extension rt stem ext key :
  existsb (Z.eqb 46) ext = false ->
  existsb (Z.eqb 46) key = false ->
  media_format_of rt (stem ++ 46 :: ext) = str_lower rt ext /\
  media_format_of rt key = str_lower rt key.
Proof.
  intros He Hk. unfold media_format_of. split.
  - destruct (split_last 46 stem ext He) as [Hl _].
    destruct (split 46 (stem ++ 46 :: ext)) as [h t]. by rewrite <- Hl.
  - by rewrite split_plain.
Qed.

End KeyFacts.

(** ** Failures before the transcript *)

Lemma handler_body_decoded rt w event bucket key :
  decode_event event = inr (bucket, key) ->
  handler_body rt w event =
  (_ ← print [received_line rt bucket key];
   _ ← start_job rt w bucket key (job_name_of w);
   _ ← print [started_line (job_name_of w)];
   poll_and_finish rt w bucket (job_name_of w)).
Proof. intros Hd. unfold handler_body. by rewrite Hd, bind_eval_inr. Qed.

Lemma transcribed_run rt w event bucket key l :
  transcribed rt w event bucket key l ->
  handler_body rt w event =
  prepend (submission rt w bucket key :: l)
          (fetch_and_finish rt w bucket (job_name_of w)).
Proof.
  intros [Hsub (s & Hp & Hf)].
  rewrite (handler_body_submitted _ _ _ _ _ Hsub).
  by rewrite (poll_and_finish_continue _ _ _ _ _ _ Hp Hf), prepend_prepend.
Qed.

Lemma transcribed_handler rt w event bucket key l :
  transcribed rt w event bucket key l ->
  lambda_handler rt w event =
  prepend (submission rt w bucket key :: l)
          (catch_all rt (fetch_and_finish rt w bucket (job_name_of w))).
Proof.
  intros H. unfold lambda_handler.
  by rewrite (transcribed_run _ _ _ _ _ _ H), catch_all_prepend.
Qed.

Lemma transcribed_saved rt w event bucket key l :
  transcribed rt w event bucket key l ->
  printable (saved_line rt bucket (summary_key_of (job_name_of w))) = true.
Proof. intros [(_ & Hr & _ & Hj) _]. by eapply printable_saved. Qed.

(** X9.  If the location of the audio can be printed and the submission of
    the job raises an [Exception] whose message can be printed, the handler
    returns the error record of that exception; the only call made is the
    submission, with the URI [s3://{bucket}/{key}], the language [en-US] and
    the output key [transcripts/{job}.json] in the same container. *)
Theorem submission_refused rt w event bucket key e :
  decode_event event = inr (bucket, key) ->
  printable (received_line rt bucket key) = true ->
  start_transcription_job w (job_name_of w) (s3_uri rt bucket key)
    (media_format_of rt key) language_code bucket
    (transcript_key_of (job_name_of w)) = inl e ->
  reported rt e = true ->
  lambda_handler rt w event =
    (inr (error_record (str_exn rt e)),
     [{| called := StartTranscriptionJob (job_name_of w)
                     (lit "s3://" ++ format rt bucket ++ lit "/" ++ key)
                     (media_format_of rt key) (lit "en-US") bucket
                     (lit "transcripts/" ++ job_name_of w ++ lit ".json");
         returned := false |}]).
Proof.
  intros Hd Hr Hs He. unfold lambda_handler.
  rewrite (handler_body_decoded _ _ _ _ _ Hd), (print_one _ Hr), bind_mret.
  unfold start_job, invoke. rewrite Hs, bind_inl.
  by rewrite catch_all_reported.
Qed.

(** X10.  If the poll number [k < 30] raises an [Exception] whose message
    can be printed, or its answer lacks the status, after [k] polls without
    a terminal status, the handler returns the error record of that
    exception and stops: [k] rounds of a poll and a sleep, the failing poll,
    and nothing else. *)
Theorem poll_raises rt w event bucket key k e :
  submitted rt w event bucket key ->
  (k < 30)%nat ->
  pending w (job_name_of w) 0 k ->
  observed w (job_name_of w) k = inl e ->
  reported rt e = true ->
  lambda_handler rt w event =
    (inr (error_record (str_exn rt e)),
     submission rt w bucket key :: waiting (job_name_of w) k ++
     [{| called := GetTranscriptionJob (job_name_of w);
         returned := succeeded
                       (get_transcription_job w k (job_name_of w)) |}]).
Proof.
  intros Hsub Hk Hp Hobs He. unfold lambda_handler.
  rewrite (handler_body_submitted _ _ _ _ _ Hsub).
  assert (Hpoll : poll w (job_name_of w) =
    (inl e, waiting (job_name_of w) k ++
       [{| called := GetTranscriptionJob (job_name_of w);
           returned := succeeded
                         (get_transcription_job w k (job_name_of w)) |}])).
  { unfold poll.
    replace max_attempts with (k + S (29 - k))%nat by (unfold max_attempts; lia).
    by rewrite (poll_loop_raises _ _ _ _ _ _ _ Hp Hobs). }
  rewrite (poll_and_finish_raised _ _ _ _ _ _ Hpoll).
  unfold prepend. cbn [fst snd app]. by rewrite catch_all_reported.
Qed.


(** ** The time spent waiting *)

Lemma total_sleep_app l1 l2 :
  total_sleep (l1 ++ l2) = total_sleep l1 + total_sleep l2.
Proof.
  unfold total_sleep. induction l1 as [|e l1 IH]; [simpl; lia|].
  cbn [app foldr]. rewrite IH. destruct (called e); lia.
Qed.

Lemma total_sleep_waiting job k :
  total_sleep (waiting job k) = 10 * Z.of_nat k.
Proof.
  induction k as [|k IH]; [reflexivity|].
  change (total_sleep (waiting job (S k)))
    with (10 + total_sleep (waiting job k)). lia.
Qed.

Lemma total_sleep_quiet l : forallb quiet l = true -> total_sleep l = 0.
Proof.
  induction l as [|e l IH]; [reflexivity|].
  cbn [forallb]. intros [He Hl]%andb_true_iff.
  unfold total_sleep in *. cbn [foldr]. rewrite (IH Hl).
  unfold quiet, is_poll, is_sleep in He. by destruct (called e).
Qed.


(** X12.  When the job was submitted and the poll number [k] is the first
    to observe a terminal status, the handler has slept [10 * k]; when none
    of the thirty polls observes one, it has slept 300: the last poll too is
    followed by a sleep. *)
Theorem sleep_exact rt w event bucket key :
  submitted rt w event bucket key ->
  (forall k s, (k < 30)%nat -> pending w (job_name_of w) 0 k ->
     observed w (job_name_of w) k = inr s -> is_terminal s = true ->
     total_sleep (lambda_handler rt w event).2 = 10 * Z.of_nat k) /\
  (pending w (job_name_of w) 0 30 ->
     total_sleep (lambda_handler rt w event).2 = 300).
Proof.
  intros Hsub. unfold lambda_handler. rewrite catch_all_log.
  rewrite (handler_body_submitted _ _ _ _ _ Hsub). split.
  - intros k s Hk Hp Hobs Ht.
    assert (Hpoll : poll w (job_name_of w) =
              (inr (Some s),
               waiting (job_name_of w) k ++ [polled (job_name_of w)])).
    { unfold poll, max_attempts.
      replace 30%nat with (k + S (29 - k))%nat by lia.
      by apply poll_loop_terminal. }
    destruct (eq_str s FAILED) eqn:Hf.
    + rewrite (poll_and_finish_failed _ _ _ _ _ _ Hpoll Hf).
      unfold prepend. cbn [fst snd app].
      change (total_sleep (?e :: ?l)) with (total_sleep l).
      rewrite total_sleep_app, total_sleep_waiting. simpl. lia.
    + rewrite (poll_and_finish_continue _ _ _ _ _ _ Hpoll Hf), prepend_prepend.
      unfold prepend. cbn [fst snd app].
      change (total_sleep (?e :: ?l)) with (total_sleep l).
      rewrite !total_sleep_app, total_sleep_waiting.
      rewrite (total_sleep_quiet _ (fetch_and_finish_quiet _ _ _ _)).
      simpl. lia.
  - intros Hp.
    destruct (poll_loop_exhausted w (job_name_of w) 30 0 None Hp)
      as (s & _ & Ht & Hpoll); [lia|]. fold (poll w (job_name_of w)) in Hpoll.
    assert (Hf : eq_str s FAILED = false).
    { unfold is_terminal in Ht. by apply orb_false_iff in Ht as [_ ?]. }
    rewrite (poll_and_finish_continue _ _ _ _ _ _ Hpoll Hf), prepend_prepend.
    unfold prepend. cbn [fst snd app].
    change (total_sleep (?e :: ?l)) with (total_sleep l).
    rewrite !total_sleep_app, total_sleep_waiting.
    rewrite (total_sleep_quiet _ (fetch_and_finish_quiet _ _ _ _)). lia.
Qed.

(** X13.  Only the strings COMPLETED and FAILED end the polling.  When the
    job was submitted, the thirty polls observe statuses none of which is one
    of these two strings (QUEUED, a string in lower case, a value that is not
    a string) and no sleep is interrupted, the budget is used up: the loop
    ends after thirty rounds with the status of the last poll, and the handler
    goes on with the fetch. *)
Theorem budget_exhausted_any rt w event bucket key (status : nat -> pyval) :
  submitted rt w event bucket key ->
  (forall n, (n < 30)%nat ->
     observed w (job_name_of w) n = inr (status n) /\
     status n <> PStr COMPLETED /\ status n <> PStr FAILED /\
     sleep w n = inr tt) ->
  poll w (job_name_of w) =
    (inr (Some (status 29%nat)), waiting (job_name_of w) 30) /\
  lambda_handler rt w event =
    prepend (submission rt w bucket key :: waiting (job_name_of w) 30)
      (catch_all rt (fetch_and_finish rt w bucket (job_name_of w))).
Proof.
  intros Hsub Hall.
  assert (Hp : pending w (job_name_of w) 0 30).
  { intros i Hi. destruct (Hall i Hi) as (Hobs & Hc & Hf & Hz).
    split; [|exact Hz]. exists (status i).
    split; [exact Hobs | by apply is_terminal_false]. }
  destruct (poll_loop_exhausted w (job_name_of w) 30 0 None Hp)
    as (s & Hobs & Ht & Hpoll); [lia|]. fold (poll w (job_name_of w)) in Hpoll.
  destruct (Hall 29%nat) as (Hobs' & _); [lia|].
  change (0 + 30 - 1)%nat with 29%nat in Hobs.
  rewrite Hobs' in Hobs. injection Hobs as <-.
  split; [exact Hpoll|].
  apply transcribed_handler. split; [exact Hsub|]. exists (status 29%nat).
  split; [exact Hpoll|]. unfold is_terminal in Ht.
  by apply orb_false_iff in Ht as [_ ?].
Qed.

(** ** No call after a failure *)

Lemma forallb_removelast {A} (f : A -> bool) l :
  forallb f l = true -> forallb f (removelast l) = true.
Proof.
  induction l as [|x l IH]; [done|]. cbn [forallb].
  intros [Hx Hl]%andb_true_iff. destruct l as [|y l]; [done|].
  change (removelast (x :: y :: l)) with (x :: removelast (y :: l)).
  cbn [forallb]. by rewrite Hx, IH.
Qed.

Lemma tidy_bind {A B} (m : M A) (k : A -> M B) :
  tidy m -> (forall a, tidy (k a)) -> tidy (m ≫= k).
Proof.
  destruct m as [[e|a] l]; [done|]. unfold tidy at 1. cbn [fst snd].
  intros Hl Hk. specialize (Hk a). unfold mbind, M_bind, tidy in *.
  destruct (k a) as [[e|b] l']; cbn [fst snd] in *.
  - destruct l' as [|x l'].
    + rewrite app_nil_r. by apply forallb_removelast.
    + rewrite removelast_app by done. by rewrite forallb_app, Hl, Hk.
  - by rewrite forallb_app, Hl, Hk.
Qed.

Lemma tidy_invoke {A} c (r : exn + A) : tidy (invoke c r).
Proof. by destruct r. Qed.

Lemma tidy_eval {A} (r : exn + A) : tidy (eval r).
Proof. by destruct r. Qed.

Lemma tidy_print args : tidy (print args).
Proof.
  pose proof (print_log args) as H. unfold tidy.
  destruct (print args) as [[e|[]] l]; cbn [fst snd] in *; by subst.
Qed.

Ltac tidy_steps :=
  repeat first
    [ apply tidy_invoke | apply tidy_eval | apply tidy_print | reflexivity
    | apply tidy_bind; [|intros]
    | match goal with
      | |- tidy (match ?x with _ => _ end) => destruct x
      | |- tidy (if ?x then _ else _) => destruct x
      end ].

Lemma tidy_poll_loop w job : forall remaining n js,
  tidy (poll_loop w job remaining n js).
Proof.
  induction remaining as [|remaining IH]; intros n js; [done|].
  rewrite poll_loop_S. apply tidy_bind; [unfold poll_once; tidy_steps|].
  intros s. destruct (is_terminal s); [done|].
  apply tidy_bind; [apply tidy_invoke | intros; apply IH].
Qed.

Lemma tidy_handler_body rt w event : tidy (handler_body rt w event).
Proof.
  unfold handler_body. apply tidy_bind; [apply tidy_eval|].
  intros [bucket key]. apply tidy_bind; [apply tidy_print|]. intros _.
  apply tidy_bind; [apply tidy_invoke|]. intros _.
  apply tidy_bind; [apply tidy_print|]. intros _.
  unfold poll_and_finish. apply tidy_bind; [apply tidy_poll_loop|].
  intros js. apply tidy_bind; [unfold check_failed; tidy_steps|]. intros _.
  apply tidy_bind; [apply tidy_print|]. intros _.
  unfold fetch_and_finish, fetch_transcript, summarize, save_summary.
  tidy_steps.
Qed.

(** X14.  After a call that raised the handler makes no other call: every
    logged call but the last returned, and in a successful invocation all
    of them did. *)
Theorem fail_fast rt w event :
  (forall l e, (lambda_handler rt w event).2 = l ++ [e] ->
     forallb returned l = true) /\
  (forall result,
     (lambda_handler rt w event).1 = inr result ->
     field result k_status = Some (PStr (lit "success")) ->
     forallb returned (lambda_handler rt w event).2 = true).
Proof.
  pose proof (tidy_handler_body rt w event) as Ht. unfold tidy in Ht. split.
  - intros l x. unfold lambda_handler. rewrite catch_all_log.
    destruct (handler_body rt w event) as [[e|r] log]; cbn [fst snd] in *;
      intros ->.
    + by rewrite removelast_last in Ht.
    + rewrite forallb_app in Ht. by apply andb_true_iff in Ht as [? _].
  - intros result Hr Hst.
    destruct (lambda_handler rt w event) as [o log] eqn:Hh.
    cbn [fst snd] in *. subst o.
    apply succeeded_body in Hh; [|exact Hst].
    by rewrite Hh in Ht.
Qed.
(** ** What a run leaves in the store *)


(** X16.  At the end of a successful invocation the store holds, in the
    container of the event, the transcript the handler fetched, under
    [transcripts/{job}.json], and the encoded summary the chat model gave for
    that transcript, under [summaries/{job}_summary.txt] with content type
    [text/plain]; every other object is as it was. *)
Theorem store_after_success rt w event container key result log :
  decode_event event = inr (PStr container, key) ->
  lambda_handler rt w event = (inr result, log) ->
  field result k_status = Some (PStr (lit "success")) ->
  exists bytes doc transcript summary choices,
    get_object w (PStr container)
      (lit "transcripts/" ++ job_name_of w ++ lit ".json") = inr bytes /\
    json_loads rt bytes = inr doc /\
    getpath doc [Key k_results; Key k_transcripts; Index 0%nat;
                 Key k_transcript] = inr transcript /\
    chat_completions_create w model system_prompt transcript max_tokens
      = inr (Some summary :: choices) /\
    forall store,
      ObjectStore.replay w store log =
      <[(container, lit "summaries/" ++ job_name_of w ++ lit "_summary.txt") :=
          {| ObjectStore.body := Utf8.encode_all summary;
             ObjectStore.content_type := Some (lit "text/plain") |}]>
        (<[(container, lit "transcripts/" ++ job_name_of w ++ lit ".json") :=
             {| ObjectStore.body := bytes;
                ObjectStore.content_type := None |}]> store).
Proof.
  intros Hd Hh Hst. apply succeeded_body in Hh; [|exact Hst].
  destruct (handler_body_success _ _ _ _ _ Hh)
    as (bucket & key' & lp & t & summary & choices &
        [[Hd' _] (s & Hpoll & _)] & Hread & Hchat & _ & _ & ->).
  rewrite Hd in Hd'. injection Hd' as <- <-.
  destruct Hread as (bytes & doc & sample & Hget & Hdoc & Hpath & _ & _).
  exists bytes, doc, t, summary, choices.
  split; [exact Hget|]. split; [exact Hdoc|]. split; [exact Hpath|].
  split; [exact Hchat|]. intros store.
  destruct (poll_returned_log _ _ _ _ Hpoll) as (k & last & -> & _ & Hlast).
  rewrite replay_cons, replay_app, replay_waiting
    by (destruct Hlast as [-> | ->]; constructor).
  unfold ObjectStore.replay. cbn [foldl]. unfold ObjectStore.apply.
  cbn [called returned submission fetched summarized written].
  rewrite Hget. reflexivity.
Qed.

(** ** The order of the calls *)

Lemma stage_of_waiting job k : map stage_of (waiting job k) = rounds k.
Proof.
  induction k as [|k IH]; [reflexivity|]. cbn [waiting map rounds].
  by rewrite IH.
Qed.

Lemma rounds_snoc k : rounds k ++ [AtPoll; AtWait] = rounds (S k).
Proof.
  induction k as [|k IH]; [reflexivity|].
  cbn [rounds app]. rewrite IH. reflexivity.
Qed.

(** X17.  The calls of every run are in the order: the submission, rounds
    of a poll and a sleep, at most one more poll (thirty at most), the fetch,
    the chat call, the write; each of the submission, the fetch, the chat call
    and the write at most once, and none without the ones before it. *)
Theorem calls_in_order rt w event :
  exists k p,
    (p = [] \/ p = [AtPoll]) /\ (k + length p <= 30)%nat /\
    map stage_of (lambda_handler rt w event).2 `prefix_of`
      AtSubmit :: rounds k ++ p ++ [AtFetch; AtSummarize; AtWrite].
Proof.
  unfold lambda_handler. rewrite catch_all_log.
  destruct (handler_body_case rt w event)
    as [e He|bucket key Hd Hr|e bucket key Hd Hs|bucket key Hd Hj
       |e bucket key k last Hsub Hlen Hlast
       |bucket key k last m Ht Hlen Hlast Hm].
  - exists 0%nat, []. split; [by left|]. split; [simpl; lia|].
    apply prefix_nil.
  - exists 0%nat, []. split; [by left|]. split; [simpl; lia|].
    apply prefix_nil.
  - exists 0%nat, []. split; [by left|]. split; [simpl; lia|].
    by eexists.
  - exists 0%nat, []. split; [by left|]. split; [simpl; lia|].
    by eexists.
  - unfold max_attempts, polls in Hlen. cbn [snd map].
    rewrite map_app, stage_of_waiting.
    destruct Hlast as [|b|]; cbn in Hlen.
    + exists k, []. split; [by left|]. split; [simpl; lia|].
      apply prefix_cons, prefix_app, prefix_nil.
    + exists k, [AtPoll]. split; [by right|]. split; [simpl; lia|].
      apply prefix_cons, prefix_app. by eexists.
    + exists (S k), []. split; [by left|]. split; [simpl; lia|].
      apply prefix_cons. cbn [map stage_of called polled interrupted].
      rewrite rounds_snoc. by eexists.
  - exists k, (map stage_of last).
    split; [by destruct Hlast as [-> | ->]; [left | right]|].
    split; [by rewrite length_map|]. unfold prepend. cbn [snd app map].
    rewrite !map_app, stage_of_waiting, <- !app_assoc.
    apply prefix_cons, prefix_app, prefix_app.
    destruct Hm; cbn [snd map]; by eexists.
Qed.

(** ** The parameters of the calls *)

(** X18.  Every call of a run carries the same job name and the container
    decoded from the event: the submission names the audio by
    [s3://{bucket}/{key}] and asks for the output at
    [transcripts/{job}.json], which is the key the fetch reads; the write goes
    to [summaries/{job}_summary.txt] as [text/plain]; the chat call uses the
    model [gpt-4o-mini], the fixed system prompt and 300 tokens; each sleep
    is 10. *)
Theorem calls_carry_one_job rt w event bucket key :
  decode_event event = inr (bucket, key) ->
  Forall (carries rt w bucket key) (lambda_handler rt w event).2.
Proof.
  intros Hd. unfold lambda_handler. rewrite catch_all_log.
  by apply handler_body_carries.
Qed.

(** ** Failures after the polling *)

(** X19.  When line 62 is reached: if the transcript object cannot be
    fetched, or the bytes fetched are not JSON, and the exception is an
    [Exception] whose message can be printed, the handler returns the error
    record of that exception after the fetch, without a call to the chat
    model. *)
Theorem unreadable_transcript rt w event bucket key l e :
  transcribed rt w event bucket key l ->
  reported rt e = true ->
  (get_object w bucket (transcript_key_of (job_name_of w)) = inl e ->
   lambda_handler rt w event =
     (inr (error_record (str_exn rt e)),
      submission rt w bucket key :: l ++
      [{| called := GetObject bucket
                      (lit "transcripts/" ++ job_name_of w ++ lit ".json");
          returned := false |}])) /\
  (forall bytes,
     get_object w bucket (transcript_key_of (job_name_of w)) = inr bytes ->
     json_loads rt bytes = inl e ->
     lambda_handler rt w event =
       (inr (error_record (str_exn rt e)),
        submission rt w bucket key :: l ++ [fetched bucket (job_name_of w)])).
Proof.
  intros Ht He. rewrite (transcribed_handler _ _ _ _ _ _ Ht).
  unfold fetch_and_finish. split.
  - intros Hget.
    assert (Hf : fetch_transcript rt w bucket (job_name_of w) =
              (inl e, [fetch_failed bucket (job_name_of w)])).
    { unfold fetch_transcript, invoke. by rewrite Hget. }
    by rewrite Hf, bind_inl, (catch_all_reported _ _ _ He).
  - intros bytes Hget Hj.
    assert (Hf : fetch_transcript rt w bucket (job_name_of w) =
              (inl e, [fetched bucket (job_name_of w)])).
    { unfold fetch_transcript, invoke. by rewrite Hget, bind_inr, Hj. }
    by rewrite Hf, bind_inl, (catch_all_reported _ _ _ He).
Qed.

(** X20.  A transcript that is neither a string nor a list (a number, null,
    a boolean, an object) makes the slice of line 67 raise: the handler
    returns that error record and the chat model is not called. *)
Theorem transcript_not_text rt w event bucket key l bytes doc t :
  transcribed rt w event bucket key l ->
  get_object w bucket (transcript_key_of (job_name_of w)) = inr bytes ->
  json_loads rt bytes = inr doc ->
  getpath doc [Key k_results; Key k_transcripts; Index 0%nat;
               Key k_transcript] = inr t ->
  sliceable t = false ->
  lambda_handler rt w event =
    (inr (error_record (str_exn rt (SubscriptError t (SliceTo 150)))),
     submission rt w bucket key :: l ++ [fetched bucket (job_name_of w)]).
Proof.
  intros Ht Hget Hdoc Hpath Hsl. rewrite (transcribed_handler _ _ _ _ _ _ Ht).
  assert (Hf : fetch_transcript rt w bucket (job_name_of w) =
            (inl (SubscriptError t (SliceTo 150)),
             [fetched bucket (job_name_of w)])).
  { unfold fetch_transcript, invoke.
    rewrite Hget, bind_inr, Hdoc, bind_eval_inr, Hpath, bind_eval_inr.
    destruct t; try discriminate Hsl; run_binds; reflexivity. }
  unfold fetch_and_finish. rewrite Hf, bind_inl.
  rewrite catch_all_reported by by apply builtin_reported.
  reflexivity.
Qed.



Lemma rejection_Some choices e :
  rejection choices = Some e ->
  match choices with
  | [] => inl (SubscriptError (PList []) (Index 0))
  | content :: _ => encode_summary content
  end = inl e /\ is_builtin e = true.
Proof.
  unfold rejection, encode_summary, Utf8.encode.
  destruct choices as [|[s|] rest]; try by intros [= <-].
  destruct (existsb is_surrogate s); [by intros [= <-] | done].
Qed.

(** X21.  When the transcript was read: if the chat model answers without
    a choice, with a choice without content, or with a content that holds a
    lone surrogate, the handler returns the error record of the exception
    that line 78 or line 85 raises, and [put_object] is not called. *)
Theorem answer_not_written rt w event bucket key l t choices e :
  transcribed rt w event bucket key l ->
  transcript_read rt w bucket t ->
  chat_completions_create w model system_prompt t max_tokens = inr choices ->
  rejection choices = Some e ->
  lambda_handler rt w event =
    (inr (error_record (str_exn rt e)),
     submission rt w bucket key :: l ++
     [fetched bucket (job_name_of w); summarized t]).
Proof.
  intros Ht Hr Hchat Hrej. rewrite (transcribed_handler _ _ _ _ _ _ Ht).
  rewrite (finish_answer _ _ _ _ _ (fetch_transcript_read _ _ _ _ Hr) Hchat).
  apply rejection_Some in Hrej as [Hrej He].
  assert (Hm : match choices with
     | [] => raise (SubscriptError (PList []) (Index 0))
     | content :: _ =>
       summary_key ← save_summary w bucket (job_name_of w) content;
       _ ← print [saved_line rt bucket summary_key];
       mret (success_record (s3_uri rt bucket summary_key))
     end = (inl e, [])).
  { destruct choices as [|content rest].
    - by injection Hrej as <-.
    - unfold save_summary. rewrite Hrej. reflexivity. }
  rewrite Hm. unfold prepend at 2. cbn [fst snd].
  rewrite catch_all_reported by by apply builtin_reported.
  unfold prepend. cbn [fst snd app]. by rewrite ?app_nil_r, <- ?app_assoc.
Qed.

(** X22.  When the summary was produced: if [put_object] raises an
    [Exception] whose message can be printed, the handler returns the error
    record of that exception; the refused write is the last call. *)
Theorem write_refused rt w event bucket key l t summary rest e :
  transcribed rt w event bucket key l ->
  transcript_read rt w bucket t ->
  chat_completions_create w model system_prompt t max_tokens
    = inr (Some summary :: rest) ->
  existsb is_surrogate summary = false ->
  put_object w bucket (summary_key_of (job_name_of w))
    (Utf8.encode_all summary) text_plain = inl e ->
  reported rt e = true ->
  lambda_handler rt w event =
    (inr (error_record (str_exn rt e)),
     submission rt w bucket key :: l ++
     [fetched bucket (job_name_of w); summarized t;
      {| called := PutObject bucket
                     (lit "summaries/" ++ job_name_of w ++ lit "_summary.txt")
                     (Utf8.encode_all summary) (lit "text/plain");
         returned := false |}]).
Proof.
  intros Ht Hr Hchat Hs Hput He. rewrite (transcribed_handler _ _ _ _ _ _ Ht).
  rewrite (finish_summary _ _ _ _ _ _ (fetch_transcript_read _ _ _ _ Hr)
             Hchat Hs (transcribed_saved _ _ _ _ _ _ Ht)).
  unfold invoke. rewrite Hput, bind_inl. unfold prepend at 2. cbn [fst snd].
  rewrite (catch_all_reported _ _ _ He).
  unfold prepend. cbn [fst snd app]. by rewrite ?app_nil_r, <- ?app_assoc.
Qed.

(** X23.  When the job is submitted and its name and location are printed,
    the polling ends on a status that is not FAILED, the transcript is read
    and its first 150 items are printed, the chat model answers with a string
    without a lone surrogate and the write is accepted, the handler returns
    the success record with [s3://{bucket}/summaries/{job}_summary.txt], after
    exactly the fetch, the chat call and the write. *)
Theorem invocation_succeeds rt w event bucket key l t summary rest :
  transcribed rt w event bucket key l ->
  transcript_read rt w bucket t ->
  chat_completions_create w model system_prompt t max_tokens
    = inr (Some summary :: rest) ->
  existsb is_surrogate summary = false ->
  put_object w bucket (summary_key_of (job_name_of w))
    (Utf8.encode_all summary) text_plain = inr tt ->
  lambda_handler rt w event =
    (inr (success_record
            (lit "s3://" ++ format rt bucket ++ lit "/" ++
             lit "summaries/" ++ job_name_of w ++ lit "_summary.txt")),
     submission rt w bucket key :: l ++
     [fetched bucket (job_name_of w); summarized t;
      written bucket (job_name_of w) (Utf8.encode_all summary)]).
Proof.
  intros Ht Hr Hchat Hs Hput. rewrite (transcribed_handler _ _ _ _ _ _ Ht).
  rewrite (finish_summary _ _ _ _ _ _ (fetch_transcript_read _ _ _ _ Hr)
             Hchat Hs (transcribed_saved _ _ _ _ _ _ Ht)).
  unfold invoke. rewrite Hput. run_binds. reflexivity.
Qed.

(** ** The derived keys and the body *)

(** X24.  The key of a transcript is never the key of a summary, and two
    job names never share a summary key or a transcript key. *)
Theorem derived_keys_apart job job' :
  transcript_key_of job <> summary_key_of job' /\
  (summary_key_of job = summary_key_of job' -> job = job') /\
  (transcript_key_of job = transcript_key_of job' -> job = job').
Proof.
  unfold transcript_key_of, summary_key_of. split; [discriminate|].
  split; intros H; apply app_inv_head in H; by apply app_inv_tail in H.
Qed.

(** X25.  The body written for a summary is made of octets, at least one
    and at most four for each character. *)
Theorem body_is_octets summary :
  Forall is_code_point summary ->
  Forall is_octet (Utf8.encode_all summary) /\
  (length summary <= length (Utf8.encode_all summary)
   <= 4 * length summary)%nat.
Proof. apply encode_all_octets. Qed.
(** ** The further properties on instances *)

Lemma decode_event_spec_witness :
  exists record others s3 b o k,
    field Scenario.event k_Records = Some (PList (record :: others)) /\
    field record k_s3 = Some s3 /\
    field s3 k_bucket = Some b /\
    field b k_name = Some (PStr (lit "medrecs")) /\
    field s3 k_object = Some o /\
    field o k_key = Some (PStr k) /\
    lit "calls/visit1.wav" = UrlParse.unquote_plus k.
Proof.
  exact (proj1 (decode_event_spec Scenario.event (PStr (lit "medrecs"))
                  (lit "calls/visit1.wav")) eq_refl).
Defined.

Lemma malformed_event_witness :
  exists e,
    decode_event Faults.event_no_records = inl e /\
    lambda_handler Scenario.rt Scenario.world1 Faults.event_no_records =
      (inr (error_record (str_exn Scenario.rt e)), []).
Proof.
  apply (malformed_event Scenario.rt Scenario.world1 Faults.event_no_records).
  intros (record & others & s3 & b & name & o & k & H & _). discriminate H.
Defined.

Lemma key_not_a_string_witness :
  decode_event Faults.event_numeric_key =
    inl (AttributeError (PInt 7) (lit "replace")).
Proof.
  refine (key_not_a_string Faults.event_numeric_key _ _ _ _ _ _ (PInt 7)
            eq_refl eq_refl eq_refl eq_refl eq_refl eq_refl _).
  intros k H. discriminate H.
Defined.

Lemma scenario_names_first :
  names_first Scenario.event (lit "medrecs") (lit "calls/visit1.wav").
Proof.
  unfold names_first, Scenario.event, Scenario.event_for.
  do 5 eexists. repeat split; reflexivity.
Defined.

Lemma plain_key_unchanged_witness :
  decode_event Scenario.event =
    inr (PStr (lit "medrecs"), lit "calls/visit1.wav").
Proof.
  exact (plain_key_unchanged _ _ _ scenario_names_first eq_refl eq_refl).
Defined.

Lemma escaped_names_first :
  names_first Faults.event_escaped (lit "medrecs") (lit "a%2Bb.wav").
Proof.
  unfold names_first, Faults.event_escaped, Scenario.event_for.
  do 5 eexists. repeat split; reflexivity.
Defined.

Lemma ascii_key_decoding_witness :
  decode_event Faults.event_escaped = inr (PStr (lit "medrecs"), lit "a+b.wav").
Proof.
  exact (ascii_key_decoding _ _ _ escaped_names_first eq_refl).
Defined.

Lemma decoded_key_not_longer_witness :
  exists decoded,
    decode_event Faults.event_escaped = inr (PStr (lit "medrecs"), decoded) /\
    (length decoded <= length (lit "a%2Bb.wav"))%nat /\
    (length decoded = length (lit "a%2Bb.wav") ->
     decoded = UrlParse.replace_plus (lit "a%2Bb.wav")).
Proof. exact (decoded_key_not_longer _ _ _ escaped_names_first). Defined.

Lemma ascii_scalar (s : string) :
  Forall is_scalar (lit s).
Proof.
  induction s as [|a s IH]; [constructor|].
  cbn [lit]. constructor; [|exact IH].
  pose proof (N_ascii_bounded a) as Ha. apply is_scalar_intro; lia.
Qed.

Lemma decoded_key_well_formed_witness :
  exists decoded,
    decode_event Faults.event_escaped = inr (PStr (lit "medrecs"), decoded) /\
    Forall is_scalar decoded /\
    Utf8.encode decoded = Some (Utf8.encode_all decoded).
Proof.
  exact (decoded_key_well_formed _ _ _ escaped_names_first (ascii_scalar _)).
Defined.

Lemma media_format_is_extension_witness :
  media_format_of Scenario.rt (lit "calls/visit1" ++ 46 :: lit "WAV")
    = lit "wav" /\
  media_format_of Scenario.rt (lit "recording") = lit "recording".
Proof.
  exact (media_format_is_extension Scenario.rt (lit "calls/visit1")
           (lit "WAV") (lit "recording") eq_refl eq_refl).
Defined.

Lemma submission_refused_witness :
  lambda_handler Scenario.rt Faults.refused Scenario.event =
    (inr (error_record (lit "LimitExceededException")),
     [{| called := StartTranscriptionJob (lit "twilio-3f2a9c1e")
                     (lit "s3://medrecs/calls/visit1.wav") (lit "wav")
                     (lit "en-US") (PStr (lit "medrecs"))
                     (lit "transcripts/twilio-3f2a9c1e.json");
         returned := false |}]).
Proof.
  exact (submission_refused Scenario.rt Faults.refused Scenario.event
           (PStr (lit "medrecs")) (lit "calls/visit1.wav")
           (Foreign (lit "LimitExceededException"))
           eq_refl eq_refl eq_refl eq_refl).
Defined.

Lemma instance_submitted rt w :
  start_transcription_job w = start_transcription_job Scenario.world1 ->
  uuid4_hex w = uuid4_hex Scenario.world1 ->
  submitted rt w Scenario.event (PStr (lit "medrecs"))
    (lit "calls/visit1.wav").
Proof.
  intros Hs Hu. unfold submitted, job_name_of. rewrite Hs, Hu.
  repeat split.
Qed.

Lemma instance_pending w :
  get_transcription_job w = get_transcription_job Scenario.world1 ->
  sleep w = sleep Scenario.world1 ->
  pending w (job_name_of Scenario.world1) 0 2.
Proof.
  intros Hg Hz i Hi. unfold observed. rewrite Hg, Hz.
  split; [|reflexivity]. exists (PStr IN_PROGRESS).
  destruct i as [|[|i]]; [split; reflexivity .. | lia].
Qed.

Lemma poll_fails_pending :
  pending Faults.poll_fails (job_name_of Faults.poll_fails) 0 1.
Proof.
  intros i Hi. split; [|reflexivity]. exists (PStr IN_PROGRESS).
  destruct i as [|i]; [split; reflexivity | lia].
Defined.

Lemma poll_raises_witness :
  lambda_handler Scenario.rt Faults.poll_fails Scenario.event =
    (inr (error_record (lit "ThrottlingException")),
     submission Scenario.rt Faults.poll_fails (PStr (lit "medrecs"))
       (lit "calls/visit1.wav")
     :: waiting (job_name_of Faults.poll_fails) 1 ++
     [{| called := GetTranscriptionJob (job_name_of Faults.poll_fails);
         returned := false |}]).
Proof.
  refine (poll_raises Scenario.rt Faults.poll_fails Scenario.event
            (PStr (lit "medrecs")) (lit "calls/visit1.wav") 1%nat
            (Foreign (lit "ThrottlingException"))
            (instance_submitted _ _ eq_refl eq_refl) _ poll_fails_pending
            eq_refl eq_refl).
  lia.
Defined.


Lemma sleep_exact_witness :
  total_sleep (lambda_handler Scenario.rt Scenario.world1 Scenario.event).2
    = 20.
Proof.
  refine (proj1 (sleep_exact Scenario.rt Scenario.world1 Scenario.event
                   (PStr (lit "medrecs")) (lit "calls/visit1.wav")
                   (scenario_submitted _ _))
            2%nat (PStr COMPLETED) _ scenario1_pending eq_refl eq_refl).
  lia.
Defined.

Lemma lower_case_statuses :
  forall n, (n < 30)%nat ->
    observed Faults.lower_case (job_name_of Faults.lower_case) n
      = inr (PStr (lit "completed")) /\
    PStr (lit "completed") <> PStr COMPLETED /\
    PStr (lit "completed") <> PStr FAILED /\
    sleep Faults.lower_case n = inr tt.
Proof. intros n Hn. repeat split; discriminate. Qed.

Lemma budget_exhausted_any_witness :
  poll Faults.lower_case (job_name_of Faults.lower_case) =
    (inr (Some (PStr (lit "completed"))),
     waiting (job_name_of Faults.lower_case) 30) /\
  lambda_handler Scenario.rt Faults.lower_case Scenario.event =
    prepend (submission Scenario.rt Faults.lower_case (PStr (lit "medrecs"))
               (lit "calls/visit1.wav")
             :: waiting (job_name_of Faults.lower_case) 30)
      (catch_all Scenario.rt
         (fetch_and_finish Scenario.rt Faults.lower_case
            (PStr (lit "medrecs")) (job_name_of Faults.lower_case))).
Proof.
  exact (budget_exhausted_any Scenario.rt Faults.lower_case Scenario.event
           (PStr (lit "medrecs")) (lit "calls/visit1.wav")
           (fun _ => PStr (lit "completed"))
           (instance_submitted _ _ eq_refl eq_refl) lower_case_statuses).
Defined.

Lemma fail_fast_witness :
  forallb returned
    (submission Scenario.rt Scenario.world2 (PStr (lit "medrecs"))
       (lit "calls/visit1.wav")
     :: waiting (job_name_of Scenario.world2) 30) = true.
Proof.
  exact (proj1 (fail_fast Scenario.rt Scenario.world2 Scenario.event)
           (submission Scenario.rt Scenario.world2 (PStr (lit "medrecs"))
              (lit "calls/visit1.wav")
            :: waiting (job_name_of Scenario.world2) 30)
           (fetch_failed (PStr (lit "medrecs"))
              (job_name_of Scenario.world2)) eq_refl).
Defined.


Lemma store_after_success_witness :
  exists bytes doc transcript summary choices,
    get_object Scenario.world1 (PStr (lit "medrecs"))
      (lit "transcripts/" ++ job_name_of Scenario.world1 ++ lit ".json")
      = inr bytes /\
    json_loads Scenario.rt bytes = inr doc /\
    getpath doc [Key k_results; Key k_transcripts; Index 0%nat;
                 Key k_transcript] = inr transcript /\
    chat_completions_create Scenario.world1 model system_prompt transcript
      max_tokens = inr (Some summary :: choices) /\
    forall store,
      ObjectStore.replay Scenario.world1 store
        (lambda_handler Scenario.rt Scenario.world1 Scenario.event).2 =
      <[(lit "medrecs",
         lit "summaries/" ++ job_name_of Scenario.world1
         ++ lit "_summary.txt") :=
          {| ObjectStore.body := Utf8.encode_all summary;
             ObjectStore.content_type := Some (lit "text/plain") |}]>
        (<[(lit "medrecs",
            lit "transcripts/" ++ job_name_of Scenario.world1
            ++ lit ".json") :=
             {| ObjectStore.body := bytes;
                ObjectStore.content_type := None |}]> store).
Proof.
  exact (store_after_success Scenario.rt Scenario.world1 Scenario.event
           (lit "medrecs") (lit "calls/visit1.wav") _ _
           eq_refl eq_refl eq_refl).
Defined.

Lemma calls_carry_one_job_witness :
  Forall (carries Scenario.rt Scenario.world1 (PStr (lit "medrecs"))
            (lit "calls/visit1.wav"))
    (lambda_handler Scenario.rt Scenario.world1 Scenario.event).2.
Proof.
  exact (calls_carry_one_job Scenario.rt Scenario.world1 Scenario.event
           (PStr (lit "medrecs")) (lit "calls/visit1.wav") eq_refl).
Defined.

Lemma scenario2_transcribed :
  transcribed Scenario.rt Scenario.world2 Scenario.event
    (PStr (lit "medrecs")) (lit "calls/visit1.wav")
    (waiting (job_name_of Scenario.world2) 30).
Proof.
  split; [apply scenario_submitted|].
  exists (PStr IN_PROGRESS). split; reflexivity.
Defined.

Lemma unreadable_transcript_witness :
  lambda_handler Scenario.rt Scenario.world2 Scenario.event =
    (inr (error_record (lit "NoSuchKey")),
     submission Scenario.rt Scenario.world2 (PStr (lit "medrecs"))
       (lit "calls/visit1.wav")
     :: waiting (job_name_of Scenario.world2) 30 ++
     [{| called := GetObject (PStr (lit "medrecs"))
                     (lit "transcripts/" ++ job_name_of Scenario.world2
                      ++ lit ".json");
         returned := false |}]).
Proof.
  exact (proj1 (unreadable_transcript Scenario.rt Scenario.world2
                  Scenario.event (PStr (lit "medrecs"))
                  (lit "calls/visit1.wav") _ (Foreign (lit "NoSuchKey"))
                  scenario2_transcribed eq_refl) eq_refl).
Defined.

Lemma instance_transcribed rt w :
  start_transcription_job w = start_transcription_job Scenario.world1 ->
  get_transcription_job w = get_transcription_job Scenario.world1 ->
  sleep w = sleep Scenario.world1 ->
  uuid4_hex w = uuid4_hex Scenario.world1 ->
  transcribed rt w Scenario.event (PStr (lit "medrecs"))
    (lit "calls/visit1.wav")
    (waiting (job_name_of w) 2 ++ [polled (job_name_of w)]).
Proof.
  intros Hs Hg Hz Hu. split; [by apply instance_submitted|].
  exists (PStr COMPLETED). split; [|reflexivity].
  assert (Hj : job_name_of w = job_name_of Scenario.world1)
    by (unfold job_name_of; by rewrite Hu).
  rewrite Hj. unfold poll.
  replace max_attempts with (2 + S 27)%nat by reflexivity.
  apply poll_loop_terminal;
    [by apply instance_pending | unfold observed; by rewrite Hg | reflexivity].
Qed.

Lemma transcript_not_text_witness :
  lambda_handler (Faults.rt_reading (PInt 42)) Scenario.world1 Scenario.event =
    (inr (error_record
            (str_exn (Faults.rt_reading (PInt 42))
               (SubscriptError (PInt 42) (SliceTo 150)))),
     submission (Faults.rt_reading (PInt 42)) Scenario.world1
       (PStr (lit "medrecs")) (lit "calls/visit1.wav")
     :: (waiting (job_name_of Scenario.world1) 2 ++
         [polled (job_name_of Scenario.world1)])
     ++ [fetched (PStr (lit "medrecs")) (job_name_of Scenario.world1)]).
Proof.
  exact (transcript_not_text (Faults.rt_reading (PInt 42)) Scenario.world1
           Scenario.event (PStr (lit "medrecs")) (lit "calls/visit1.wav")
           _ Scenario.transcript_document _ (PInt 42)
           (instance_transcribed _ _ eq_refl eq_refl eq_refl eq_refl)
           eq_refl eq_refl eq_refl eq_refl).
Defined.


Lemma instance_transcript_read w :
  get_object w = get_object Scenario.world1 ->
  uuid4_hex w = uuid4_hex Scenario.world1 ->
  transcript_read Scenario.rt w (PStr (lit "medrecs"))
    (PStr (lit "Patient reports mild fever.")).
Proof.
  intros Hg Hu. unfold transcript_read, job_name_of. rewrite Hg, Hu.
  do 3 eexists. repeat split; reflexivity.
Qed.

Lemma answer_not_written_witness :
  lambda_handler Scenario.rt (Faults.answering [Some [0xD83D]])
    Scenario.event =
    (inr (error_record (str_exn Scenario.rt (UnicodeEncodeError [0xD83D]))),
     submission Scenario.rt (Faults.answering [Some [0xD83D]])
       (PStr (lit "medrecs")) (lit "calls/visit1.wav")
     :: (waiting (job_name_of Scenario.world1) 2 ++
         [polled (job_name_of Scenario.world1)])
     ++ [fetched (PStr (lit "medrecs")) (job_name_of Scenario.world1);
         summarized (PStr (lit "Patient reports mild fever."))]).
Proof.
  exact (answer_not_written Scenario.rt (Faults.answering [Some [0xD83D]])
           Scenario.event (PStr (lit "medrecs")) (lit "calls/visit1.wav")
           _ _ [Some [0xD83D]] (UnicodeEncodeError [0xD83D])
           (instance_transcribed _ _ eq_refl eq_refl eq_refl eq_refl)
           (instance_transcript_read _ eq_refl eq_refl) eq_refl eq_refl).
Defined.

Lemma write_refused_witness :
  lambda_handler Scenario.rt Faults.read_only Scenario.event =
    (inr (error_record (lit "AccessDenied")),
     submission Scenario.rt Faults.read_only
       (PStr (lit "medrecs")) (lit "calls/visit1.wav")
     :: (waiting (job_name_of Scenario.world1) 2 ++
         [polled (job_name_of Scenario.world1)])
     ++ [fetched (PStr (lit "medrecs")) (job_name_of Scenario.world1);
         summarized (PStr (lit "Patient reports mild fever."));
         {| called := PutObject (PStr (lit "medrecs"))
                        (lit "summaries/twilio-3f2a9c1e_summary.txt")
                        (lit "Patient has a mild fever.") (lit "text/plain");
            returned := false |}]).
Proof.
  exact (write_refused Scenario.rt Faults.read_only
           Scenario.event (PStr (lit "medrecs")) (lit "calls/visit1.wav")
           _ _ (lit "Patient has a mild fever.") []
           (Foreign (lit "AccessDenied"))
           (instance_transcribed _ _ eq_refl eq_refl eq_refl eq_refl)
           (instance_transcript_read _ eq_refl eq_refl)
           eq_refl eq_refl eq_refl eq_refl).
Defined.

Lemma invocation_succeeds_witness :
  lambda_handler Scenario.rt Scenario.world1 Scenario.event =
    (inr (success_record
            (lit "s3://medrecs/summaries/twilio-3f2a9c1e_summary.txt")),
     submission Scenario.rt Scenario.world1
       (PStr (lit "medrecs")) (lit "calls/visit1.wav")
     :: (waiting (job_name_of Scenario.world1) 2 ++
         [polled (job_name_of Scenario.world1)])
     ++ [fetched (PStr (lit "medrecs")) (job_name_of Scenario.world1);
         summarized (PStr (lit "Patient reports mild fever."));
         written (PStr (lit "medrecs")) (job_name_of Scenario.world1)
           (lit "Patient has a mild fever.")]).
Proof.
  exact (invocation_succeeds Scenario.rt Scenario.world1
           Scenario.event (PStr (lit "medrecs")) (lit "calls/visit1.wav")
           _ _ (lit "Patient has a mild fever.") []
           (instance_transcribed _ _ eq_refl eq_refl eq_refl eq_refl)
           (instance_transcript_read _ eq_refl eq_refl)
           eq_refl eq_refl eq_refl).
Defined.

Lemma derived_keys_apart_witness :
  transcript_key_of (lit "twilio-3f2a9c1e")
    <> summary_key_of (lit "twilio-77aa01bc") /\
  (summary_key_of (lit "twilio-3f2a9c1e")
     = summary_key_of (lit "twilio-77aa01bc") ->
   lit "twilio-3f2a9c1e" = lit "twilio-77aa01bc") /\
  (transcript_key_of (lit "twilio-3f2a9c1e")
     = transcript_key_of (lit "twilio-77aa01bc") ->
   lit "twilio-3f2a9c1e" = lit "twilio-77aa01bc").
Proof.
  exact (derived_keys_apart (lit "twilio-3f2a9c1e") (lit "twilio-77aa01bc")).
Defined.

Lemma ascii_code_points (s : string) : Forall is_code_point (lit s).
Proof.
  eapply Forall_impl; [apply ascii_scalar|]. by intros c [Hc _].
Qed.

Lemma body_is_octets_witness :
  Forall is_octet (Utf8.encode_all (lit "Patient has a mild fever.")) /\
  (length (lit "Patient has a mild fever.")
   <= length (Utf8.encode_all (lit "Patient has a mild fever."))
   <= 4 * length (lit "Patient has a mild fever."))%nat.
Proof. exact (body_is_octets _ (ascii_code_points _)). Defined.
